(** * Parallel Strassen multiplication over zero-copy matrix views

    A shallow embedding of [Matrix.h] (classes [Viewable], [View], [Matrix],
    and the two static routines [Matrix<T>::Multiplication] and
    [Matrix<T>::P_Strassen]) and the properties of its specification.

    Modelling conventions.
    - The scalar type [T] of the templates is a type class [Scalar]: a zero
      (the conversion of the literal [0]), [+], [-] and [*].  Ring laws are
      only assumed where a statement needs them (class [ScalarRing]); the
      integers and the 32-bit integers with wrap-around are instances, and
      [double] ([Scalar_double], IEEE 754 binary64) is a scalar type that
      is not one.
    - The [int] of sizes, levels and indices is [Z]; [/] and [%] are the
      truncating [Z.quot] and [Z.rem].  The index arithmetic of the two
      routines stays within the extents of the views it is applied to, so
      it cannot overflow unless a matrix has more cells than an [int]
      counts; that case (undefined behaviour in C++) is not modelled.
      The sums [r + rows], [c + cols] of [makeView] and the product
      [r * c] of the constructor are taken in [Z] as well: a statement
      whose arguments are not bounded by the extents of a matrix says how
      far they must be representable as [int], and [bad_view_int] is the
      test of [makeView] with its sums in 32 bits.  Allocation is taken to
      succeed.
    - The store is a list of [Matrix] objects; a matrix is named by its
      position in the store.  A [View] holds a reference to its base surface,
      so views over one matrix share its cells.
    - [new T[r*c]] leaves the buffer uninitialised: its contents are given by
      an arbitrary function [indeterminate], over which everything is
      quantified.
    - Exceptions are the [Throw] outcome of a state-and-error monad; the
      store survives a throw, as it does in C++.
    - The OpenMP pragmas are modelled by the sequential execution of the
      loops and sections they annotate.
    - [main] of [main.cpp] runs over a state that adds to the store the
      number of calls of [rand] made and the text printed; the [N] it
      reads and the sequence of pseudo-random numbers are parameters, and
      the durations it prints have no value in the model. *)

From Stdlib Require Import PrimFloat.
From Stdlib Require Import ZArith List Lia Bool Ring PeanoNat Eqdep_dec.
From Stdlib Require String.
Import String.StringSyntax.
Import ListNotations.
Local Open Scope Z_scope.
Delimit Scope string_scope with string.
Set Warnings "-inexact-float".

(** ** Scalars *)

Class Scalar (T : Type) : Type := {
  szero : T;
  sadd : T -> T -> T;
  ssub : T -> T -> T;
  smul : T -> T -> T
}.

(** The ring laws under which Strassen's recurrence agrees with the
    triple loop (they hold for [int] arithmetic that does not overflow, or
    that wraps around). *)
Class ScalarRing (T : Type) {ST : Scalar T} : Type := {
  sone : T;
  sopp : T -> T;
  scalar_ring : ring_theory szero sone sadd smul ssub sopp (@eq T)
}.

(** Contents of a freshly allocated buffer: cell [k] of the matrix placed
    at address [m]. *)
Class Indeterminate (T : Type) : Type :=
  indeterminate : nat -> nat -> T.

#[export] Instance Scalar_Z : Scalar Z :=
  {| szero := 0; sadd := Z.add; ssub := Z.sub; smul := Z.mul |}.

#[export] Instance ScalarRing_Z : ScalarRing Z :=
  {| sone := 1; sopp := Z.opp; scalar_ring := Zth |}.

(** ** [int], the scalar type of the driver: 32-bit integers.  Overflow
       wraps around, as the specification has it for fixed-width integers. *)

Module Int32.

Definition modulus : Z := 2 ^ 32.
Definition half : Z := 2 ^ 31.

Definition wrap (z : Z) : Z := (z + half) mod modulus - half.

Definition in_range (z : Z) : bool := (- half <=? z) && (z <? half).

Record int : Type := mk { val : Z; range : in_range val = true }.

Lemma wrap_range (z : Z) : in_range (wrap z) = true.
Proof.
  unfold in_range, wrap.
  pose proof (Z.mod_pos_bound (z + half) modulus eq_refl).
  unfold modulus, half in *. lia.
Qed.

Definition of_Z (z : Z) : int := mk (wrap z) (wrap_range z).

Definition add (x y : int) : int := of_Z (val x + val y).
Definition sub (x y : int) : int := of_Z (val x - val y).
Definition mul (x y : int) : int := of_Z (val x * val y).
Definition opp (x : int) : int := of_Z (- val x).

Lemma eq_val (x y : int) : val x = val y -> x = y.
Proof.
  destruct x as [x Hx], y as [y Hy]. simpl. intros ->.
  f_equal. apply UIP_dec. apply bool_dec.
Qed.

Lemma wrap_small (z : Z) : in_range z = true -> wrap z = z.
Proof.
  unfold in_range, wrap. intros H.
  rewrite Z.mod_small; unfold modulus, half in *; lia.
Qed.

Lemma wrap_mod (z : Z) : wrap z mod modulus = z mod modulus.
Proof.
  unfold wrap.
  rewrite Zminus_mod, Z.mod_mod, <- Zminus_mod by (unfold modulus; lia).
  f_equal. lia.
Qed.

Lemma wrap_eqm (x y : Z) : x mod modulus = y mod modulus -> wrap x = wrap y.
Proof.
  intros H. unfold wrap.
  rewrite (Zplus_mod x), H, <- Zplus_mod. reflexivity.
Qed.

Lemma wrap_add_l (a b : Z) : wrap (wrap a + b) = wrap (a + b).
Proof. apply wrap_eqm. now rewrite <- Zplus_mod_idemp_l, wrap_mod, Zplus_mod_idemp_l. Qed.

Lemma wrap_add_r (a b : Z) : wrap (a + wrap b) = wrap (a + b).
Proof. apply wrap_eqm. now rewrite <- Zplus_mod_idemp_r, wrap_mod, Zplus_mod_idemp_r. Qed.

Lemma wrap_mul_l (a b : Z) : wrap (wrap a * b) = wrap (a * b).
Proof. apply wrap_eqm. now rewrite <- Zmult_mod_idemp_l, wrap_mod, Zmult_mod_idemp_l. Qed.

Lemma wrap_mul_r (a b : Z) : wrap (a * wrap b) = wrap (a * b).
Proof. apply wrap_eqm. now rewrite <- Zmult_mod_idemp_r, wrap_mod, Zmult_mod_idemp_r. Qed.

Lemma wrap_opp (a : Z) : wrap (- wrap a) = wrap (- a).
Proof.
  apply wrap_eqm. change (- wrap a) with (0 - wrap a). change (- a) with (0 - a).
  now rewrite <- Zminus_mod_idemp_r, wrap_mod, Zminus_mod_idemp_r.
Qed.

Lemma wrap_val (x : int) : wrap (val x) = val x.
Proof. apply wrap_small, range. Qed.

Lemma ring : ring_theory (of_Z 0) (of_Z 1) add mul sub opp (@eq int).
Proof.
  constructor; intros; apply eq_val; unfold add, mul, sub, opp, of_Z;
    cbn [val];
    rewrite ?wrap_add_l, ?wrap_add_r, ?wrap_mul_l, ?wrap_mul_r, ?wrap_opp.
  - rewrite Z.add_0_l. apply wrap_val.
  - apply (f_equal wrap). ring.
  - apply (f_equal wrap). ring.
  - rewrite Z.mul_1_l. apply wrap_val.
  - apply (f_equal wrap). ring.
  - apply (f_equal wrap). ring.
  - apply (f_equal wrap). ring.
  - apply (f_equal wrap). ring.
  - apply (f_equal wrap). ring.
Qed.

End Int32.

#[export] Instance Scalar_int32 : Scalar Int32.int :=
  {| szero := Int32.of_Z 0; sadd := Int32.add;
     ssub := Int32.sub; smul := Int32.mul |}.

#[export] Instance ScalarRing_int32 : ScalarRing Int32.int :=
  {| sone := Int32.of_Z 1; sopp := Int32.opp; scalar_ring := Int32.ring |}.

(** ** [double]: the operations round to the nearest binary64 number, so
       the ring laws fail and there is no [ScalarRing] instance. *)

#[export] Instance Scalar_double : Scalar float | 100 :=
  {| szero := 0%float; sadd := PrimFloat.add;
     ssub := PrimFloat.sub; smul := PrimFloat.mul |}.

(** ** Exceptions and outcomes *)

Inductive exn : Type :=
| BadArrayAccess (row col : Z)
| IllegalViewSize (row col : Z).

(** [Undefined] is a dangling reference or a raw access outside a buffer;
    [OutOfFuel] is the recursion budget of the model running out. *)
Inductive result (A : Type) : Type :=
| Ok (x : A)
| Throw (e : exn)
| Undefined
| OutOfFuel.

Arguments Ok {A} x.
Arguments Throw {A} e.
Arguments Undefined {A}.
Arguments OutOfFuel {A}.

(** ** Views: [Viewable], [View] *)

(** A [Viewable] is a [Matrix] (named by its address) or a [View]; a
    [View] keeps a reference to its base and its four integers. *)
Inductive Viewable : Type :=
| OfMatrix (m : nat)
| OfView (v : View)
with View : Type :=
| mkView (base : Viewable) (rowOffset colOffset maxRows maxCols : Z).

Scheme View_mut := Induction for View Sort Prop
  with Viewable_mut := Induction for Viewable Sort Prop.

Definition base (v : View) : Viewable := let (b, _, _, _, _) := v in b.
Definition rowOffset (v : View) : Z := let (_, r, _, _, _) := v in r.
Definition colOffset (v : View) : Z := let (_, _, c, _, _) := v in c.
Definition maxRows (v : View) : Z := let (_, _, _, r, _) := v in r.
Definition maxCols (v : View) : Z := let (_, _, _, _, c) := v in c.

(** [View(const View<T>& other)]. *)
Definition View_copy (other : View) : View :=
  mkView (base other) (rowOffset other) (colOffset other)
         (maxRows other) (maxCols other).

(** The implicitly defined [Viewable<T>::operator=]: [Viewable] has no data
    member, so assigning to the object a reference designates changes
    nothing, and a reference member is never reseated. *)
Definition Viewable_assign (dst src : Viewable) : Viewable := dst.

(** [View<T>::operator=]: [base = other.base] assigns through the reference
    member [base]; the four integers are copied. *)
Definition View_assign (this other : View) : View :=
  mkView (Viewable_assign (base this) (base other))
         (rowOffset other) (colOffset other) (maxRows other) (maxCols other).

(** The matrix at the end of the chain of bases, and the offsets added up
    along the chain. *)
Fixpoint root (v : View) : nat :=
  match v with mkView b _ _ _ _ => root_of b end
with root_of (b : Viewable) : nat :=
  match b with OfMatrix m => m | OfView v => root v end.

Fixpoint roff (v : View) : Z :=
  match v with mkView b ro _ _ _ => ro + roff_of b end
with roff_of (b : Viewable) : Z :=
  match b with OfMatrix _ => 0 | OfView v => roff v end.

Fixpoint coff (v : View) : Z :=
  match v with mkView b _ co _ _ => co + coff_of b end
with coff_of (b : Viewable) : Z :=
  match b with OfMatrix _ => 0 | OfView v => coff v end.

(** The bounds test of [operator()] and of [makeView]. *)
Definition bad_index (row col nrows ncols : Z) : bool :=
  (row <? 0) || (row >=? nrows) || (col <? 0) || (col >=? ncols).

Definition bad_view (r c nrows ncols maxr maxc : Z) : bool :=
  (r <? 0) || (r + nrows >? maxr) || (c <? 0) || (c + ncols >? maxc).

(** [View<T>::makeView]. *)
Definition View_makeView (v : View) (r c nrows ncols : Z) : result View :=
  if bad_view r c nrows ncols (maxRows v) (maxCols v)
  then Throw (IllegalViewSize nrows ncols)
  else Ok (mkView (OfView v) r c nrows ncols).

(** The test of [makeView] with the sums [r + rows] and [c + cols] as
    32-bit addition gives them: a sum beyond [INT_MAX] comes out negative.
    (C++ leaves the overflow undefined; this is what the compiled code
    computes.)  It is [bad_view] whenever the two sums are representable. *)
Definition bad_view_int (r c nrows ncols maxr maxc : Z) : bool :=
  (r <? 0) || (Int32.wrap (r + nrows) >? maxr) ||
  (c <? 0) || (Int32.wrap (c + ncols) >? maxc).

Definition View_makeView_int (v : View) (r c nrows ncols : Z) : result View :=
  if bad_view_int r c nrows ncols (maxRows v) (maxCols v)
  then Throw (IllegalViewSize nrows ncols)
  else Ok (mkView (OfView v) r c nrows ncols).

(** ** A state-and-error monad *)

Definition SE (S A : Type) : Type := S -> result A * S.

Definition ret {S A} (x : A) : SE S A := fun h => (Ok x, h).

Definition bind {S A B} (m : SE S A) (k : A -> SE S B) : SE S B :=
  fun h =>
    match m h with
    | (Ok x, h') => k x h'
    | (Throw e, h') => (Throw e, h')
    | (Undefined, h') => (Undefined, h')
    | (OutOfFuel, h') => (OutOfFuel, h')
    end.

Definition lift {S A} (r : result A) : SE S A := fun h => (r, h).

Definition reading {S A} (f : S -> result A) : SE S A := fun h => (f h, h).

Notation "x <- m ;; k" := (bind m (fun x => k))
  (at level 61, m at next level, right associativity).
Notation "m ;;; k" := (bind m (fun _ => k))
  (at level 61, right associativity).

(** ** Matrices and the store *)

Record Matrix (T : Type) : Type := mkMatrix {
  rows : Z;
  cols : Z;
  data : list T
}.

Arguments mkMatrix {T} rows cols data.
Arguments rows {T} m.
Arguments cols {T} m.
Arguments data {T} m.

(** A [T&]: the address of a matrix and a position in its buffer. *)
Definition ref : Type := (nat * nat)%type.

Fixpoint upd {A} (n : nat) (x : A) (l : list A) : list A :=
  match l, n with
  | [], _ => []
  | _ :: l', O => x :: l'
  | y :: l', S n' => y :: upd n' x l'
  end.

Section Program.

Context {T : Type} {ST : Scalar T} {UT : Indeterminate T}.

Definition heap : Type := list (Matrix T).

Definition M : Type -> Type := SE heap.

(** [Matrix<T>::operator()]: the checked address computation. *)
Definition Matrix_at (m : nat) (row col : Z) (h : heap) : result ref :=
  match nth_error h m with
  | None => Undefined
  | Some mx =>
      if bad_index row col (rows mx) (cols mx)
      then Throw (BadArrayAccess row col)
      else Ok (m, Z.to_nat (row * cols mx + col))
  end.

(** [View<T>::operator()], with the virtual call on [base]. *)
Fixpoint View_at (v : View) (row col : Z) (h : heap) : result ref :=
  match v with
  | mkView b ro co mr mc =>
      if bad_index row col mr mc
      then Throw (BadArrayAccess row col)
      else Viewable_at b (row + ro) (col + co) h
  end
with Viewable_at (b : Viewable) (row col : Z) (h : heap) : result ref :=
  match b with
  | OfMatrix m => Matrix_at m row col h
  | OfView v => View_at v row col h
  end.

(** Reading and writing through a [T&]. *)
Definition load (r : ref) : M T := fun h =>
  match nth_error h (fst r) with
  | None => (Undefined, h)
  | Some mx =>
      match nth_error (data mx) (snd r) with
      | None => (Undefined, h)
      | Some x => (Ok x, h)
      end
  end.

Definition store (r : ref) (x : T) : M unit := fun h =>
  match nth_error h (fst r) with
  | None => (Undefined, h)
  | Some mx =>
      if (snd r <? length (data mx))%nat
      then (Ok tt, upd (fst r)
                     (mkMatrix (rows mx) (cols mx) (upd (snd r) x (data mx))) h)
      else (Undefined, h)
  end.

(** [x = v(row, col)] and [v(row, col) = x]. *)
Definition View_get (v : View) (row col : Z) : M T :=
  r <- reading (View_at v row col) ;; load r.

Definition View_set (v : View) (row col : Z) (x : T) : M unit :=
  r <- reading (View_at v row col) ;; store r x.

Definition Matrix_get (m : nat) (row col : Z) : M T :=
  r <- reading (Matrix_at m row col) ;; load r.

Definition Matrix_set (m : nat) (row col : Z) (x : T) : M unit :=
  r <- reading (Matrix_at m row col) ;; store r x.

(** [Matrix(int r, int c)]: a new object at the next free address, its
    buffer of [r*c] cells uninitialised.  A negative [r*c] makes [new]
    fail, which the program never does.  The product is taken in [Z]: this
    is the constructor where [r*c] is representable as an [int]. *)
Definition Matrix_new (r c : Z) : M nat := fun h =>
  if r * c <? 0 then (Undefined, h)
  else
    let m := length h in
    (Ok m, h ++ [mkMatrix r c (map (indeterminate m) (seq 0 (Z.to_nat (r * c))))]).

(** [Matrix<T>::makeView]. *)
Definition Matrix_makeView (m : nat) (r c rowCount colCount : Z) : M View :=
  reading (fun h =>
    match nth_error h m with
    | None => Undefined
    | Some mx =>
        if bad_view r c rowCount colCount (rows mx) (cols mx)
        then Throw (IllegalViewSize rowCount colCount)
        else Ok (mkView (OfMatrix m) r c rowCount colCount)
    end).

(** [Matrix<T>::makeView] with the sums of its test in 32 bits. *)
Definition Matrix_makeView_int (m : nat) (r c rowCount colCount : Z) : M View :=
  reading (fun h =>
    match nth_error h m with
    | None => Undefined
    | Some mx =>
        if bad_view_int r c rowCount colCount (rows mx) (cols mx)
        then Throw (IllegalViewSize rowCount colCount)
        else Ok (mkView (OfMatrix m) r c rowCount colCount)
    end).

(** The end of the scope of local [Matrix] objects: their destructors run
    on a normal return and during unwinding alike. *)
Definition scope {A} (body : M A) : M A := fun h =>
  let (r, h') := body h in (r, firstn (length h) h').

(** [for (i = 0; i < n; i++) body(i)]. *)
Fixpoint for_from (cnt : nat) (i : Z) (body : Z -> M unit) : M unit :=
  match cnt with
  | O => ret tt
  | S cnt' => body i ;;; for_from cnt' (i + 1) body
  end.

Definition For (n : Z) (body : Z -> M unit) : M unit :=
  for_from (Z.to_nat n) 0 body.

(** ** [Matrix<T>::Multiplication] *)

(** The operands of an expression are read from left to right and the
    right-hand side of an assignment before its left-hand side.  Reads
    change nothing, so the order C++ leaves open only decides which of two
    failing accesses throws first. *)

Definition Multiplication (a b c : View) (size : Z) : M unit :=
  For size (fun i =>
    For size (fun j =>
      View_set c i j szero ;;;
      For size (fun k =>
        cij <- View_get c i j ;;
        aik <- View_get a i k ;;
        bkj <- View_get b k j ;;
        View_set c i j (sadd cij (smul aik bkj))))).

(** ** [Matrix<T>::P_Strassen] *)

(** A local [Matrix<T> s(n, n)] together with the view of it pushed on the
    vector: [s.push_back(s.makeView(0, 0, n, n))]. *)
Definition local_matrix (n : Z) : M View :=
  m <- Matrix_new n n ;; Matrix_makeView m 0 0 n n.

(** The loop nests [d(i, j) = x(i, j) + y(i, j)] and [d(i, j) = x(i, j) - y(i, j)]. *)
Definition assign2 (op : T -> T -> T) (n : Z) (d x y : View) : M unit :=
  For n (fun i =>
    For n (fun j =>
      xv <- View_get x i j ;;
      yv <- View_get y i j ;;
      View_set d i j (op xv yv))).

(** The loop nests with four operands, [d = ((w op1 x) op2 y) op3 z]. *)
Definition assign4 (op1 op2 op3 : T -> T -> T) (n : Z) (d w x y z : View) : M unit :=
  For n (fun i =>
    For n (fun j =>
      wv <- View_get w i j ;;
      xv <- View_get x i j ;;
      yv <- View_get y i j ;;
      zv <- View_get z i j ;;
      View_set d i j (op3 (op2 (op1 wv xv) yv) zv))).

Fixpoint P_Strassen_fuel (fuel : nat) (a b c : View) (size level : Z) : M unit :=
  match fuel with
  | O => lift OutOfFuel
  | S fuel' =>
    if size =? 1 then
      a00 <- View_get a 0 0 ;;
      b00 <- View_get b 0 0 ;;
      View_set c 0 0 (smul a00 b00)
    else if negb (Z.rem size 2 =? 0) then
      Multiplication a b c size
    else if level >? 1 then
      Multiplication a b c size
    else
      let n := Z.quot size 2 in
      a11 <- lift (View_makeView a 0 0 n n) ;;
      a12 <- lift (View_makeView a 0 n n n) ;;
      a21 <- lift (View_makeView a n 0 n n) ;;
      a22 <- lift (View_makeView a n n n n) ;;
      b11 <- lift (View_makeView b 0 0 n n) ;;
      b12 <- lift (View_makeView b 0 n n n) ;;
      b21 <- lift (View_makeView b n 0 n n) ;;
      b22 <- lift (View_makeView b n n n n) ;;
      c11 <- lift (View_makeView c 0 0 n n) ;;
      c12 <- lift (View_makeView c 0 n n n) ;;
      c21 <- lift (View_makeView c n 0 n n) ;;
      c22 <- lift (View_makeView c n n n n) ;;
      scope (
        s0 <- local_matrix n ;;
        s1 <- local_matrix n ;;
        s2 <- local_matrix n ;;
        s3 <- local_matrix n ;;
        s4 <- local_matrix n ;;
        s5 <- local_matrix n ;;
        s6 <- local_matrix n ;;
        s7 <- local_matrix n ;;
        s8 <- local_matrix n ;;
        s9 <- local_matrix n ;;
        p0 <- local_matrix n ;;
        p1 <- local_matrix n ;;
        p2 <- local_matrix n ;;
        p3 <- local_matrix n ;;
        p4 <- local_matrix n ;;
        p5 <- local_matrix n ;;
        p6 <- local_matrix n ;;
        assign2 ssub n s0 b12 b22 ;;;
        assign2 sadd n s1 a11 a12 ;;;
        assign2 sadd n s2 a21 a22 ;;;
        assign2 ssub n s3 b21 b11 ;;;
        assign2 sadd n s4 a11 a22 ;;;
        assign2 sadd n s5 b11 b22 ;;;
        assign2 ssub n s6 a12 a22 ;;;
        assign2 sadd n s7 b21 b22 ;;;
        assign2 ssub n s8 a11 a21 ;;;
        assign2 sadd n s9 b11 b12 ;;;
        P_Strassen_fuel fuel' a11 s0 p0 n (level + 1) ;;;
        P_Strassen_fuel fuel' s1 b22 p1 n (level + 1) ;;;
        P_Strassen_fuel fuel' s2 b11 p2 n (level + 1) ;;;
        P_Strassen_fuel fuel' a22 s3 p3 n (level + 1) ;;;
        P_Strassen_fuel fuel' s4 s5 p4 n (level + 1) ;;;
        P_Strassen_fuel fuel' s6 s7 p5 n (level + 1) ;;;
        P_Strassen_fuel fuel' s8 s9 p6 n (level + 1) ;;;
        assign4 sadd ssub sadd n c11 p4 p3 p1 p5 ;;;
        assign2 sadd n c12 p0 p1 ;;;
        assign2 sadd n c21 p2 p3 ;;;
        assign4 sadd ssub ssub n c22 p4 p0 p2 p6)
  end.

(** Every recursive call raises [level] by one and none is made once
    [level > 1], so [2 - level] calls deep is as far as the recursion goes. *)
Definition P_Strassen (a b c : View) (size level : Z) : M unit :=
  P_Strassen_fuel (S (Z.to_nat (2 - level))) a b c size level.

(** ** Stores, views and windows: the vocabulary of the statements *)

Definition dims (mx : Matrix T) : Z * Z * nat :=
  (rows mx, cols mx, length (data mx)).

(** The buffer of a matrix has exactly [rows * cols] cells, as the
    constructor makes it, and keeps them: the invariant of the store. *)
Definition matrix_wf (mx : Matrix T) : bool :=
  (length (data mx) =? Z.to_nat (rows mx * cols mx))%nat.

Definition heap_wf (h : heap) : bool := forallb matrix_wf h.

(** The extent of the surface a view is based on. *)
Definition extent (h : heap) (b : Viewable) : Z * Z :=
  match b with
  | OfMatrix m =>
      match nth_error h m with
      | Some mx => (rows mx, cols mx)
      | None => (0, 0)
      end
  | OfView v => (maxRows v, maxCols v)
  end.

(** The invariant of a view: its base is alive and, at every link of the
    chain, the window lies within the extent of the base. *)
Fixpoint view_ok (h : heap) (v : View) : bool :=
  match v with
  | mkView b ro co mr mc =>
      negb (bad_view ro co mr mc (fst (extent h b)) (snd (extent h b)))
      && viewable_ok h b
  end
with viewable_ok (h : heap) (b : Viewable) : bool :=
  match b with
  | OfMatrix m => (m <? length h)%nat
  | OfView v => view_ok h v
  end.

(** The view has extent at least [size] x [size]. *)
Definition fits (v : View) (size : Z) : bool :=
  (size <=? maxRows v) && (size <=? maxCols v).

(** The cell at row [r], column [c] of the matrix at address [m]. *)
Definition hval (h : heap) (m : nat) (r c : Z) : option T :=
  match nth_error h m with
  | None => None
  | Some mx =>
      if bad_index r c (rows mx) (cols mx) then None
      else nth_error (data mx) (Z.to_nat (r * cols mx + c))
  end.

(** The matrix a view shows in a store. *)
Definition vmat (h : heap) (v : View) : Z -> Z -> T :=
  fun i j =>
    match hval h (root v) (i + roff v) (j + coff v) with
    | Some x => x
    | None => szero
    end.

(** The cells of the first [n] x [n] window of a view. *)
Definition in_window (v : View) (n : Z) (m : nat) (r c : Z) : Prop :=
  m = root v /\ roff v <= r < roff v + n /\ coff v <= c < coff v + n.

(** The [n] x [n] windows of two views have no cell in common. *)
Definition separate (x y : View) (n : Z) : bool :=
  negb (root x =? root y)%nat || (n <=? 0)
  || (roff x + n <=? roff y) || (roff y + n <=? roff x)
  || (coff x + n <=? coff y) || (coff y + n <=? coff x).

(** [P_Strassen] hands the whole call over to [Multiplication]. *)
Definition delegates (size level : Z) : bool :=
  negb (size =? 1) && (negb (Z.rem size 2 =? 0) || (level >? 1)).

(** ** The mathematics: sums, products and Strassen's recurrence *)

Definition mat : Type := Z -> Z -> T.

(** [Sigma n f] is the sum of [f 0], ..., [f (n-1)], added in this order
    starting from zero. *)
Fixpoint Sigma (n : nat) (f : Z -> T) : T :=
  match n with
  | O => szero
  | S n' => sadd (Sigma n' f) (f (Z.of_nat n'))
  end.

Definition mmul (size : Z) (A B : mat) : mat :=
  fun i j => Sigma (Z.to_nat size) (fun k => smul (A i k) (B k j)).

Definition shift (dr dc : Z) (A : mat) : mat :=
  fun i j => A (i + dr) (j + dc).

Definition madd (A B : mat) : mat := fun i j => sadd (A i j) (B i j).
Definition msub (A B : mat) : mat := fun i j => ssub (A i j) (B i j).

(** The matrix whose quadrants of size [n] are the four given matrices. *)
Definition assemble (n : Z) (C11 C12 C21 C22 : mat) : mat :=
  fun i j =>
    if i <? n
    then (if j <? n then C11 i j else C12 i (j - n))
    else (if j <? n then C21 (i - n) j else C22 (i - n) (j - n)).

(** The recurrence as the specification words it: base case, the two
    fallbacks, and the seven products of the recursive case. *)
Fixpoint strassen (fuel : nat) (size level : Z) (A B : mat) : mat :=
  match fuel with
  | O => fun _ _ => szero
  | S fuel' =>
    if size =? 1 then fun _ _ => smul (A 0 0) (B 0 0)
    else if delegates size level then mmul size A B
    else
      let n := Z.quot size 2 in
      let a11 := shift 0 0 A in let a12 := shift 0 n A in
      let a21 := shift n 0 A in let a22 := shift n n A in
      let b11 := shift 0 0 B in let b12 := shift 0 n B in
      let b21 := shift n 0 B in let b22 := shift n n B in
      let s1 := msub b12 b22 in let s2 := madd a11 a12 in
      let s3 := madd a21 a22 in let s4 := msub b21 b11 in
      let s5 := madd a11 a22 in let s6 := madd b11 b22 in
      let s7 := msub a12 a22 in let s8 := madd b21 b22 in
      let s9 := msub a11 a21 in let s10 := madd b11 b12 in
      let p1 := strassen fuel' n (level + 1) a11 s1 in
      let p2 := strassen fuel' n (level + 1) s2 b22 in
      let p3 := strassen fuel' n (level + 1) s3 b11 in
      let p4 := strassen fuel' n (level + 1) a22 s4 in
      let p5 := strassen fuel' n (level + 1) s5 s6 in
      let p6 := strassen fuel' n (level + 1) s7 s8 in
      let p7 := strassen fuel' n (level + 1) s9 s10 in
      assemble n
        (madd (msub (madd p5 p4) p2) p6)
        (madd p1 p2)
        (madd p3 p4)
        (msub (msub (madd p5 p1) p3) p7)
  end.

(** ** What a call of [P_Strassen] leaves in its output *)

(** A square matrix object holding [A], and the view of all of it. *)
Definition matrix_of (n : Z) (A : mat) : Matrix T :=
  mkMatrix n n
    (map (fun k => A (Z.of_nat k / n) (Z.of_nat k mod n))
         (seq 0 (Z.to_nat (n * n)))).

Definition fresh_matrix (m : nat) (n : Z) : Matrix T :=
  mkMatrix n n (map (indeterminate m) (seq 0 (Z.to_nat (n * n)))).

Definition full_view (m : nat) (n : Z) : View :=
  mkView (OfMatrix m) 0 0 n n.

(** The matrix that [P_Strassen(x, y, z, n, level)] leaves in [z] when [x]
    and [y] are full views of matrices holding [X] and [Y] and [z] is the
    full view of a new matrix. *)
Definition P_Strassen_result (n level : Z) (X Y : mat) : mat :=
  let h := [matrix_of n X; matrix_of n Y; fresh_matrix 2 n] in
  vmat (snd (P_Strassen (full_view 0 n) (full_view 1 n) (full_view 2 n)
                        n level h))
       (full_view 2 n).

(** ** Relations between the stores before and after a computation *)

(** [h'] has the objects of [h], of the same sizes, and differs from [h]
    at most on the cells in [W]. *)
Definition frame (W : nat -> Z -> Z -> Prop) (h h' : heap) : Prop :=
  map dims h' = map dims h /\
  forall m r c, ~ W m r c -> hval h' m r c = hval h m r c.

Definition writes_only {A} (W : nat -> Z -> Z -> Prop) (m : M A) : Prop :=
  forall h, frame W h (snd (m h)).

(** The same for a computation that may allocate: the first [n0] objects
    keep their sizes and, outside [W], their cells. *)
Definition gframe (n0 : nat) (W : nat -> Z -> Z -> Prop) (h h' : heap) : Prop :=
  firstn n0 (map dims h') = firstn n0 (map dims h) /\
  (length h <= length h')%nat /\
  forall m r c, (m < n0)%nat -> ~ W m r c -> hval h' m r c = hval h m r c.

Definition gwrites_only {A} (n0 : nat) (W : nat -> Z -> Z -> Prop) (m : M A) : Prop :=
  forall h, (n0 <= length h)%nat -> gframe n0 W h (snd (m h)).

(** View [v] shows the matrix [X] on its first [n] x [n] window. *)
Definition shows (h : heap) (v : View) (n : Z) (X : mat) : Prop :=
  forall i j, 0 <= i < n -> 0 <= j < n ->
    hval h (root v) (i + roff v) (j + coff v) = Some (X i j).

(** The computation never exhausts the recursion budget of the model. *)
Definition terminates {A} (m : M A) : Prop :=
  forall h, fst (m h) <> OutOfFuel.

End Program.

Arguments heap T : clear implicits.
Arguments M T A : clear implicits.

(** ** A concrete store: the 2 x 2 scenario of the specification *)

(** Uninitialised cells hold 7 in the examples. *)
#[export] Instance ex_junk : Indeterminate Z := fun _ _ => 7.

Definition ex_A : Matrix Z := mkMatrix 2 2 [1; 2; 3; 4].
Definition ex_B : Matrix Z := mkMatrix 2 2 [5; 6; 7; 8].
Definition ex_C : Matrix Z := mkMatrix 2 2 [0; 0; 0; 0].
Definition ex_heap : heap Z := [ex_A; ex_B; ex_C].
Definition ex_a : View := full_view 0 2.
Definition ex_b : View := full_view 1 2.
Definition ex_c : View := full_view 2 2.

(** The same store on 32-bit integers, with entries whose products
    overflow. *)
#[export] Instance ex_junk32 : Indeterminate Int32.int :=
  fun _ _ => Int32.of_Z 7.

Definition ex_heap32 : heap Int32.int :=
  [mkMatrix 2 2 (map Int32.of_Z [65536; 2; 3; 2147483647]);
   mkMatrix 2 2 (map Int32.of_Z [65536; -6; 7; 2147483647]);
   mkMatrix 2 2 (map Int32.of_Z [0; 0; 0; 0])].

Definition values32 (h : heap Int32.int) : list (list Z) :=
  map (fun mx => map Int32.val (data mx)) h.

(** A store of [double]s: [A], [B] and an output matrix of their own. *)
#[export] Instance ex_junkD : Indeterminate float | 100 :=
  fun _ _ => 7%float.

Definition ex_heapD : heap float :=
  [mkMatrix 2 2 [0.1; 0.2; 0.3; 0.4]%float;
   mkMatrix 2 2 [0.5; 0.6; 0.7; 0.8]%float;
   mkMatrix 2 2 [0; 0; 0; 0]%float].

(** ** Outcomes that are defined *)

Section Shapes.

Context {T : Type}.

(** The computation has a defined outcome on every store of the shape of
    [h0] whose matrices have their buffers: it neither follows a dangling
    reference nor leaves a buffer. *)
Definition defined_at {A} (h0 : heap T) (m : M T A) : Prop :=
  forall h, heap_wf h = true -> map dims h = map dims h0 ->
    fst (m h) <> Undefined.

(** The computation leaves every object of the store with its sizes. *)
Definition keeps_shape {A} (m : M T A) : Prop :=
  forall h, map dims (snd (m h)) = map dims h.

End Shapes.

(** ** The identity matrix *)

Section Identity.

Context {T : Type} {ST : Scalar T} {SR : ScalarRing T}.

Definition identity_matrix : @mat T :=
  fun i j => if i =? j then sone else szero.

End Identity.

(** ** The private copy operations of [Matrix] *)

Section Copies.

Context {T : Type} {ST : Scalar T} {UT : Indeterminate T}.

(** The loop [for (i = 0; i < rows*cols; i++) data[i] = other.data[i]] of
    the copy constructor and of [operator=], on the raw buffers. *)
Definition copy_cells (this other : nat) (n : Z) : M T unit :=
  For n (fun i =>
    x <- load (other, Z.to_nat i) ;; store (this, Z.to_nat i) x).

(** [Matrix(const Matrix<T>& other)] (private): a new object with the sizes
    of [other] and a buffer of its own, filled cell by cell. *)
Definition Matrix_copy (other : nat) : M T nat :=
  o <- reading (fun h => match nth_error h other with
                         | Some mx => Ok mx
                         | None => Undefined
                         end) ;;
  this <- Matrix_new (rows o) (cols o) ;;
  copy_cells this other (rows o * cols o) ;;;
  ret this.

(** [Matrix<T>::operator=] (private): the buffer is deleted, the sizes are
    taken from [other], a new buffer is allocated and filled cell by cell.
    There is no test for [this == &other].  [junk] is what the new buffer
    holds when [new] returns it. *)
Definition Matrix_assign (junk : nat -> T) (this other : nat) : M T unit :=
  o <- reading (fun h => match nth_error h this, nth_error h other with
                         | Some _, Some mx => Ok mx
                         | _, _ => Undefined
                         end) ;;
  (fun h =>
     if rows o * cols o <? 0 then (Undefined, h)
     else (Ok tt,
           upd this (mkMatrix (rows o) (cols o)
                       (map junk (seq 0 (Z.to_nat (rows o * cols o))))) h)) ;;;
  n <- reading (fun h => match nth_error h this with
                         | Some mx => Ok (rows mx * cols mx)
                         | None => Undefined
                         end) ;;
  copy_cells this other n.

End Copies.

(** ** The driver: [main] of [main.cpp] *)

(** What [main] sends to [std::cout]: a string literal, an [int], [endl],
    and a duration read off [time] or [clock], whose value is not
    modelled.  The literals are the texts between the quotes of the
    source, escapes unexpanded. *)
Inductive out : Type :=
| Text (s : String.string)
| Number (z : Z)
| Endl
| Elapsed.

Arguments Text s%_string.

(** The state of the process: the store, the number of calls of [rand]
    made so far, and what has been printed. *)
Record world : Type := mkWorld {
  memory : heap Int32.int;
  rand_calls : nat;
  printed : list out
}.

(** [for (int i = 0; i < n; i++) body(i)] over any state. *)
Fixpoint loop_from {St} (cnt : nat) (i : Z) (body : Z -> SE St unit) : SE St unit :=
  match cnt with
  | O => ret tt
  | S cnt' => body i ;;; loop_from cnt' (i + 1) body
  end.

Definition loop {St} (n : Z) (body : Z -> SE St unit) : SE St unit :=
  loop_from (Z.to_nat n) 0 body.

Section Driver.

Context {UT : Indeterminate Int32.int}.

(** The pseudo-random sequence that [srand(time(0))] selects: [rand k] is
    what the call number [k] of [rand()] returns. *)
Variable rand : nat -> Z.

Definition on_memory {A} (m : M Int32.int A) : SE world A := fun w =>
  let (r, h') := m (memory w) in (r, mkWorld h' (rand_calls w) (printed w)).

Definition cout (o : out) : SE world unit := fun w =>
  (Ok tt, mkWorld (memory w) (rand_calls w) (printed w ++ [o])).

Definition rand_call : SE world Z := fun w =>
  (Ok (rand (rand_calls w)),
   mkWorld (memory w) (S (rand_calls w)) (printed w)).

(** The loop nest that prints the matrix at address [m]. *)
Definition print_matrix (m : nat) (N : Z) : SE world unit :=
  loop N (fun i =>
    loop N (fun j =>
      x <- on_memory (Matrix_get m i j) ;;
      cout (Number (Int32.val x)) ;;;
      cout (Text " ")) ;;;
    cout Endl).

(** [main], for the [N] read from [std::cin]; the store is the one at the
    closing brace, before the destructors of [A], [B] and [C] run. *)
Definition main (N : Z) : SE world unit :=
  cout (Text "Give the row length N of N X N matrix: ") ;;;
  A <- on_memory (Matrix_new N N) ;;
  B <- on_memory (Matrix_new N N) ;;
  C <- on_memory (Matrix_new N N) ;;
  loop N (fun i =>
    loop N (fun j =>
      r <- rand_call ;;
      on_memory (Matrix_set A i j (Int32.of_Z (Z.rem r 201 - 100))) ;;;
      r <- rand_call ;;
      on_memory (Matrix_set B i j (Int32.of_Z (Z.rem r 201 - 100))))) ;;;
  cout (Text "A:\n") ;;;
  print_matrix A N ;;;
  cout (Text "\nB:\n") ;;;
  print_matrix B N ;;;
  cout (Text "\nC using parallel Strassen Algorithm:\n\n") ;;;
  view_A <- on_memory (Matrix_makeView A 0 0 N N) ;;
  view_B <- on_memory (Matrix_makeView B 0 0 N N) ;;
  view_C <- on_memory (Matrix_makeView C 0 0 N N) ;;
  on_memory (P_Strassen view_A view_B view_C N 0) ;;;
  print_matrix C N ;;;
  cout (Text "Parallel Strassen took ") ;;;
  cout Elapsed ;;;
  cout (Text " seconds.\n") ;;;
  cout (Text "CPU time was ") ;;;
  cout Elapsed ;;;
  cout (Text " seconds.\n") ;;;
  cout (Text "\nC using simple element by element multiplication:\n\n") ;;;
  on_memory (Multiplication view_A view_B view_C N) ;;;
  print_matrix C N ;;;
  cout (Text "Simple multiplication took ") ;;;
  cout Elapsed ;;;
  cout (Text " seconds.\n") ;;;
  cout (Text "CPU time was ") ;;;
  cout Elapsed ;;;
  cout (Text " seconds.\n").

(** The process at its start. *)
Definition world0 : world := mkWorld [] 0 [].

(** The entries [main] gives to [A] and [B]: the cell [(i, j)] of [A] gets
    the call number [2 (i N + j)] of [rand], that of [B] the next one. *)
Definition entry (r : Z) : Z := Z.rem r 201 - 100.

Definition gen_A (N : Z) : Z -> Z -> Z :=
  fun i j => entry (rand (Z.to_nat (2 * (i * N + j)))).

Definition gen_B (N : Z) : Z -> Z -> Z :=
  fun i j => entry (rand (Z.to_nat (2 * (i * N + j) + 1))).

End Driver.

(** The text of a matrix: each row is its numbers, a blank after each,
    then [endl]. *)
Definition zrange (n : Z) : list Z := map Z.of_nat (seq 0 (Z.to_nat n)).

Definition row_text (X : Z -> Z -> Z) (N i : Z) : list out :=
  flat_map (fun j => [Number (X i j); Text " "]) (zrange N) ++ [Endl].

Definition matrix_text (X : Z -> Z -> Z) (N : Z) : list out :=
  flat_map (row_text X N) (zrange N).

(** All that a complete run prints, for the matrices [A], [B] and the
    matrix [C] printed after each of the two multiplications. *)
Definition transcript (N : Z) (A B C : Z -> Z -> Z) : list out :=
  [Text "Give the row length N of N X N matrix: "; Text "A:\n"]
  ++ matrix_text A N
  ++ [Text "\nB:\n"]
  ++ matrix_text B N
  ++ [Text "\nC using parallel Strassen Algorithm:\n\n"]
  ++ matrix_text C N
  ++ [Text "Parallel Strassen took "; Elapsed; Text " seconds.\n";
      Text "CPU time was "; Elapsed; Text " seconds.\n";
      Text "\nC using simple element by element multiplication:\n\n"]
  ++ matrix_text C N
  ++ [Text "Simple multiplication took "; Elapsed; Text " seconds.\n";
      Text "CPU time was "; Elapsed; Text " seconds.\n"].

(** The product of two integer matrices in [int] arithmetic. *)
Definition wrapped_product (N : Z) (A B : Z -> Z -> Z) : Z -> Z -> Z :=
  fun i j => Int32.wrap (mmul (T:=Z) N A B i j).

(** ** More concrete data *)

(** Another content of uninitialised cells, and a store that differs from
    [ex_heap] in what [C] holds. *)
Definition ex_junk0 : Indeterminate Z := fun _ _ => 0.

Definition ex_heap' : heap Z := [ex_A; ex_B; mkMatrix 2 2 [9; 9; 9; 9]].

(** The store [ex_heap] with the identity in the place of [B]. *)
Definition ex_heapI : heap Z := [ex_A; mkMatrix 2 2 [1; 0; 0; 1]; ex_C].

(** A sequence of pseudo-random numbers. *)
Definition ex_rand : nat -> Z := fun k => Z.of_nat k * 7919 + 13.

(** * Properties *)

(** ** Lists updated in place *)

Lemma length_upd {A} (n : nat) (x : A) (l : list A) :
  length (upd n x l) = length l.
Proof.
  revert n; induction l as [|y l IH]; intros [|n]; simpl; auto.
Qed.

Lemma nth_error_upd_eq {A} (n : nat) (x : A) (l : list A) :
  (n < length l)%nat -> nth_error (upd n x l) n = Some x.
Proof.
  revert n; induction l as [|y l IH]; intros [|n]; simpl; intros Hn;
    try lia; auto.
  apply IH; lia.
Qed.

Lemma nth_error_upd_ne {A} (n k : nat) (x : A) (l : list A) :
  n <> k -> nth_error (upd n x l) k = nth_error l k.
Proof.
  revert n k; induction l as [|y l IH]; intros [|n] [|k]; simpl; intros Hn;
    try congruence; auto.
Qed.

Lemma map_upd_same {A B} (f : A -> B) (n : nat) (x y : A) (l : list A) :
  nth_error l n = Some y -> f x = f y -> map f (upd n x l) = map f l.
Proof.
  revert n; induction l as [|z l IH]; intros [|n]; simpl; intros Hn Hf;
    try discriminate; auto.
  - injection Hn as ->. now rewrite Hf.
  - f_equal. now apply IH.
Qed.

Lemma nth_error_map_dims {A B} (f : A -> B) (l l' : list A) (n : nat) :
  map f l' = map f l ->
  option_map f (nth_error l' n) = option_map f (nth_error l n).
Proof.
  intros H. rewrite <- !nth_error_map. now rewrite H.
Qed.

(** ** Bounds tests *)

Lemma bad_index_false (row col nr nc : Z) :
  bad_index row col nr nc = false <-> 0 <= row < nr /\ 0 <= col < nc.
Proof. unfold bad_index. lia. Qed.

Lemma bad_index_true (row col nr nc : Z) :
  bad_index row col nr nc = true <->
  row < 0 \/ nr <= row \/ col < 0 \/ nc <= col.
Proof. unfold bad_index. lia. Qed.

Lemma bad_view_false (r c nr nc mr mc : Z) :
  bad_view r c nr nc mr mc = false <->
  0 <= r /\ r + nr <= mr /\ 0 <= c /\ c + nc <= mc.
Proof. unfold bad_view. lia. Qed.

Lemma bad_view_true (r c nr nc mr mc : Z) :
  bad_view r c nr nc mr mc = true <->
  r < 0 \/ c < 0 \/ r + nr > mr \/ c + nc > mc.
Proof. unfold bad_view. lia. Qed.

Lemma index_inj (r c r' c' nr nc : Z) :
  bad_index r c nr nc = false -> bad_index r' c' nr nc = false ->
  Z.to_nat (r * nc + c) = Z.to_nat (r' * nc + c') -> r = r' /\ c = c'.
Proof.
  rewrite !bad_index_false. intros H H' E.
  assert (E' : r * nc + c = r' * nc + c') by nia.
  assert (r = r') by nia. subst r'. lia.
Qed.

Lemma index_lt (r c nr nc : Z) :
  bad_index r c nr nc = false ->
  (Z.to_nat (r * nc + c) < Z.to_nat (nr * nc))%nat.
Proof. rewrite bad_index_false. intros H. nia. Qed.

Section Memory.

Context {T : Type} {ST : Scalar T} {UT : Indeterminate T}.

Implicit Types (h : heap T) (v : View) (W : nat -> Z -> Z -> Prop).

(** ** Sizes of the objects of a store *)

Lemma dims_nth h h' m :
  map dims h' = map dims h ->
  option_map dims (nth_error h' m) = option_map dims (nth_error h m).
Proof. apply nth_error_map_dims. Qed.

Lemma dims_length h h' : map dims h' = map dims h -> length h' = length h.
Proof.
  intros H. rewrite <- (length_map dims h'), H. apply length_map.
Qed.

Lemma heap_wf_dims h h' :
  map dims h' = map dims h -> heap_wf h' = heap_wf h.
Proof.
  revert h'; induction h as [|mx h IH]; intros [|mx' h']; simpl;
    try discriminate; auto.
  intros E. injection E as Hr Hc Hl Et. rewrite (IH _ Et). f_equal.
  unfold matrix_wf. now rewrite Hr, Hc, Hl.
Qed.

Lemma heap_wf_nth h m mx :
  heap_wf h = true -> nth_error h m = Some mx -> matrix_wf mx = true.
Proof.
  unfold heap_wf. rewrite forallb_forall. intros H E.
  apply H. eapply nth_error_In; eauto.
Qed.

Lemma extent_dims h h' b :
  map dims h' = map dims h -> extent h' b = extent h b.
Proof.
  intros E. destruct b as [m|v]; simpl; auto.
  pose proof (dims_nth h h' m E) as Hn.
  destruct (nth_error h' m) as [mx'|], (nth_error h m) as [mx|];
    simpl in Hn; try discriminate; auto.
  unfold dims in Hn. now injection Hn as -> -> _.
Qed.

Lemma view_ok_dims h h' v :
  map dims h' = map dims h -> view_ok h' v = view_ok h v.
Proof.
  intros E. revert v.
  apply (View_mut (fun v => view_ok h' v = view_ok h v)
                  (fun b => viewable_ok h' b = viewable_ok h b)).
  - intros b IH ro co mr mc. simpl. now rewrite IH, (extent_dims h h' b E).
  - intros m. simpl. now rewrite (dims_length h h' E).
  - intros v IH. exact IH.
Qed.

Lemma hval_None_dims h h' m r c :
  map dims h' = map dims h -> hval h m r c = None -> heap_wf h = true ->
  hval h' m r c = None.
Proof.
  intros E Hv Hwf. unfold hval in *.
  pose proof (dims_nth h h' m E) as Hn.
  destruct (nth_error h' m) as [mx'|] eqn:E', (nth_error h m) as [mx|] eqn:E0;
    simpl in Hn; try discriminate; auto.
  unfold dims in Hn. injection Hn as Hr Hc Hl. rewrite Hr, Hc.
  destruct (bad_index r c (rows mx) (cols mx)) eqn:Hb; auto.
  apply nth_error_None in Hv. pose proof (index_lt _ _ _ _ Hb).
  pose proof (heap_wf_nth _ _ _ Hwf E0) as Hm. unfold matrix_wf in Hm.
  apply Nat.eqb_eq in Hm. lia.
Qed.

(** ** Address computation *)

(** Whatever the view, a successful access lands in the root matrix, at the
    position shifted by the offsets of the chain, within the matrix. *)
Lemma View_at_inv v : forall row col h r,
  View_at v row col h = Ok r ->
  exists mx, nth_error h (root v) = Some mx /\
    bad_index (row + roff v) (col + coff v) (rows mx) (cols mx) = false /\
    r = (root v, Z.to_nat ((row + roff v) * cols mx + (col + coff v))).
Proof.
  apply (View_mut
    (fun v => forall row col h r, View_at v row col h = Ok r ->
       exists mx, nth_error h (root v) = Some mx /\
         bad_index (row + roff v) (col + coff v) (rows mx) (cols mx) = false /\
         r = (root v, Z.to_nat ((row + roff v) * cols mx + (col + coff v))))
    (fun b => forall row col h r, Viewable_at b row col h = Ok r ->
       exists mx, nth_error h (root_of b) = Some mx /\
         bad_index (row + roff_of b) (col + coff_of b) (rows mx) (cols mx) = false /\
         r = (root_of b,
              Z.to_nat ((row + roff_of b) * cols mx + (col + coff_of b))))).
  - intros b IH ro co mr mc row col h r. simpl.
    destruct (bad_index row col mr mc); [discriminate|].
    intros H. destruct (IH _ _ _ _ H) as (mx & Hn & Hb & ->).
    exists mx. rewrite !Z.add_assoc. auto.
  - intros m row col h r. simpl. unfold Matrix_at.
    destruct (nth_error h m) as [mx|]; [|discriminate].
    destruct (bad_index row col (rows mx) (cols mx)) eqn:Hb; [discriminate|].
    intros [= <-]. exists mx. rewrite !Z.add_0_r. auto.
  - intros v' IH. exact IH.
Qed.

(** Under the invariant, an access within the extent of the view succeeds. *)
Lemma View_at_ok v : forall row col h,
  view_ok h v = true ->
  bad_index row col (maxRows v) (maxCols v) = false ->
  exists r, View_at v row col h = Ok r.
Proof.
  apply (View_mut
    (fun v => forall row col h, view_ok h v = true ->
       bad_index row col (maxRows v) (maxCols v) = false ->
       exists r, View_at v row col h = Ok r)
    (fun b => forall row col h, viewable_ok h b = true ->
       bad_index row col (fst (extent h b)) (snd (extent h b)) = false ->
       exists r, Viewable_at b row col h = Ok r)).
  - intros b IH ro co mr mc row col h. simpl. intros Hok Hb. rewrite Hb.
    apply andb_prop in Hok as [Hv Hok]. apply negb_true_iff in Hv.
    apply IH; auto. rewrite bad_index_false in *. rewrite bad_view_false in Hv.
    lia.
  - intros m row col h. simpl. unfold Matrix_at. intros Hm.
    apply Nat.ltb_lt in Hm. apply nth_error_Some in Hm.
    destruct (nth_error h m) as [mx|]; [|congruence]. simpl.
    intros ->. eauto.
  - intros v' IH row col h. simpl. destruct v'; simpl. apply IH.
Qed.

Lemma View_at_dims v : forall row col h h',
  map dims h' = map dims h -> View_at v row col h' = View_at v row col h.
Proof.
  apply (View_mut
    (fun v => forall row col h h', map dims h' = map dims h ->
       View_at v row col h' = View_at v row col h)
    (fun b => forall row col h h', map dims h' = map dims h ->
       Viewable_at b row col h' = Viewable_at b row col h)).
  - intros b IH ro co mr mc row col h h' E. simpl.
    destruct (bad_index row col mr mc); auto.
  - intros m row col h h' E. simpl. unfold Matrix_at.
    pose proof (dims_nth h h' m E) as Hn.
    destruct (nth_error h' m) as [mx'|], (nth_error h m) as [mx|];
      simpl in Hn; try discriminate; auto.
    unfold dims in Hn. now injection Hn as -> -> _.
  - intros v' IH. exact IH.
Qed.

(** ** Loads and stores *)

Lemma hval_load h m r c mx :
  nth_error h m = Some mx ->
  bad_index r c (rows mx) (cols mx) = false ->
  load (m, Z.to_nat (r * cols mx + c)) h =
    (match hval h m r c with Some x => Ok x | None => Undefined end, h).
Proof.
  intros E Hb. unfold load, hval. simpl. rewrite E, Hb.
  now destruct (nth_error (data mx) _).
Qed.

Lemma store_cell h m r c mx x :
  nth_error h m = Some mx ->
  bad_index r c (rows mx) (cols mx) = false ->
  frame (fun m' r' c' => m' = m /\ r' = r /\ c' = c) h
        (snd (store (m, Z.to_nat (r * cols mx + c)) x h)).
Proof.
  intros E Hb. unfold store. simpl. rewrite E.
  destruct (_ <? _)%nat eqn:Hlt; simpl.
  2: { split; auto. }
  split.
  - eapply map_upd_same; eauto. unfold dims. simpl. now rewrite length_upd.
  - intros m' r' c' Hne. unfold hval.
    destruct (Nat.eq_dec m m') as [<-|Hm].
    + rewrite nth_error_upd_eq by (apply nth_error_Some; congruence).
      rewrite E. simpl.
      destruct (bad_index r' c' (rows mx) (cols mx)) eqn:Hb'; auto.
      apply nth_error_upd_ne. intros Hi.
      destruct (index_inj _ _ _ _ _ _ Hb Hb' Hi). apply Hne. auto.
    + now rewrite nth_error_upd_ne.
Qed.

Lemma store_ok h m r c mx x :
  nth_error h m = Some mx -> matrix_wf mx = true ->
  bad_index r c (rows mx) (cols mx) = false ->
  exists h', store (m, Z.to_nat (r * cols mx + c)) x h = (Ok tt, h') /\
             hval h' m r c = Some x.
Proof.
  intros E Hwf Hb. unfold store. simpl. rewrite E.
  pose proof (index_lt _ _ _ _ Hb) as Hlt.
  unfold matrix_wf in Hwf. rename Hwf into Hl.
  apply Nat.eqb_eq in Hl. rewrite <- Hl in Hlt.
  apply Nat.ltb_lt in Hlt. rewrite Hlt. eexists; split; [reflexivity|].
  unfold hval. rewrite nth_error_upd_eq by (apply nth_error_Some; congruence).
  simpl. rewrite Hb. apply nth_error_upd_eq. now apply Nat.ltb_lt.
Qed.

End Memory.

Section Frames.

Context {T : Type} {ST : Scalar T} {UT : Indeterminate T}.

Implicit Types (h : heap T) (v : View) (W : nat -> Z -> Z -> Prop).

Lemma frame_refl W h : frame W h h.
Proof. split; auto. Qed.

Lemma frame_trans W h h1 h2 : frame W h h1 -> frame W h1 h2 -> frame W h h2.
Proof.
  intros [E1 V1] [E2 V2]. split; [congruence|].
  intros m r c Hw. rewrite V2, V1; auto.
Qed.

Lemma frame_mono W W' h h' :
  (forall m r c, W m r c -> W' m r c) -> frame W h h' -> frame W' h h'.
Proof. intros Hi [E V]. split; auto. Qed.

Lemma wo_mono {A} W W' (m : M T A) :
  (forall m r c, W m r c -> W' m r c) -> writes_only W m -> writes_only W' m.
Proof. intros Hi Hm h. eapply frame_mono; eauto. Qed.

Lemma wo_ret {A} W (x : A) : writes_only W (@ret (heap T) A x).
Proof. intros h. apply frame_refl. Qed.

Lemma wo_lift {A} W (r : result A) : writes_only W (@lift (heap T) A r).
Proof. intros h. apply frame_refl. Qed.

Lemma wo_reading {A} W (f : heap T -> result A) : writes_only W (reading f).
Proof. intros h. apply frame_refl. Qed.

Lemma wo_bind {A B} W (m : M T A) (k : A -> M T B) :
  writes_only W m -> (forall x, writes_only W (k x)) ->
  writes_only W (bind m k).
Proof.
  intros Hm Hk h. unfold bind. specialize (Hm h).
  destruct (m h) as [[x|e| |] h1]; simpl in *; auto.
  eapply frame_trans; eauto. apply Hk.
Qed.

Lemma wo_for_from W (cnt : nat) (i0 : Z) (body : Z -> M T unit) :
  (forall i, i0 <= i < i0 + Z.of_nat cnt -> writes_only W (body i)) ->
  writes_only W (for_from cnt i0 body).
Proof.
  revert i0; induction cnt as [|cnt IH]; intros i0 Hb; simpl.
  - apply wo_ret.
  - apply wo_bind; [apply Hb; lia|]. intros _. apply IH.
    intros i Hi. apply Hb. lia.
Qed.

Lemma wo_For W (n : Z) (body : Z -> M T unit) :
  (forall i, 0 <= i < n -> writes_only W (body i)) ->
  writes_only W (For n body).
Proof.
  intros Hb. apply wo_for_from. intros i Hi. apply Hb. lia.
Qed.

Lemma wo_load W (r : ref) : writes_only (T:=T) W (load r).
Proof.
  intros h. unfold load.
  destruct (nth_error h (fst r)) as [mx|]; simpl; [|apply frame_refl].
  destruct (nth_error (data mx) (snd r)); apply frame_refl.
Qed.

Lemma wo_View_get W v (i j : Z) : writes_only (T:=T) W (View_get v i j).
Proof.
  apply wo_bind; [apply wo_reading|]. intros r. apply wo_load.
Qed.

(** A store through a view changes one cell: the one the offsets of the
    chain lead to. *)
Lemma wo_View_set v (i j : Z) (t : T) :
  writes_only (fun m r c => m = root v /\ r = i + roff v /\ c = j + coff v)
              (View_set v i j t).
Proof.
  intros h. unfold View_set, bind, reading.
  destruct (View_at v i j h) as [r|e| |] eqn:E; simpl; try apply frame_refl.
  destruct (View_at_inv _ _ _ _ _ E) as (mx & Hn & Hb & ->).
  now apply store_cell.
Qed.

Lemma wo_View_set_window v (n i j : Z) (t : T) :
  0 <= i < n -> 0 <= j < n ->
  writes_only (T:=T) (in_window v n) (View_set v i j t).
Proof.
  intros Hi Hj. eapply wo_mono; [|apply wo_View_set].
  intros m r c (-> & -> & ->). unfold in_window. lia.
Qed.

Lemma wo_assign2 (op : T -> T -> T) (n : Z) (d x y : View) :
  writes_only (T:=T) (in_window d n) (assign2 op n d x y).
Proof.
  apply wo_For; intros i Hi. apply wo_For; intros j Hj.
  apply wo_bind; [apply wo_View_get|]; intros xv.
  apply wo_bind; [apply wo_View_get|]; intros yv.
  now apply wo_View_set_window.
Qed.

Lemma wo_assign4 (op1 op2 op3 : T -> T -> T) (n : Z) (d w x y z : View) :
  writes_only (T:=T) (in_window d n) (assign4 op1 op2 op3 n d w x y z).
Proof.
  apply wo_For; intros i Hi. apply wo_For; intros j Hj.
  apply wo_bind; [apply wo_View_get|]; intros wv.
  apply wo_bind; [apply wo_View_get|]; intros xv.
  apply wo_bind; [apply wo_View_get|]; intros yv.
  apply wo_bind; [apply wo_View_get|]; intros zv.
  now apply wo_View_set_window.
Qed.

Lemma wo_Multiplication (a b c : View) (size : Z) :
  writes_only (T:=T) (in_window c size) (Multiplication a b c size).
Proof.
  apply wo_For; intros i Hi. apply wo_For; intros j Hj.
  apply wo_bind; [now apply wo_View_set_window|]; intros _.
  apply wo_For; intros k Hk.
  apply wo_bind; [apply wo_View_get|]; intros cij.
  apply wo_bind; [apply wo_View_get|]; intros aik.
  apply wo_bind; [apply wo_View_get|]; intros bkj.
  now apply wo_View_set_window.
Qed.

End Frames.

Section Allocation.

Context {T : Type} {ST : Scalar T} {UT : Indeterminate T}.

Implicit Types (h : heap T) (v : View) (W : nat -> Z -> Z -> Prop).

Lemma hval_app h (L : heap T) m r c :
  (m < length h)%nat -> hval (h ++ L) m r c = hval h m r c.
Proof. intros Hm. unfold hval. now rewrite nth_error_app1. Qed.

Lemma hval_firstn h (n m : nat) r c :
  (m < n)%nat -> hval (firstn n h) m r c = hval h m r c.
Proof. intros Hm. unfold hval. now rewrite nth_error_firstn, (proj2 (Nat.ltb_lt _ _) Hm). Qed.

Lemma hval_beyond h m r c : (length h <= m)%nat -> hval h m r c = None.
Proof.
  intros Hm. unfold hval. apply nth_error_None in Hm. now rewrite Hm.
Qed.

(** A local matrix is always obtained: [n * n] is not negative and the view
    of the whole of it is legal. *)
Lemma local_matrix_run (n : Z) h :
  local_matrix n h =
    (Ok (full_view (length h) n), h ++ [fresh_matrix (length h) n]).
Proof.
  unfold local_matrix, bind, Matrix_new.
  assert (Hn : (n * n <? 0) = false) by nia. rewrite Hn.
  unfold Matrix_makeView, reading.
  rewrite nth_error_app2, Nat.sub_diag by lia. simpl.
  assert (Hv : bad_view 0 0 n n n n = false) by (apply bad_view_false; lia).
  now rewrite Hv.
Qed.

Lemma bind_local_matrix {B} (n : Z) (k : View -> M T B) h :
  bind (local_matrix n) k h =
    k (full_view (length h) n) (h ++ [fresh_matrix (length h) n]).
Proof. unfold bind at 1. now rewrite local_matrix_run. Qed.

Lemma gframe_refl n0 W h : gframe n0 W h h.
Proof. repeat split; auto. Qed.

Lemma gframe_trans n0 W h h1 h2 :
  gframe n0 W h h1 -> gframe n0 W h1 h2 -> gframe n0 W h h2.
Proof.
  intros (E1 & L1 & V1) (E2 & L2 & V2). repeat split; [congruence|lia|].
  intros m r c Hm Hw. rewrite V2, V1; auto.
Qed.

Lemma gwo_bind {A B} n0 W (m : M T A) (k : A -> M T B) :
  gwrites_only n0 W m -> (forall x, gwrites_only n0 W (k x)) ->
  gwrites_only n0 W (bind m k).
Proof.
  intros Hm Hk h Hh. unfold bind. specialize (Hm h Hh).
  destruct (m h) as [[x|e| |] h1]; simpl in *; auto.
  eapply gframe_trans; eauto. apply Hk. destruct Hm as (_ & Hl & _). lia.
Qed.

Lemma gwo_of_wo {A} n0 W W' (m : M T A) :
  (forall m r c, (m < n0)%nat -> W' m r c -> W m r c) ->
  writes_only W' m -> gwrites_only n0 W m.
Proof.
  intros Hi Hm h Hh. destruct (Hm h) as [E V]. repeat split.
  - now rewrite E.
  - rewrite (dims_length _ _ E). lia.
  - intros k r c Hk Hw. apply V. intros Hw'. apply Hw. now apply Hi.
Qed.

Lemma gwo_bind_local {B} n0 W (n : Z) (k : View -> M T B) :
  (forall m, (n0 <= m)%nat -> gwrites_only n0 W (k (full_view m n))) ->
  gwrites_only n0 W (bind (local_matrix n) k).
Proof.
  intros Hk h Hh. rewrite bind_local_matrix.
  eapply gframe_trans; [|apply Hk; [exact Hh|rewrite length_app; lia]].
  repeat split.
  - rewrite map_app, firstn_app, length_map.
    replace (n0 - length h)%nat with O by lia. simpl. apply app_nil_r.
  - rewrite length_app. lia.
  - intros m r c Hm _. apply hval_app. lia.
Qed.

(** Leaving the scope gives back a store of the original shape. *)
Lemma scope_frame {A} W (body : M T A) h :
  gwrites_only (length h) W body -> frame W h (snd (scope body h)).
Proof.
  intros Hb. unfold scope. specialize (Hb h (Nat.le_refl _)).
  destruct (body h) as [r h']. simpl in *. destruct Hb as (E & Hl & V). split.
  - rewrite <- firstn_map, E, <- (length_map dims h). apply firstn_all.
  - intros m r0 c Hw. destruct (Nat.lt_ge_cases m (length h)) as [Hm|Hm].
    + rewrite hval_firstn by exact Hm. now apply V.
    + rewrite !hval_beyond; auto. rewrite length_firstn. lia.
Qed.

Lemma wo_bind_lift {A B} W (r : result A) (k : A -> M T B) :
  (forall x, r = Ok x -> writes_only W (k x)) ->
  writes_only W (bind (lift r) k).
Proof.
  intros Hk h. unfold bind, lift. destruct r as [x|e| |]; simpl;
    try apply frame_refl. now apply Hk.
Qed.

Lemma View_makeView_inv v r c nr nc q :
  View_makeView v r c nr nc = Ok q ->
  q = mkView (OfView v) r c nr nc /\
  0 <= r /\ r + nr <= maxRows v /\ 0 <= c /\ c + nc <= maxCols v.
Proof.
  unfold View_makeView. destruct (bad_view _ _ _ _ _ _) eqn:Hb; [discriminate|].
  intros [= <-]. split; auto. now apply bad_view_false.
Qed.

Lemma in_window_quadrant v (dr dc n size : Z) m r c :
  0 <= dr -> 0 <= dc -> dr + n <= size -> dc + n <= size ->
  in_window (mkView (OfView v) dr dc n n) n m r c -> in_window v size m r c.
Proof. unfold in_window. simpl. lia. Qed.

Lemma in_window_fresh (k : nat) (n : Z) m r c :
  in_window (full_view k n) n m r c -> m = k.
Proof. unfold in_window. simpl. tauto. Qed.

End Allocation.

Section StrassenFrame.

Context {T : Type} {ST : Scalar T} {UT : Indeterminate T}.

Lemma even_halves (size : Z) :
  negb (Z.rem size 2 =? 0) = false -> size = Z.quot size 2 + Z.quot size 2.
Proof.
  intros H. apply negb_false_iff, Z.eqb_eq in H.
  pose proof (Z.quot_rem' size 2). lia.
Qed.

Ltac quadrant_view q H :=
  apply wo_bind_lift; intros q H;
  apply View_makeView_inv in H as (-> & H).

Ltac piece_fresh :=
  intros ? ? ? ? Hw; apply in_window_fresh in Hw; lia.

Ltac piece_quadrant :=
  intros ? ? ? ? Hw; eapply in_window_quadrant in Hw; [exact Hw|lia..].

Lemma wo_P_Strassen_fuel (fuel : nat) :
  forall (a b c : View) (size level : Z),
    writes_only (T:=T) (in_window c size)
                (P_Strassen_fuel fuel a b c size level).
Proof.
  induction fuel as [|fuel IH]; intros a b c size level.
  - apply wo_lift.
  - cbn [P_Strassen_fuel].
    destruct (size =? 1) eqn:H1.
    { apply Z.eqb_eq in H1. subst size.
      apply wo_bind; [apply wo_View_get|]; intros a00.
      apply wo_bind; [apply wo_View_get|]; intros b00.
      apply wo_View_set_window; lia. }
    destruct (negb (Z.rem size 2 =? 0)) eqn:H2; [apply wo_Multiplication|].
    destruct (level >? 1) eqn:H3; [apply wo_Multiplication|].
    apply even_halves in H2. set (n := Z.quot size 2) in *.
    quadrant_view a11 Ha11. quadrant_view a12 Ha12.
    quadrant_view a21 Ha21. quadrant_view a22 Ha22.
    quadrant_view b11 Hb11. quadrant_view b12 Hb12.
    quadrant_view b21 Hb21. quadrant_view b22 Hb22.
    quadrant_view c11 Hc11. quadrant_view c12 Hc12.
    quadrant_view c21 Hc21. quadrant_view c22 Hc22.
    intros h. apply scope_frame.
    do 17 (apply gwo_bind_local; intros ? ?).
    repeat (apply gwo_bind; [|intros _]).
    1-10: (eapply gwo_of_wo; [|apply wo_assign2]; piece_fresh).
    1-7: (eapply gwo_of_wo; [|apply IH]; piece_fresh).
    + eapply gwo_of_wo; [|apply wo_assign4]; piece_quadrant.
    + eapply gwo_of_wo; [|apply wo_assign2]; piece_quadrant.
    + eapply gwo_of_wo; [|apply wo_assign2]; piece_quadrant.
    + eapply gwo_of_wo; [|apply wo_assign4]; piece_quadrant.
Qed.

Lemma wo_P_Strassen (a b c : View) (size level : Z) :
  writes_only (T:=T) (in_window c size) (P_Strassen a b c size level).
Proof. apply wo_P_Strassen_fuel. Qed.

End StrassenFrame.

Section Termination.

Context {T : Type} {ST : Scalar T} {UT : Indeterminate T}.

Implicit Types (h : heap T) (v : View).

Lemma terminates_bind {A B} (m : M T A) (k : A -> M T B) :
  terminates m -> (forall x, terminates (k x)) -> terminates (bind m k).
Proof.
  intros Hm Hk h. unfold bind. specialize (Hm h).
  destruct (m h) as [[x|e| |] h1]; simpl in *; solve [congruence | apply Hk].
Qed.

Lemma terminates_ret {A} (x : A) : terminates (@ret (heap T) A x).
Proof. intros h; simpl; congruence. Qed.

Lemma terminates_lift {A} (r : result A) :
  r <> OutOfFuel -> terminates (@lift (heap T) A r).
Proof. intros Hr h. exact Hr. Qed.

Lemma terminates_for_from (cnt : nat) (i0 : Z) (body : Z -> M T unit) :
  (forall i, terminates (body i)) -> terminates (for_from cnt i0 body).
Proof.
  intros Hb. revert i0; induction cnt as [|cnt IH]; intros i0; simpl.
  - apply terminates_ret.
  - apply terminates_bind; auto.
Qed.

Lemma terminates_For (n : Z) (body : Z -> M T unit) :
  (forall i, terminates (body i)) -> terminates (For n body).
Proof. apply terminates_for_from. Qed.

Lemma View_at_fuel v : forall row col h, View_at v row col h <> OutOfFuel.
Proof.
  apply (View_mut
    (fun v => forall row col (h : heap T), View_at v row col h <> OutOfFuel)
    (fun b => forall row col (h : heap T), Viewable_at b row col h <> OutOfFuel)).
  - intros b IH ro co mr mc row col h. simpl.
    destruct (bad_index row col mr mc); [discriminate|apply IH].
  - intros m row col h. simpl. unfold Matrix_at.
    destruct (nth_error h m) as [mx|]; [|discriminate].
    destruct (bad_index _ _ _ _); discriminate.
  - intros v' IH. exact IH.
Qed.

Lemma terminates_load (r : ref) : terminates (T:=T) (load r).
Proof.
  intros h. unfold load. destruct (nth_error h (fst r)) as [mx|]; simpl;
    [|discriminate].
  destruct (nth_error (data mx) (snd r)); discriminate.
Qed.

Lemma terminates_store (r : ref) (t : T) : terminates (store r t).
Proof.
  intros h. unfold store. destruct (nth_error h (fst r)) as [mx|]; simpl;
    [|discriminate].
  destruct (_ <? _)%nat; discriminate.
Qed.

Lemma terminates_View_get v (i j : Z) : terminates (T:=T) (View_get v i j).
Proof.
  apply terminates_bind; [|intros r; apply terminates_load].
  intros h. apply View_at_fuel.
Qed.

Lemma terminates_View_set v (i j : Z) (t : T) : terminates (View_set v i j t).
Proof.
  apply terminates_bind; [|intros r; apply terminates_store].
  intros h. apply View_at_fuel.
Qed.

Lemma terminates_assign2 (op : T -> T -> T) (n : Z) (d x y : View) :
  terminates (assign2 op n d x y).
Proof.
  apply terminates_For; intros i. apply terminates_For; intros j.
  repeat (apply terminates_bind; [apply terminates_View_get|intros ?]).
  apply terminates_View_set.
Qed.

Lemma terminates_assign4 (op1 op2 op3 : T -> T -> T) (n : Z) (d w x y z : View) :
  terminates (assign4 op1 op2 op3 n d w x y z).
Proof.
  apply terminates_For; intros i. apply terminates_For; intros j.
  repeat (apply terminates_bind; [apply terminates_View_get|intros ?]).
  apply terminates_View_set.
Qed.

Lemma terminates_Multiplication (a b c : View) (size : Z) :
  terminates (T:=T) (Multiplication a b c size).
Proof.
  apply terminates_For; intros i. apply terminates_For; intros j.
  apply terminates_bind; [apply terminates_View_set|intros _].
  apply terminates_For; intros k.
  repeat (apply terminates_bind; [apply terminates_View_get|intros ?]).
  apply terminates_View_set.
Qed.

Lemma terminates_local_matrix (n : Z) : terminates (T:=T) (local_matrix n).
Proof. intros h. now rewrite local_matrix_run. Qed.

Lemma terminates_scope {A} (body : M T A) :
  terminates body -> terminates (scope body).
Proof.
  intros Hb h. unfold scope. specialize (Hb h).
  now destruct (body h) as [r h'].
Qed.

Lemma terminates_makeView {B} v r c nr nc (k : View -> M T B) :
  (forall q, terminates (k q)) ->
  terminates (bind (lift (View_makeView v r c nr nc)) k).
Proof.
  intros Hk. apply terminates_bind; auto. apply terminates_lift.
  unfold View_makeView. destruct (bad_view _ _ _ _ _ _); discriminate.
Qed.

(** With a budget above [2 - level] the model never runs out of it. *)
Lemma terminates_P_Strassen_fuel (fuel : nat) :
  forall (a b c : View) (size level : Z),
    (Z.to_nat (2 - level) < fuel)%nat ->
    terminates (T:=T) (P_Strassen_fuel fuel a b c size level).
Proof.
  induction fuel as [|fuel IH]; intros a b c size level Hf; [lia|].
  cbn [P_Strassen_fuel].
  destruct (size =? 1).
  { repeat (apply terminates_bind; [apply terminates_View_get|intros ?]).
    apply terminates_View_set. }
  destruct (negb (Z.rem size 2 =? 0)); [apply terminates_Multiplication|].
  destruct (level >? 1) eqn:H3; [apply terminates_Multiplication|].
  assert (Hf' : (Z.to_nat (2 - (level + 1)) < fuel)%nat) by lia.
  do 12 (apply terminates_makeView; intros ?).
  apply terminates_scope.
  do 17 (apply terminates_bind; [apply terminates_local_matrix|intros ?]).
  repeat (apply terminates_bind; [|intros _]);
    solve [apply terminates_assign2 | apply terminates_assign4
          | apply IH; exact Hf'].
Qed.

(** Without recursion: the base case and the two fallbacks need no
    budget beyond the call itself. *)
Lemma terminates_P_Strassen_direct (a b c : View) (size level : Z) :
  size = 1 \/ Z.rem size 2 <> 0 \/ level > 1 ->
  terminates (T:=T) (P_Strassen_fuel 1 a b c size level).
Proof.
  intros H. cbn [P_Strassen_fuel].
  destruct (size =? 1) eqn:H1.
  { repeat (apply terminates_bind; [apply terminates_View_get|intros ?]).
    apply terminates_View_set. }
  destruct (negb (Z.rem size 2 =? 0)) eqn:H2; [apply terminates_Multiplication|].
  destruct (level >? 1) eqn:H3; [apply terminates_Multiplication|].
  apply negb_false_iff in H2. lia.
Qed.

End Termination.

Section Budget.

Context {T : Type} {ST : Scalar T} {UT : Indeterminate T}.

Lemma bind_ext {A B} (m1 m2 : M T A) (k1 k2 : A -> M T B) :
  (forall h, m1 h = m2 h) -> (forall x h, k1 x h = k2 x h) ->
  forall h, bind m1 k1 h = bind m2 k2 h.
Proof.
  intros Hm Hk h. unfold bind. rewrite Hm.
  destruct (m2 h) as [[x|e| |] h1]; auto.
Qed.

Lemma scope_ext {A} (m1 m2 : M T A) :
  (forall h, m1 h = m2 h) -> forall h, scope m1 h = scope m2 h.
Proof. intros Hm h. unfold scope. now rewrite Hm. Qed.

(** Any budget above [2 - level] gives the same outcome and store. *)
Lemma P_Strassen_fuel_irrelevant (fuel1 : nat) :
  forall (fuel2 : nat) (a b c : View) (size level : Z) (h : heap T),
    (Z.to_nat (2 - level) < fuel1)%nat -> (Z.to_nat (2 - level) < fuel2)%nat ->
    P_Strassen_fuel fuel1 a b c size level h =
    P_Strassen_fuel fuel2 a b c size level h.
Proof.
  induction fuel1 as [|fuel1 IH]; intros [|fuel2] a b c size level h H1 H2;
    try lia.
  cbn [P_Strassen_fuel].
  destruct (size =? 1); [reflexivity|].
  destruct (negb (Z.rem size 2 =? 0)); [reflexivity|].
  destruct (level >? 1) eqn:H3; [reflexivity|].
  assert (H1' : (Z.to_nat (2 - (level + 1)) < fuel1)%nat) by lia.
  assert (H2' : (Z.to_nat (2 - (level + 1)) < fuel2)%nat) by lia.
  revert h.
  do 12 (apply bind_ext; [reflexivity|intros ?]).
  apply scope_ext.
  do 27 (apply bind_ext; [reflexivity|intros ?]).
  do 7 (apply bind_ext; [intros h; now apply IH|intros ?]).
  reflexivity.
Qed.

End Budget.

Section Runs.

Context {T : Type} {ST : Scalar T} {UT : Indeterminate T}.

Implicit Types (h : heap T) (v : View) (W : nat -> Z -> Z -> Prop).

(** ** Successful steps *)

Lemma bind_run {A B} (m : M T A) (k : A -> M T B) h x h1 :
  m h = (Ok x, h1) -> bind m k h = k x h1.
Proof. intros E. unfold bind. now rewrite E. Qed.

Lemma frame_of_run {A} W (m : M T A) h x h1 :
  writes_only W m -> m h = (Ok x, h1) -> frame W h h1.
Proof. intros Hw E. specialize (Hw h). now rewrite E in Hw. Qed.

Lemma hval_some h m r c mx :
  heap_wf h = true -> nth_error h m = Some mx ->
  bad_index r c (rows mx) (cols mx) = false ->
  exists t, hval h m r c = Some t.
Proof.
  intros Hwf E Hb. unfold hval. rewrite E, Hb.
  pose proof (index_lt _ _ _ _ Hb) as Hlt.
  pose proof (heap_wf_nth _ _ _ Hwf E) as Hm. unfold matrix_wf in Hm.
  apply Nat.eqb_eq in Hm.
  destruct (nth_error (data mx) _) eqn:En; eauto.
  apply nth_error_None in En. lia.
Qed.

Lemma View_get_run v (i j : Z) h (t : T) :
  view_ok h v = true -> bad_index i j (maxRows v) (maxCols v) = false ->
  hval h (root v) (i + roff v) (j + coff v) = Some t ->
  View_get v i j h = (Ok t, h).
Proof.
  intros Hok Hb Hv. destruct (View_at_ok v i j h Hok Hb) as [r Hr].
  unfold View_get, bind, reading. rewrite Hr.
  destruct (View_at_inv _ _ _ _ _ Hr) as (mx & Hn & Hbm & ->).
  rewrite (hval_load _ _ _ _ _ Hn Hbm). now rewrite Hv.
Qed.

Lemma View_get_total v (i j : Z) h :
  heap_wf h = true -> view_ok h v = true ->
  bad_index i j (maxRows v) (maxCols v) = false ->
  exists t, hval h (root v) (i + roff v) (j + coff v) = Some t /\
            View_get v i j h = (Ok t, h).
Proof.
  intros Hwf Hok Hb. destruct (View_at_ok v i j h Hok Hb) as [r Hr].
  destruct (View_at_inv _ _ _ _ _ Hr) as (mx & Hn & Hbm & ->).
  destruct (hval_some _ _ _ _ _ Hwf Hn Hbm) as [t Ht].
  exists t. split; auto. now apply View_get_run.
Qed.

Lemma View_set_run v (i j : Z) h (t : T) :
  heap_wf h = true -> view_ok h v = true ->
  bad_index i j (maxRows v) (maxCols v) = false ->
  exists h', View_set v i j t h = (Ok tt, h') /\
             hval h' (root v) (i + roff v) (j + coff v) = Some t.
Proof.
  intros Hwf Hok Hb. destruct (View_at_ok v i j h Hok Hb) as [r Hr].
  unfold View_set, bind, reading. rewrite Hr.
  destruct (View_at_inv _ _ _ _ _ Hr) as (mx & Hn & Hbm & ->).
  apply store_ok; auto. eapply heap_wf_nth; eauto.
Qed.

Lemma fits_index v (n i j : Z) :
  fits v n = true -> 0 <= i < n -> 0 <= j < n ->
  bad_index i j (maxRows v) (maxCols v) = false.
Proof. unfold fits. rewrite bad_index_false. lia. Qed.

Lemma separate_spec (x d : View) (n i j : Z) :
  separate x d n = true -> 0 <= i < n -> 0 <= j < n ->
  ~ in_window d n (root x) (i + roff x) (j + coff x).
Proof.
  unfold separate, in_window. rewrite !orb_true_iff, negb_true_iff.
  rewrite Nat.eqb_neq, !Z.leb_le. intros H Hi Hj (E & Hr & Hc). lia.
Qed.

Lemma separate_roots (x d : View) (n : Z) :
  root x <> root d -> separate x d n = true.
Proof.
  intros H. unfold separate. apply Nat.eqb_neq in H. now rewrite H.
Qed.

Lemma shows_frame h h' (x d : View) (n k : Z) (X : mat) :
  shows h x n X -> frame (in_window d k) h h' -> root x <> root d ->
  shows h' x n X.
Proof.
  intros Hs [_ V] Hr i j Hi Hj. rewrite V; auto.
  unfold in_window. tauto.
Qed.

Lemma shows_vmat h v (n : Z) :
  heap_wf h = true -> view_ok h v = true -> fits v n = true ->
  shows h v n (vmat h v).
Proof.
  intros Hwf Hok Hf i j Hi Hj.
  destruct (View_get_total v i j h Hwf Hok (fits_index _ _ _ _ Hf Hi Hj))
    as (t & Ht & _).
  unfold vmat. now rewrite Ht.
Qed.

(** ** Loops *)

Lemma for_from_run (I : Z -> heap T -> Prop) (cnt : nat) (i0 : Z)
      (body : Z -> M T unit) h :
  I i0 h ->
  (forall i h1, i0 <= i < i0 + Z.of_nat cnt -> I i h1 ->
     exists h2, body i h1 = (Ok tt, h2) /\ I (i + 1) h2) ->
  exists h', for_from cnt i0 body h = (Ok tt, h') /\ I (i0 + Z.of_nat cnt) h'.
Proof.
  revert i0 h; induction cnt as [|cnt IH]; intros i0 h H0 Hb.
  - exists h. simpl. rewrite Z.add_0_r. auto.
  - destruct (Hb i0 h ltac:(lia) H0) as (h1 & E1 & H1).
    destruct (IH (i0 + 1) h1 H1) as (h' & E' & H').
    { intros i h2 Hi. apply Hb. lia. }
    exists h'. cbn [for_from]. rewrite (bind_run _ _ _ _ _ E1).
    split; auto. replace (i0 + Z.of_nat (S cnt)) with (i0 + 1 + Z.of_nat cnt)
      by lia. exact H'.
Qed.

Lemma For_run (I : Z -> heap T -> Prop) (n : Z) (body : Z -> M T unit) h :
  I 0 h ->
  (forall i h1, 0 <= i < n -> I i h1 ->
     exists h2, body i h1 = (Ok tt, h2) /\ I (i + 1) h2) ->
  exists h', For n body h = (Ok tt, h') /\ I (Z.max 0 n) h'.
Proof.
  intros H0 Hb. unfold For.
  destruct (for_from_run I (Z.to_nat n) 0 body h H0) as (h' & E & H').
  { intros i h1 Hi. apply Hb. lia. }
  exists h'. split; auto.
  replace (Z.max 0 n) with (0 + Z.of_nat (Z.to_nat n)) by lia. exact H'.
Qed.

(** A loop nest that settles one cell of [d] per iteration, whatever the
    cells of the window held before. *)
Lemma cells_run (d : View) (n : Z) (Q : Z -> Z -> T -> Prop)
      (body : Z -> Z -> M T unit) h0 :
  (forall i j h, 0 <= i < n -> 0 <= j < n -> frame (in_window d n) h0 h ->
     exists t h', body i j h = (Ok tt, h') /\ Q i j t /\
       hval h' (root d) (i + roff d) (j + coff d) = Some t /\
       frame (fun m r c => m = root d /\ r = i + roff d /\ c = j + coff d)
             h h') ->
  exists h', For n (fun i => For n (fun j => body i j)) h0 = (Ok tt, h') /\
    forall i j, 0 <= i < n -> 0 <= j < n ->
      exists t, hval h' (root d) (i + roff d) (j + coff d) = Some t /\ Q i j t.
Proof.
  intros Hb.
  pose (done := fun (i j : Z) (h : heap T) =>
    frame (in_window d n) h0 h /\
    forall i' j', 0 <= i' < n -> 0 <= j' < n ->
      i' < i \/ (i' = i /\ j' < j) ->
      exists t, hval h (root d) (i' + roff d) (j' + coff d) = Some t
                /\ Q i' j' t).
  destruct (For_run (fun i h => done i 0 h) n
              (fun i => For n (fun j => body i j)) h0) as (h' & E & Hd).
  - split; [apply frame_refl|]. intros; lia.
  - intros i h1 Hi H1.
    destruct (For_run (fun j h => done i j h) n (fun j => body i j) h1 H1)
      as (h2 & E2 & H2).
    + intros j h2 Hj [Hfr Hdone].
      destruct (Hb i j h2 Hi Hj Hfr) as (t & h3 & E3 & Hq & Hv & Hc).
      exists h3. split; auto. split.
      * eapply frame_trans; [exact Hfr|]. eapply frame_mono; [|exact Hc].
        intros m r c (-> & -> & ->). unfold in_window. lia.
      * intros i' j' Hi' Hj' Hlt.
        destruct (Z.eq_dec i' i) as [->|Hne];
          [destruct (Z.eq_dec j' j) as [->|Hne]|]; eauto.
        all: destruct Hc as [_ V]; rewrite V by lia; apply Hdone; lia.
    + exists h2. split; auto. destruct H2 as [Hfr Hdone]. split; auto.
      intros i' j' Hi' Hj' Hlt. apply Hdone; lia.
  - exists h'. split; auto. destruct Hd as [_ Hd].
    intros i j Hi Hj. apply Hd; lia.
Qed.

End Runs.

Section Loops.

Context {T : Type} {ST : Scalar T} {UT : Indeterminate T}.

Implicit Types (h : heap T) (v : View).

Lemma frame_wf (W : nat -> Z -> Z -> Prop) h h' :
  frame W h h' -> heap_wf h = true -> heap_wf h' = true.
Proof. intros [E _] H. now rewrite (heap_wf_dims _ _ E). Qed.

Lemma frame_view_ok (W : nat -> Z -> Z -> Prop) h h' v :
  frame W h h' -> view_ok h v = true -> view_ok h' v = true.
Proof. intros [E _] H. now rewrite (view_ok_dims _ _ _ E). Qed.

(** Reading a view whose window the loop does not write. *)
Lemma View_get_stable (x d : View) (n i j : Z) (X : mat) h h1 :
  view_ok h x = true -> fits x n = true -> shows h x n X ->
  root x <> root d -> frame (in_window d n) h h1 ->
  0 <= i < n -> 0 <= j < n ->
  View_get x i j h1 = (Ok (X i j), h1).
Proof.
  intros Hok Hf Hs Hr Hfr Hi Hj. apply View_get_run.
  - eapply frame_view_ok; eauto.
  - eapply fits_index; eauto.
  - eapply shows_frame; eauto.
Qed.

Lemma assign2_run (op : T -> T -> T) (n : Z) (d x y : View) (X Y : mat) h :
  heap_wf h = true ->
  view_ok h d = true -> view_ok h x = true -> view_ok h y = true ->
  fits d n = true -> fits x n = true -> fits y n = true ->
  shows h x n X -> shows h y n Y ->
  root x <> root d -> root y <> root d ->
  exists h', assign2 op n d x y h = (Ok tt, h') /\
             shows h' d n (fun i j => op (X i j) (Y i j)).
Proof.
  intros Hwf Hd Hx Hy Fd Fx Fy Sx Sy Rx Ry.
  destruct (cells_run d n (fun i j t => t = op (X i j) (Y i j))
    (fun i j => xv <- View_get x i j ;; yv <- View_get y i j ;;
                View_set d i j (op xv yv)) h) as (h' & E & Hc).
  - intros i j h1 Hi Hj Hfr.
    rewrite (bind_run _ _ _ _ _
      (View_get_stable x d n i j X h h1 Hx Fx Sx Rx Hfr Hi Hj)).
    rewrite (bind_run _ _ _ _ _
      (View_get_stable y d n i j Y h h1 Hy Fy Sy Ry Hfr Hi Hj)).
    destruct (View_set_run d i j h1 (op (X i j) (Y i j)))
      as (h2 & E2 & Hv).
    + eapply frame_wf; eauto.
    + eapply frame_view_ok; eauto.
    + eapply fits_index; eauto.
    + exists (op (X i j) (Y i j)), h2. repeat split; auto;
        apply (frame_of_run _ _ _ _ _ (wo_View_set d i j _) E2).
  - exists h'. split; [exact E|]. intros i j Hi Hj.
    destruct (Hc i j Hi Hj) as (t & Ht & ->). exact Ht.
Qed.

Lemma assign4_run (op1 op2 op3 : T -> T -> T) (n : Z) (d w x y z : View)
      (Wm X Y Zm : mat) h :
  heap_wf h = true -> view_ok h d = true ->
  view_ok h w = true -> view_ok h x = true ->
  view_ok h y = true -> view_ok h z = true ->
  fits d n = true -> fits w n = true -> fits x n = true ->
  fits y n = true -> fits z n = true ->
  shows h w n Wm -> shows h x n X -> shows h y n Y -> shows h z n Zm ->
  root w <> root d -> root x <> root d -> root y <> root d -> root z <> root d ->
  exists h', assign4 op1 op2 op3 n d w x y z h = (Ok tt, h') /\
             shows h' d n
               (fun i j => op3 (op2 (op1 (Wm i j) (X i j)) (Y i j)) (Zm i j)).
Proof.
  intros Hwf Hd Hw Hx Hy Hz Fd Fw Fx Fy Fz Sw Sx Sy Sz Rw Rx Ry Rz.
  destruct (cells_run d n
    (fun i j t => t = op3 (op2 (op1 (Wm i j) (X i j)) (Y i j)) (Zm i j))
    (fun i j => wv <- View_get w i j ;; xv <- View_get x i j ;;
                yv <- View_get y i j ;; zv <- View_get z i j ;;
                View_set d i j (op3 (op2 (op1 wv xv) yv) zv)) h)
    as (h' & E & Hc).
  - intros i j h1 Hi Hj Hfr.
    rewrite (bind_run _ _ _ _ _
      (View_get_stable w d n i j Wm h h1 Hw Fw Sw Rw Hfr Hi Hj)).
    rewrite (bind_run _ _ _ _ _
      (View_get_stable x d n i j X h h1 Hx Fx Sx Rx Hfr Hi Hj)).
    rewrite (bind_run _ _ _ _ _
      (View_get_stable y d n i j Y h h1 Hy Fy Sy Ry Hfr Hi Hj)).
    rewrite (bind_run _ _ _ _ _
      (View_get_stable z d n i j Zm h h1 Hz Fz Sz Rz Hfr Hi Hj)).
    destruct (View_set_run d i j h1
                (op3 (op2 (op1 (Wm i j) (X i j)) (Y i j)) (Zm i j)))
      as (h2 & E2 & Hv).
    + eapply frame_wf; eauto.
    + eapply frame_view_ok; eauto.
    + eapply fits_index; eauto.
    + eexists _, h2. repeat split; eauto;
        apply (frame_of_run _ _ _ _ _ (wo_View_set d i j _) E2).
  - exists h'. split; [exact E|]. intros i j Hi Hj.
    destruct (Hc i j Hi Hj) as (t & Ht & ->). exact Ht.
Qed.

Lemma Sigma_step (k : Z) (f : Z -> T) :
  0 <= k -> Sigma (Z.to_nat (k + 1)) f = sadd (Sigma (Z.to_nat k) f) (f k).
Proof.
  intros Hk. replace (Z.to_nat (k + 1)) with (S (Z.to_nat k)) by lia.
  simpl. now rewrite Z2Nat.id.
Qed.

(** The triple loop always runs to its end on views that are large enough;
    it computes the product when what it writes is not what it reads. *)
Lemma Multiplication_run (a b c : View) (size : Z) (A B : mat) h :
  heap_wf h = true ->
  view_ok h a = true -> view_ok h b = true -> view_ok h c = true ->
  fits a size = true -> fits b size = true -> fits c size = true ->
  shows h a size A -> shows h b size B ->
  exists h', Multiplication a b c size h = (Ok tt, h') /\
    (separate a c size = true -> separate b c size = true ->
     shows h' c size (mmul size A B)).
Proof.
  intros Hwf Ha Hb Hc Fa Fb Fc Sa Sb.
  pose (sep := separate a c size = true /\ separate b c size = true).
  destruct (cells_run c size (fun i j t => sep -> t = mmul size A B i j)
    (fun i j =>
      View_set c i j szero ;;;
      For size (fun k =>
        cij <- View_get c i j ;;
        aik <- View_get a i k ;;
        bkj <- View_get b k j ;;
        View_set c i j (sadd cij (smul aik bkj)))) h) as (h' & E & Hcells).
  - intros i j h1 Hi Hj Hfr.
    pose (cell := fun (m : nat) (r k : Z) =>
      m = root c /\ r = i + roff c /\ k = j + coff c).
    pose (f := fun k => smul (A i k) (B k j)).
    assert (Hbi : bad_index i j (maxRows c) (maxCols c) = false)
      by (eapply fits_index; eauto).
    destruct (View_set_run c i j h1 szero) as (h2 & E2 & Hv2);
      [eapply frame_wf; eauto|eapply frame_view_ok; eauto|exact Hbi|].
    assert (Hf2 : frame cell h1 h2)
      by apply (frame_of_run _ _ _ _ _ (wo_View_set c i j _) E2).
    rewrite (bind_run _ _ _ _ _ E2).
    destruct (For_run
      (fun k hk => frame cell h1 hk /\
         exists t, hval hk (root c) (i + roff c) (j + coff c) = Some t /\
                   (sep -> t = Sigma (Z.to_nat k) f))
      size
      (fun k =>
        cij <- View_get c i j ;;
        aik <- View_get a i k ;;
        bkj <- View_get b k j ;;
        View_set c i j (sadd cij (smul aik bkj))) h2)
      as (h3 & E3 & Hf3 & t3 & Hv3 & Ht3).
    + split; auto. exists szero. split; auto.
    + intros k hk Hk (Hfk & t & Hvt & Ht).
      assert (Hfr0 : frame (in_window c size) h hk).
      { eapply frame_trans; [exact Hfr|]. eapply frame_mono; [|exact Hfk].
        intros m r q (-> & -> & ->). unfold in_window. lia. }
      assert (Hwfk : heap_wf hk = true) by (eapply frame_wf; eauto).
      assert (Hck : view_ok hk c = true) by (eapply frame_view_ok; eauto).
      rewrite (bind_run _ _ _ _ _ (View_get_run c i j hk t Hck Hbi Hvt)).
      destruct (View_get_total a i k hk Hwfk) as (ta & Hta & Ea);
        [eapply frame_view_ok; eauto|eapply fits_index; eauto|].
      rewrite (bind_run _ _ _ _ _ Ea).
      destruct (View_get_total b k j hk Hwfk) as (tb & Htb & Eb);
        [eapply frame_view_ok; eauto|eapply fits_index; eauto|].
      rewrite (bind_run _ _ _ _ _ Eb).
      destruct (View_set_run c i j hk (sadd t (smul ta tb)) Hwfk Hck Hbi)
        as (hk' & Ek' & Hvk').
      exists hk'. split; auto. split.
      * eapply frame_trans; [exact Hfk|].
        apply (frame_of_run _ _ _ _ _ (wo_View_set c i j _) Ek').
      * exists (sadd t (smul ta tb)). split; auto. intros Hsep.
        rewrite Sigma_step by lia. rewrite <- (Ht Hsep). unfold f.
        destruct Hsep as [Sac Sbc]. destruct Hfr0 as [_ V0].
        rewrite V0, (Sa i k) in Hta
          by (auto; apply separate_spec; auto; lia).
        rewrite V0, (Sb k j) in Htb
          by (auto; apply separate_spec; auto; lia).
        congruence.
    + exists t3, h3. split; auto. split.
      * intros Hsep. rewrite (Ht3 Hsep). unfold mmul, f.
        now replace (Z.to_nat (Z.max 0 size)) with (Z.to_nat size) by lia.
      * split; auto.
  - exists h'. split; [exact E|]. intros Sac Sbc i j Hi Hj.
    destruct (Hcells i j Hi Hj) as (t & Ht & Hq).
    rewrite Ht. f_equal. apply Hq. split; auto.
Qed.

End Loops.

Section StrassenRuns.

Context {T : Type} {ST : Scalar T} {UT : Indeterminate T}.

Implicit Types (h : heap T) (v : View).

Lemma view_ok_root v : forall h, view_ok h v = true -> (root v < length h)%nat.
Proof.
  apply (View_mut
    (fun v => forall h, view_ok h v = true -> (root v < length h)%nat)
    (fun b => forall h, viewable_ok h b = true -> (root_of b < length h)%nat)).
  - intros b IH ro co mr mc h. simpl. intros H.
    apply andb_prop in H as [_ H]. auto.
  - intros m h. simpl. apply Nat.ltb_lt.
  - intros v' IH. exact IH.
Qed.

Lemma view_ok_quadrant h v (dr dc n : Z) :
  view_ok h v = true ->
  0 <= dr -> dr + n <= maxRows v -> 0 <= dc -> dc + n <= maxCols v ->
  view_ok h (mkView (OfView v) dr dc n n) = true.
Proof.
  intros Hok H1 H2 H3 H4. cbn [view_ok viewable_ok extent fst snd].
  rewrite Hok, andb_true_r. apply negb_true_iff, bad_view_false. lia.
Qed.

Lemma shows_quadrant h v (dr dc n size : Z) (X : mat) :
  shows h v size X ->
  0 <= dr -> dr + n <= size -> 0 <= dc -> dc + n <= size ->
  shows h (mkView (OfView v) dr dc n n) n (shift dr dc X).
Proof.
  intros Hs H1 H2 H3 H4 i j Hi Hj. cbn [root root_of roff roff_of coff coff_of].
  rewrite !Z.add_assoc. apply Hs; lia.
Qed.

Lemma fits_mk (b : Viewable) (r c n : Z) : fits (mkView b r c n n) n = true.
Proof. unfold fits. simpl. now rewrite Z.leb_refl. Qed.

Lemma separate_offsets (x y : View) (n : Z) :
  n <= 0 \/ roff x + n <= roff y \/ roff y + n <= roff x \/
  coff x + n <= coff y \/ coff y + n <= coff x ->
  separate x y n = true.
Proof.
  intros H. unfold separate. rewrite !orb_true_iff, !Z.leb_le. tauto.
Qed.

Lemma shows_frame_sep h h' (x d : View) (n : Z) (X : mat) :
  shows h x n X -> frame (in_window d n) h h' -> separate x d n = true ->
  shows h' x n X.
Proof.
  intros Hs [_ V] Hsep i j Hi Hj. rewrite V; auto.
  now apply separate_spec.
Qed.

Lemma shows_assemble h (c : View) (n : Z) (C11 C12 C21 C22 : mat) :
  0 <= n ->
  shows h (mkView (OfView c) 0 0 n n) n C11 ->
  shows h (mkView (OfView c) 0 n n n) n C12 ->
  shows h (mkView (OfView c) n 0 n n) n C21 ->
  shows h (mkView (OfView c) n n n n) n C22 ->
  shows h c (n + n) (assemble n C11 C12 C21 C22).
Proof.
  intros Hn H11 H12 H21 H22 i j Hi Hj. unfold assemble.
  destruct (Z.ltb_spec i n) as [Hin|Hin], (Z.ltb_spec j n) as [Hjn|Hjn].
  - specialize (H11 i j ltac:(lia) ltac:(lia)).
    cbn [root root_of roff roff_of coff coff_of] in H11.
    rewrite <- H11. f_equal; lia.
  - specialize (H12 i (j - n) ltac:(lia) ltac:(lia)).
    cbn [root root_of roff roff_of coff coff_of] in H12.
    rewrite <- H12. f_equal; lia.
  - specialize (H21 (i - n) j ltac:(lia) ltac:(lia)).
    cbn [root root_of roff roff_of coff coff_of] in H21.
    rewrite <- H21. f_equal; lia.
  - specialize (H22 (i - n) (j - n) ltac:(lia) ltac:(lia)).
    cbn [root root_of roff roff_of coff coff_of] in H22.
    rewrite <- H22. f_equal; lia.
Qed.

Lemma shows_firstn h (k : nat) v (n : Z) (X : mat) :
  (root v < k)%nat -> shows h v n X -> shows (firstn k h) v n X.
Proof. intros Hr Hs i j Hi Hj. rewrite hval_firstn; auto. Qed.

Lemma bind_makeView {B} v (r c nr nc : Z) (k : View -> M T B) h :
  0 <= r -> r + nr <= maxRows v -> 0 <= c -> c + nc <= maxCols v ->
  bind (lift (View_makeView v r c nr nc)) k h =
  k (mkView (OfView v) r c nr nc) h.
Proof.
  intros H1 H2 H3 H4. unfold bind, lift, View_makeView.
  assert (Hb : bad_view r c nr nc (maxRows v) (maxCols v) = false)
    by (apply bad_view_false; lia).
  now rewrite Hb.
Qed.

Lemma scope_run {A} (body : M T A) h (x : A) h1 :
  body h = (Ok x, h1) -> scope body h = (Ok x, firstn (length h) h1).
Proof. intros E. unfold scope. now rewrite E. Qed.

(** What one more local matrix changes: nothing that was there. *)
Lemma local_facts h (n : Z) :
  0 <= n -> heap_wf h = true ->
  exists h', h' = h ++ [fresh_matrix (length h) n] /\
    heap_wf h' = true /\ length h' = S (length h) /\
    view_ok h' (full_view (length h) n) = true /\
    (forall v, view_ok h v = true -> view_ok h' v = true) /\
    (forall v k X, (root v < length h)%nat -> shows h v k X -> shows h' v k X).
Proof.
  intros Hn Hwf. eexists; split; [reflexivity|]. repeat split.
  - unfold heap_wf. rewrite forallb_app. fold (heap_wf h). rewrite Hwf.
    simpl. unfold matrix_wf. simpl. rewrite length_map, length_seq.
    now rewrite Nat.eqb_refl.
  - rewrite length_app. simpl. lia.
  - cbn [view_ok viewable_ok full_view extent].
    rewrite nth_error_app2, Nat.sub_diag by lia. simpl.
    rewrite length_app. simpl.
    assert (Hb : bad_view 0 0 n n n n = false) by (apply bad_view_false; lia).
    rewrite Hb. simpl. apply Nat.ltb_lt. lia.
  - intros v. revert v.
    apply (View_mut
      (fun v => view_ok h v = true ->
                view_ok (h ++ [fresh_matrix (length h) n]) v = true)
      (fun b => viewable_ok h b = true ->
                viewable_ok (h ++ [fresh_matrix (length h) n]) b = true /\
                extent (h ++ [fresh_matrix (length h) n]) b = extent h b)).
    + intros b IH ro co mr mc. simpl. intros H.
      apply andb_prop in H as [H1 H2]. destruct (IH H2) as [H3 H4].
      now rewrite H4, H1, H3.
    + intros m. simpl. intros H. apply Nat.ltb_lt in H. split.
      * apply Nat.ltb_lt. rewrite length_app. lia.
      * now rewrite nth_error_app1.
    + intros v IH H. split; auto.
  - intros v k X Hr Hs i j Hi Hj. rewrite hval_app; auto.
Qed.

End StrassenRuns.

Section StrassenMain.

Context {T : Type} {ST : Scalar T} {UT : Indeterminate T}.

Implicit Types (h : heap T) (v : View).

(** Goals on the roots and offsets of the views of one call: the views of
    the caller are on matrices older than the locals, and the locals are
    on matrices of their own. *)
Ltac roots :=
  unfold full_view; cbn [root root_of roff roff_of coff coff_of]; lia.

(** The premises of a step: invariants, extents, contents. *)
Ltac side :=
  first [ assumption
        | apply fits_mk
        | eassumption
        | lia
        | roots ].

Ltac sep_side :=
  first [ apply separate_roots; roots | apply separate_offsets; roots ].

(** Facts about the store before a step are moved to the store after it;
    what the step may have overwritten is dropped. *)
Ltac transport hh Hfr :=
  repeat match goal with
  | H : heap_wf hh = true |- _ => apply (frame_wf _ _ _ Hfr) in H
  | H : view_ok hh _ = true |- _ => apply (frame_view_ok _ _ _ _ Hfr) in H
  | H : shows hh _ _ _ |- _ =>
      first [ apply (fun H0 => shows_frame_sep _ _ _ _ _ _ H0 Hfr) in H;
              [|sep_side]
            | clear H ]
  end.

(** One local matrix more. *)
Ltac alloc Hn :=
  rewrite bind_local_matrix; cbv beta;
  match goal with
  | Hwf : heap_wf ?hh = true |- context [app ?hh (cons (fresh_matrix _ ?n) nil)] =>
      let h' := fresh "h" in
      let Eh := fresh "Eh" in let Hwf' := fresh "Hwf" in
      let Hl := fresh "Hl" in let Hnew := fresh "Hnew" in
      let Hvo := fresh "Hvo" in let Hsh := fresh "Hsh" in
      destruct (local_facts hh n Hn Hwf) as (h' & Eh & Hwf' & Hl & Hnew & Hvo & Hsh);
      rewrite <- Eh; clear Eh;
      repeat match goal with
      | H : view_ok hh _ = true |- _ => apply Hvo in H
      | H : shows hh _ _ _ |- _ => apply Hsh in H; [|roots]
      end;
      clear Hvo Hsh Hwf
  end.

(** One loop nest, then one recursive call: run it, keep what it wrote. *)
Ltac step2 :=
  match goal with
  | Hwf : heap_wf ?hh = true, Sx : shows ?hh ?x ?n ?X, Sy : shows ?hh ?y ?n ?Y
    |- context [bind (assign2 ?op ?n ?d ?x ?y) _ ?hh] =>
      let h' := fresh "h" in let E := fresh "E" in
      let Sd := fresh "Sd" in let Hfr := fresh "Hfr" in
      destruct (assign2_run op n d x y X Y hh Hwf) as (h' & E & Sd);
      [side..|];
      rewrite (bind_run _ _ _ _ _ E); cbv beta;
      pose proof (frame_of_run _ _ _ _ _ (wo_assign2 op n d x y) E) as Hfr;
      transport hh Hfr; clear E Hfr
  end.

Ltac step4 :=
  match goal with
  | Hwf : heap_wf ?hh = true, Sw : shows ?hh ?w ?n ?Wm, Sx : shows ?hh ?x ?n ?X,
    Sy : shows ?hh ?y ?n ?Y, Sz : shows ?hh ?z ?n ?Zm
    |- context [bind (assign4 ?op1 ?op2 ?op3 ?n ?d ?w ?x ?y ?z) _ ?hh] =>
      let h' := fresh "h" in let E := fresh "E" in
      let Sd := fresh "Sd" in let Hfr := fresh "Hfr" in
      destruct (assign4_run op1 op2 op3 n d w x y z Wm X Y Zm hh Hwf)
        as (h' & E & Sd);
      [side..|];
      rewrite (bind_run _ _ _ _ _ E); cbv beta;
      pose proof (frame_of_run _ _ _ _ _ (wo_assign4 op1 op2 op3 n d w x y z) E)
        as Hfr;
      transport hh Hfr; clear E Hfr
  end.

Ltac call IH Hf' Hn :=
  match goal with
  | Hwf : heap_wf ?hh = true, Sx : shows ?hh ?x ?n ?X, Sy : shows ?hh ?y ?n ?Y
    |- context [bind (P_Strassen_fuel ?f ?x ?y ?d ?n ?l) _ ?hh] =>
      let h' := fresh "h" in let E := fresh "E" in
      let Sd := fresh "Sd" in let Hfr := fresh "Hfr" in
      let Sp := fresh "Sp" in
      destruct (IH x y d n l X Y hh Hf' Hwf) as (h' & E & Sd);
      [side..|];
      rewrite (bind_run _ _ _ _ _ E); cbv beta;
      pose proof (frame_of_run _ _ _ _ _ (wo_P_Strassen_fuel f x y d n l) E)
        as Hfr;
      assert (Sp := Sd ltac:(intros _; split; sep_side)); clear Sd;
      transport hh Hfr; clear E Hfr
  end.

(** On views that are large enough [P_Strassen] returns normally, and what
    it leaves in [c] is what the recurrence gives, provided that [c] shares
    no cell with [a] and [b] where the call falls back on the triple
    loop. *)
Lemma P_Strassen_fuel_run (fuel : nat) :
  forall (a b c : View) (size level : Z) (A B : mat) h,
    (Z.to_nat (2 - level) < fuel)%nat ->
    heap_wf h = true ->
    view_ok h a = true -> view_ok h b = true -> view_ok h c = true ->
    fits a size = true -> fits b size = true -> fits c size = true ->
    0 <= size ->
    shows h a size A -> shows h b size B ->
    exists h', P_Strassen_fuel fuel a b c size level h = (Ok tt, h') /\
      ((delegates size level = true ->
        separate a c size = true /\ separate b c size = true) ->
       shows h' c size (strassen fuel size level A B)).
Proof.
  induction fuel as [|fuel IH];
    intros a b c size level A B h Hf Hwf Ha Hb Hc Fa Fb Fc Hs Sa Sb; [lia|].
  cbn [P_Strassen_fuel strassen]. unfold delegates.
  destruct (size =? 1) eqn:H1.
  { apply Z.eqb_eq in H1. subst size.
    assert (H0 : 0 <= 0 < 1) by lia.
    rewrite (bind_run _ _ _ _ _ (View_get_run a 0 0 h (A 0 0) Ha
               (fits_index a 1 0 0 Fa H0 H0) (Sa 0 0 H0 H0))).
    rewrite (bind_run _ _ _ _ _ (View_get_run b 0 0 h (B 0 0) Hb
               (fits_index b 1 0 0 Fb H0 H0) (Sb 0 0 H0 H0))).
    destruct (View_set_run c 0 0 h (smul (A 0 0) (B 0 0)) Hwf Hc
                (fits_index c 1 0 0 Fc H0 H0)) as (h' & E & Hv).
    exists h'. split; auto. intros _ i j Hi Hj.
    replace i with 0 by lia. replace j with 0 by lia. exact Hv. }
  cbn [negb andb].
  destruct (negb (Z.rem size 2 =? 0)) eqn:H2.
  { destruct (Multiplication_run a b c size A B h) as (h' & E & Hm); auto.
    exists h'. split; auto. cbn [orb]. intros Hsep.
    destruct (Hsep eq_refl). auto. }
  destruct (level >? 1) eqn:H3.
  { destruct (Multiplication_run a b c size A B h) as (h' & E & Hm); auto.
    exists h'. split; auto. cbn [orb]. intros Hsep.
    destruct (Hsep eq_refl). auto. }
  cbn [orb]. cbv zeta.
  apply even_halves in H2.
  assert (Hf' : (Z.to_nat (2 - (level + 1)) < fuel)%nat) by lia.
  pose proof (view_ok_root _ _ Ha) as Ra.
  pose proof (view_ok_root _ _ Hb) as Rb.
  pose proof (view_ok_root _ _ Hc) as Rc.
  unfold fits in Fa, Fb, Fc.
  apply andb_prop in Fa as [Fa1 Fa2]. apply andb_prop in Fb as [Fb1 Fb2].
  apply andb_prop in Fc as [Fc1 Fc2].
  rewrite Z.leb_le in Fa1, Fa2, Fb1, Fb2, Fc1, Fc2.
  set (n := Z.quot size 2) in *.
  assert (Hn : 0 <= n) by lia.
  remember (assemble n _ _ _ _) as Cm eqn:HC in |- *.
  do 12 (rewrite bind_makeView by lia; cbv beta).
  pose proof (view_ok_quadrant h a 0 0 n Ha ltac:(lia) ltac:(lia) ltac:(lia) ltac:(lia)) as Ha11.
  pose proof (view_ok_quadrant h a 0 n n Ha ltac:(lia) ltac:(lia) ltac:(lia) ltac:(lia)) as Ha12.
  pose proof (view_ok_quadrant h a n 0 n Ha ltac:(lia) ltac:(lia) ltac:(lia) ltac:(lia)) as Ha21.
  pose proof (view_ok_quadrant h a n n n Ha ltac:(lia) ltac:(lia) ltac:(lia) ltac:(lia)) as Ha22.
  pose proof (view_ok_quadrant h b 0 0 n Hb ltac:(lia) ltac:(lia) ltac:(lia) ltac:(lia)) as Hb11.
  pose proof (view_ok_quadrant h b 0 n n Hb ltac:(lia) ltac:(lia) ltac:(lia) ltac:(lia)) as Hb12.
  pose proof (view_ok_quadrant h b n 0 n Hb ltac:(lia) ltac:(lia) ltac:(lia) ltac:(lia)) as Hb21.
  pose proof (view_ok_quadrant h b n n n Hb ltac:(lia) ltac:(lia) ltac:(lia) ltac:(lia)) as Hb22.
  pose proof (view_ok_quadrant h c 0 0 n Hc ltac:(lia) ltac:(lia) ltac:(lia) ltac:(lia)) as Hc11.
  pose proof (view_ok_quadrant h c 0 n n Hc ltac:(lia) ltac:(lia) ltac:(lia) ltac:(lia)) as Hc12.
  pose proof (view_ok_quadrant h c n 0 n Hc ltac:(lia) ltac:(lia) ltac:(lia) ltac:(lia)) as Hc21.
  pose proof (view_ok_quadrant h c n n n Hc ltac:(lia) ltac:(lia) ltac:(lia) ltac:(lia)) as Hc22.
  pose proof (shows_quadrant h a 0 0 n size A Sa ltac:(lia) ltac:(lia) ltac:(lia) ltac:(lia)) as Sa11.
  pose proof (shows_quadrant h a 0 n n size A Sa ltac:(lia) ltac:(lia) ltac:(lia) ltac:(lia)) as Sa12.
  pose proof (shows_quadrant h a n 0 n size A Sa ltac:(lia) ltac:(lia) ltac:(lia) ltac:(lia)) as Sa21.
  pose proof (shows_quadrant h a n n n size A Sa ltac:(lia) ltac:(lia) ltac:(lia) ltac:(lia)) as Sa22.
  pose proof (shows_quadrant h b 0 0 n size B Sb ltac:(lia) ltac:(lia) ltac:(lia) ltac:(lia)) as Sb11.
  pose proof (shows_quadrant h b 0 n n size B Sb ltac:(lia) ltac:(lia) ltac:(lia) ltac:(lia)) as Sb12.
  pose proof (shows_quadrant h b n 0 n size B Sb ltac:(lia) ltac:(lia) ltac:(lia) ltac:(lia)) as Sb21.
  pose proof (shows_quadrant h b n n n size B Sb ltac:(lia) ltac:(lia) ltac:(lia) ltac:(lia)) as Sb22.
  clear Sa Sb.
  match goal with
  | |- exists h', scope ?body h = _ /\ _ =>
      assert (Hbody : exists h1, body h = (Ok tt, h1) /\ shows h1 c size Cm)
  end.
  2: { destruct Hbody as (h1 & E1 & S1). exists (firstn (length h) h1).
       split; [now apply scope_run|]. intros _. now apply shows_firstn. }
  clear Ha Hb Hc.
  do 17 (alloc Hn).
  do 10 step2.
  do 7 (call IH Hf' Hn).
  step4. step2. step2.
  match goal with
  | Hwf : heap_wf ?hh = true, Sw : shows ?hh ?w ?n ?Wm, Sx : shows ?hh ?x ?n ?X,
    Sy : shows ?hh ?y ?n ?Y, Sz : shows ?hh ?z ?n ?Zm
    |- context [assign4 ?op1 ?op2 ?op3 ?n ?d ?w ?x ?y ?z ?hh] =>
      destruct (assign4_run op1 op2 op3 n d w x y z Wm X Y Zm hh Hwf)
        as (hlast & Elast & Slast);
      [side..|];
      pose proof (frame_of_run _ _ _ _ _
                    (wo_assign4 op1 op2 op3 n d w x y z) Elast) as Hfrlast;
      transport hh Hfrlast
  end.
  exists hlast. split; [exact Elast|]. rewrite HC, H2.
  apply shows_assemble; assumption.
Qed.

End StrassenMain.

(** ** Strassen's recurrence computes the matrix product *)

Section Algebra.

Context {T : Type} {ST : Scalar T} {SR : ScalarRing T}.

Add Ring scalar_ring_tac : scalar_ring.

Lemma Sigma_ext (n : nat) (f g : Z -> T) :
  (forall k, 0 <= k < Z.of_nat n -> f k = g k) -> Sigma n f = Sigma n g.
Proof.
  induction n as [|n IH]; intros H; simpl; auto.
  rewrite IH, (H (Z.of_nat n)) by (intros; try apply H; lia). reflexivity.
Qed.

Lemma Sigma_add (n : nat) (f g : Z -> T) :
  Sigma n (fun k => sadd (f k) (g k)) = sadd (Sigma n f) (Sigma n g).
Proof. induction n as [|n IH]; simpl; [|rewrite IH]; ring. Qed.

Lemma Sigma_sub (n : nat) (f g : Z -> T) :
  Sigma n (fun k => ssub (f k) (g k)) = ssub (Sigma n f) (Sigma n g).
Proof. induction n as [|n IH]; simpl; [|rewrite IH]; ring. Qed.

Lemma Sigma_split (n m : nat) (f : Z -> T) :
  Sigma (n + m) f =
  sadd (Sigma n f) (Sigma m (fun k => f (k + Z.of_nat n))).
Proof.
  induction m as [|m IH]; simpl.
  - rewrite Nat.add_0_r. ring.
  - rewrite Nat.add_succ_r. simpl. rewrite IH.
    replace (Z.of_nat m + Z.of_nat n) with (Z.of_nat (n + m)) by lia. ring.
Qed.

Lemma mmul_ext (n : Z) (A A' B B' : mat) (i j : Z) :
  (forall k, 0 <= k < n -> A i k = A' i k) ->
  (forall k, 0 <= k < n -> B k j = B' k j) ->
  mmul n A B i j = mmul n A' B' i j.
Proof.
  intros HA HB. unfold mmul. apply Sigma_ext. intros k Hk.
  rewrite HA, HB by lia. reflexivity.
Qed.

(** The product of matrices cut in four blocks. *)
Lemma mmul_blocks (n di dj : Z) (A B : mat) (i j : Z) :
  0 <= n ->
  mmul (n + n) A B (i + di) (j + dj) =
  sadd (mmul n (shift di 0 A) (shift 0 dj B) i j)
       (mmul n (shift di n A) (shift n dj B) i j).
Proof.
  intros Hn. unfold mmul, shift.
  replace (Z.to_nat (n + n)) with (Z.to_nat n + Z.to_nat n)%nat by lia.
  rewrite Sigma_split. f_equal; apply Sigma_ext; intros k Hk.
  - now rewrite !Z.add_0_r.
  - now rewrite Z2Nat.id by lia.
Qed.

Lemma mmul_madd_l (n : Z) (A B C : mat) (i j : Z) :
  mmul n (madd A B) C i j = sadd (mmul n A C i j) (mmul n B C i j).
Proof.
  unfold mmul, madd. rewrite <- Sigma_add. apply Sigma_ext. intros; ring.
Qed.

Lemma mmul_msub_l (n : Z) (A B C : mat) (i j : Z) :
  mmul n (msub A B) C i j = ssub (mmul n A C i j) (mmul n B C i j).
Proof.
  unfold mmul, msub. rewrite <- Sigma_sub. apply Sigma_ext. intros; ring.
Qed.

Lemma mmul_madd_r (n : Z) (A B C : mat) (i j : Z) :
  mmul n A (madd B C) i j = sadd (mmul n A B i j) (mmul n A C i j).
Proof.
  unfold mmul, madd. rewrite <- Sigma_add. apply Sigma_ext. intros; ring.
Qed.

Lemma mmul_msub_r (n : Z) (A B C : mat) (i j : Z) :
  mmul n A (msub B C) i j = ssub (mmul n A B i j) (mmul n A C i j).
Proof.
  unfold mmul, msub. rewrite <- Sigma_sub. apply Sigma_ext. intros; ring.
Qed.

Lemma delegates_false (size level : Z) :
  (size =? 1) = false -> delegates size level = false ->
  size = Z.quot size 2 + Z.quot size 2 /\ level <= 1.
Proof.
  unfold delegates. intros -> H. simpl in H.
  apply orb_false_iff in H as [H2 H3]. split; [|lia].
  now apply even_halves.
Qed.

Lemma madd_at (X Y : mat) (i j : Z) : madd X Y i j = sadd (X i j) (Y i j).
Proof. reflexivity. Qed.

Lemma msub_at (X Y : mat) (i j : Z) : msub X Y i j = ssub (X i j) (Y i j).
Proof. reflexivity. Qed.

Ltac expand_products IH :=
  repeat (rewrite madd_at || rewrite msub_at);
  rewrite !IH by (auto; lia);
  rewrite ?mmul_madd_l, ?mmul_msub_l, ?mmul_madd_r, ?mmul_msub_r;
  rewrite ?mmul_madd_l, ?mmul_msub_l, ?mmul_madd_r, ?mmul_msub_r.

Lemma strassen_mmul (fuel : nat) :
  forall (size level : Z) (A B : mat) (i j : Z),
    (Z.to_nat (2 - level) < fuel)%nat ->
    0 <= i < size -> 0 <= j < size ->
    strassen fuel size level A B i j = mmul size A B i j.
Proof.
  induction fuel as [|fuel IH]; intros size level A B i j Hf Hi Hj; [lia|].
  cbn [strassen].
  destruct (size =? 1) eqn:H1.
  { apply Z.eqb_eq in H1. subst size.
    replace i with 0 by lia. replace j with 0 by lia.
    unfold mmul. simpl. ring. }
  destruct (delegates size level) eqn:Hd; [reflexivity|].
  destruct (delegates_false _ _ H1 Hd) as [Hsz Hl]. cbv zeta.
  set (n := Z.quot size 2) in *.
  assert (Hn : 0 <= n) by lia.
  assert (IH' : forall X Y i' j', 0 <= i' < n -> 0 <= j' < n ->
            strassen fuel n (level + 1) X Y i' j' = mmul n X Y i' j').
  { intros. apply IH; auto. lia. }
  rewrite Hsz. unfold assemble.
  destruct (Z.ltb_spec i n) as [Hin|Hin], (Z.ltb_spec j n) as [Hjn|Hjn].
  - replace (mmul (n + n) A B i j) with (mmul (n + n) A B (i + 0) (j + 0))
      by (now rewrite !Z.add_0_r).
    rewrite mmul_blocks by exact Hn. expand_products IH'. ring.
  - replace (mmul (n + n) A B i j)
      with (mmul (n + n) A B (i + 0) (j - n + n))
      by (f_equal; lia).
    rewrite mmul_blocks by exact Hn. expand_products IH'. ring.
  - replace (mmul (n + n) A B i j)
      with (mmul (n + n) A B (i - n + n) (j + 0))
      by (f_equal; lia).
    rewrite mmul_blocks by exact Hn. expand_products IH'. ring.
  - replace (mmul (n + n) A B i j)
      with (mmul (n + n) A B (i - n + n) (j - n + n))
      by (f_equal; lia).
    rewrite mmul_blocks by exact Hn. expand_products IH'. ring.
Qed.

End Algebra.

Section Results.

Context {T : Type} {ST : Scalar T} {UT : Indeterminate T}.

Implicit Types (h : heap T) (v : View).

(** What an access yields depends on the sizes of the objects and on the
    one cell it leads to. *)
Lemma View_get_cell v (i j : Z) h h' :
  map dims h' = map dims h ->
  hval h' (root v) (i + roff v) (j + coff v)
    = hval h (root v) (i + roff v) (j + coff v) ->
  fst (View_get v i j h') = fst (View_get v i j h).
Proof.
  intros Ed Hv. unfold View_get, bind, reading.
  rewrite (View_at_dims v i j h h' Ed).
  destruct (View_at v i j h) as [r|e| |] eqn:E; auto.
  destruct (View_at_inv _ _ _ _ _ E) as (mx & Hn & Hb & ->).
  pose proof (dims_nth h h' (root v) Ed) as Hd. rewrite Hn in Hd.
  destruct (nth_error h' (root v)) as [mx'|] eqn:Hn'; [|discriminate].
  simpl in Hd. unfold dims in Hd. injection Hd as Hr Hc _.
  rewrite (hval_load h _ _ _ mx Hn Hb).
  rewrite <- Hc, <- Hr in Hb. rewrite <- Hc.
  rewrite (hval_load h' _ _ _ mx' Hn' Hb). simpl. now rewrite Hv.
Qed.

Lemma shows_get h v (n : Z) (X : mat) (i j : Z) :
  view_ok h v = true -> fits v n = true -> shows h v n X ->
  0 <= i < n -> 0 <= j < n -> View_get v i j h = (Ok (X i j), h).
Proof.
  intros Hok Hf Hs Hi Hj. apply View_get_run; auto.
  eapply fits_index; eauto.
Qed.

(** The matrix object built from [X] shows [X]. *)
Lemma matrix_of_shows h (m : nat) (n : Z) (X : mat) :
  0 <= n -> nth_error h m = Some (matrix_of n X) ->
  shows h (full_view m n) n X.
Proof.
  intros Hn Hm i j Hi Hj. unfold hval. cbn [root root_of roff roff_of coff coff_of full_view].
  rewrite Hm, !Z.add_0_r. cbn [rows cols data matrix_of].
  assert (Hb : bad_index i j n n = false) by (apply bad_index_false; lia).
  rewrite Hb. rewrite nth_error_map, nth_error_seq.
  assert (Hlt : (Z.to_nat (i * n + j) <? Z.to_nat (n * n))%nat = true)
    by (apply Nat.ltb_lt; nia).
  rewrite Hlt. simpl. rewrite Z2Nat.id by nia. f_equal. f_equal.
  - rewrite Z.div_add_l by lia. rewrite Z.div_small by lia. lia.
  - rewrite Z.add_comm, Z.mod_add by lia. apply Z.mod_small. lia.
Qed.

Lemma matrix_of_wf (n : Z) (X : @mat T) : matrix_wf (matrix_of n X) = true.
Proof.
  unfold matrix_wf. cbn [rows cols data matrix_of].
  now rewrite length_map, length_seq, Nat.eqb_refl.
Qed.

Lemma fresh_matrix_wf (m : nat) (n : Z) :
  matrix_wf (T:=T) (fresh_matrix m n) = true.
Proof.
  unfold matrix_wf. cbn [rows cols data fresh_matrix].
  now rewrite length_map, length_seq, Nat.eqb_refl.
Qed.

Lemma full_view_ok h (m : nat) (n : Z) (mx : Matrix T) :
  0 <= n -> nth_error h m = Some mx -> rows mx = n -> cols mx = n ->
  view_ok h (full_view m n) = true.
Proof.
  intros Hn Hm Hr Hc. cbn [view_ok viewable_ok full_view extent].
  rewrite Hm, Hr, Hc. cbn [fst snd].
  assert (Hb : bad_view 0 0 n n n n = false) by (apply bad_view_false; lia).
  rewrite Hb. simpl. apply Nat.ltb_lt. apply nth_error_Some. congruence.
Qed.

(** The matrix a call leaves in a new output is the one the recurrence
    gives. *)
Lemma P_Strassen_result_strassen (n level : Z) (X Y : mat) (i j : Z) :
  0 <= i < n -> 0 <= j < n ->
  P_Strassen_result n level X Y i j =
  strassen (S (Z.to_nat (2 - level))) n level X Y i j.
Proof.
  intros Hi Hj. assert (Hn : 0 <= n) by lia. unfold P_Strassen_result.
  set (h := [matrix_of n X; matrix_of n Y; fresh_matrix 2 n]).
  assert (Hwf : heap_wf h = true).
  { unfold h, heap_wf. simpl.
    now rewrite !matrix_of_wf, fresh_matrix_wf. }
  assert (H0 : view_ok h (full_view 0 n) = true)
    by now apply (full_view_ok h 0 n (matrix_of n X)).
  assert (H1 : view_ok h (full_view 1 n) = true)
    by now apply (full_view_ok h 1 n (matrix_of n Y)).
  assert (H2 : view_ok h (full_view 2 n) = true)
    by now apply (full_view_ok h 2 n (fresh_matrix 2 n)).
  destruct (P_Strassen_fuel_run (S (Z.to_nat (2 - level)))
              (full_view 0 n) (full_view 1 n) (full_view 2 n) n level X Y h
              ltac:(lia) Hwf H0 H1 H2 (fits_mk _ _ _ _) (fits_mk _ _ _ _)
              (fits_mk _ _ _ _) Hn)
    as (h' & E & Hs).
  - now apply matrix_of_shows.
  - now apply matrix_of_shows.
  - unfold P_Strassen. rewrite E. simpl. unfold vmat.
    assert (Hsh := Hs ltac:(intros _; split; apply separate_roots; simpl; lia)).
    now rewrite (Hsh i j Hi Hj).
Qed.

(** The invariants are kept: both routines leave every matrix with its
    buffer of [rows * cols] cells and every view within its parent. *)
Lemma invariants_kept (a b c v : View) (size level : Z) h :
  heap_wf h = true ->
  heap_wf (snd (Multiplication a b c size h)) = true /\
  heap_wf (snd (P_Strassen a b c size level h)) = true /\
  (view_ok h v = true ->
   view_ok (snd (Multiplication a b c size h)) v = true /\
   view_ok (snd (P_Strassen a b c size level h)) v = true).
Proof.
  intros Hwf.
  pose proof (wo_Multiplication a b c size h) as F1.
  pose proof (wo_P_Strassen a b c size level h) as F2.
  split; [eapply frame_wf; eauto|]. split; [eapply frame_wf; eauto|].
  intros Hv. split; eapply frame_view_ok; eauto.
Qed.

(** ** The statements of the specification *)

Lemma P_Strassen_run (a b c : View) (size level : Z) h :
  0 <= size -> heap_wf h = true ->
  view_ok h a = true -> view_ok h b = true -> view_ok h c = true ->
  fits a size = true -> fits b size = true -> fits c size = true ->
  exists h', P_Strassen a b c size level h = (Ok tt, h') /\
    view_ok h' c = true /\
    ((delegates size level = true ->
      separate a c size = true /\ separate b c size = true) ->
     shows h' c size
       (strassen (S (Z.to_nat (2 - level))) size level (vmat h a) (vmat h b))).
Proof.
  intros Hs Hwf Ha Hb Hc Fa Fb Fc.
  destruct (P_Strassen_fuel_run (S (Z.to_nat (2 - level))) a b c size level
              (vmat h a) (vmat h b) h ltac:(lia) Hwf Ha Hb Hc Fa Fb Fc Hs)
    as (h' & E & Hsh); try now apply shows_vmat.
  exists h'. repeat split; auto.
  eapply frame_view_ok; eauto.
  apply (frame_of_run _ _ _ _ _ (wo_P_Strassen a b c size level) E).
Qed.

Lemma Multiplication_product (a b c : View) (size : Z) h :
  heap_wf h = true ->
  view_ok h a = true -> view_ok h b = true -> view_ok h c = true ->
  fits a size = true -> fits b size = true -> fits c size = true ->
  separate a c size = true -> separate b c size = true ->
  exists h', Multiplication a b c size h = (Ok tt, h') /\
    forall i j, 0 <= i < size -> 0 <= j < size ->
      View_get c i j h' = (Ok (mmul size (vmat h a) (vmat h b) i j), h').
Proof.
  intros Hwf Ha Hb Hc Fa Fb Fc Sa Sb.
  destruct (Multiplication_run a b c size (vmat h a) (vmat h b) h
              Hwf Ha Hb Hc Fa Fb Fc) as (h' & E & Hsh);
    try now apply shows_vmat.
  exists h'. split; auto. intros i j Hi Hj.
  apply (shows_get h' c size (mmul size (vmat h a) (vmat h b))); auto.
  eapply frame_view_ok; eauto.
  apply (frame_of_run _ _ _ _ _ (wo_Multiplication a b c size) E).
Qed.

(** C3 (as amended): when the first [size] x [size] window of [c] shares
    no cell with those of [a] and [b], [Multiplication(a, b, c, size)] on
    views of extent at least [size] x [size] sets every [c(i, j)] with
    [0 <= i, j < size] to the sum over [k] in [[0, size)] of
    [a(i, k) * b(k, j)], whatever [c(i, j)] held before. *)
Theorem Multiplication_computes_product (a b c : View) (size : Z) h :
  heap_wf h = true ->
  view_ok h a = true -> view_ok h b = true -> view_ok h c = true ->
  fits a size = true -> fits b size = true -> fits c size = true ->
  separate a c size = true -> separate b c size = true ->
  exists h', Multiplication a b c size h = (Ok tt, h') /\
    forall i j, 0 <= i < size -> 0 <= j < size ->
      View_get c i j h' =
        (Ok (Sigma (Z.to_nat size)
               (fun k => smul (vmat h a i k) (vmat h b k j))), h').
Proof. exact (Multiplication_product a b c size h). Qed.

(** C1 (as amended): for a scalar type whose operations obey the ring
    laws, every [N >= 1], square views [a], [b], [c] of extent at least
    [N] x [N] such that the window of [c] shares no cell with those of [a]
    and [b]: [P_Strassen(a, b, c, N, 0)] and [Multiplication(a, b, c, N)]
    both return and leave the same element at every [c(i, j)]. *)
Theorem P_Strassen_agrees_with_Multiplication
    {SR : ScalarRing T} (a b c : View) (N : Z) h :
  1 <= N -> heap_wf h = true ->
  view_ok h a = true -> view_ok h b = true -> view_ok h c = true ->
  fits a N = true -> fits b N = true -> fits c N = true ->
  separate a c N = true -> separate b c N = true ->
  exists h1 h2,
    P_Strassen a b c N 0 h = (Ok tt, h1) /\
    Multiplication a b c N h = (Ok tt, h2) /\
    forall i j, 0 <= i < N -> 0 <= j < N ->
      exists t, View_get c i j h1 = (Ok t, h1) /\
                View_get c i j h2 = (Ok t, h2).
Proof.
  intros HN Hwf Ha Hb Hc Fa Fb Fc Sa Sb.
  destruct (P_Strassen_run a b c N 0 h ltac:(lia) Hwf Ha Hb Hc Fa Fb Fc)
    as (h1 & E1 & Hc1 & Hs1).
  destruct (Multiplication_product a b c N h
              Hwf Ha Hb Hc Fa Fb Fc Sa Sb) as (h2 & E2 & Hs2).
  exists h1, h2. repeat split; auto. intros i j Hi Hj.
  eexists. split; [|apply Hs2; auto].
  rewrite (shows_get h1 c N _ i j Hc1 Fc (Hs1 (fun _ => conj Sa Sb)) Hi Hj).
  rewrite strassen_mmul by (auto; simpl; lia). reflexivity.
Qed.

(** C8 (as amended): for [size >= 0] and views [a], [b], [c] of extent at
    least [size] x [size], [P_Strassen(a, b, c, size, level)] returns
    normally: no [makeView] and no element access anywhere in the
    recursion, the delegated [Multiplication] calls included, takes its
    error branch. *)
Theorem P_Strassen_no_bounds_violation (a b c : View) (size level : Z) h :
  0 <= size -> heap_wf h = true ->
  view_ok h a = true -> view_ok h b = true -> view_ok h c = true ->
  fits a size = true -> fits b size = true -> fits c size = true ->
  exists h', P_Strassen a b c size level h = (Ok tt, h').
Proof.
  intros Hs Hwf Ha Hb Hc Fa Fb Fc.
  destruct (P_Strassen_run a b c size level h Hs Hwf Ha Hb Hc Fa Fb Fc)
    as (h' & E & _). eauto.
Qed.

(** C2: in the recursive case ([size > 1], [size] even, [level <= 1]),
    with [n = size / 2], the ten temporaries, the seven products and the
    four quadrants of [c] are those of the specification: [s1 = b12 - b22],
    ..., [s10 = b11 + b12]; [p1], ..., [p7] are what [P_Strassen] at
    [level + 1] leaves in its output for [a11 * s1], [s2 * b22],
    [s3 * b11], [a22 * s4], [s5 * s6], [s7 * s8], [s9 * s10]; and after the
    call [c11 = p5 + p4 - p2 + p6], [c12 = p1 + p2], [c21 = p3 + p4],
    [c22 = p5 + p1 - p3 - p7]. *)
Theorem P_Strassen_recursive_case (a b c : View) (size level : Z) h :
  heap_wf h = true ->
  view_ok h a = true -> view_ok h b = true -> view_ok h c = true ->
  fits a size = true -> fits b size = true -> fits c size = true ->
  1 < size -> Z.rem size 2 = 0 -> level <= 1 ->
  let n := Z.quot size 2 in
  let a11 := shift 0 0 (vmat h a) in let a12 := shift 0 n (vmat h a) in
  let a21 := shift n 0 (vmat h a) in let a22 := shift n n (vmat h a) in
  let b11 := shift 0 0 (vmat h b) in let b12 := shift 0 n (vmat h b) in
  let b21 := shift n 0 (vmat h b) in let b22 := shift n n (vmat h b) in
  let s1 := msub b12 b22 in let s2 := madd a11 a12 in
  let s3 := madd a21 a22 in let s4 := msub b21 b11 in
  let s5 := madd a11 a22 in let s6 := madd b11 b22 in
  let s7 := msub a12 a22 in let s8 := madd b21 b22 in
  let s9 := msub a11 a21 in let s10 := madd b11 b12 in
  let p1 := P_Strassen_result n (level + 1) a11 s1 in
  let p2 := P_Strassen_result n (level + 1) s2 b22 in
  let p3 := P_Strassen_result n (level + 1) s3 b11 in
  let p4 := P_Strassen_result n (level + 1) a22 s4 in
  let p5 := P_Strassen_result n (level + 1) s5 s6 in
  let p6 := P_Strassen_result n (level + 1) s7 s8 in
  let p7 := P_Strassen_result n (level + 1) s9 s10 in
  exists h', P_Strassen a b c size level h = (Ok tt, h') /\
    forall i j, 0 <= i < n -> 0 <= j < n ->
      View_get c i j h' =
        (Ok (sadd (ssub (sadd (p5 i j) (p4 i j)) (p2 i j)) (p6 i j)), h') /\
      View_get c i (j + n) h' = (Ok (sadd (p1 i j) (p2 i j)), h') /\
      View_get c (i + n) j h' = (Ok (sadd (p3 i j) (p4 i j)), h') /\
      View_get c (i + n) (j + n) h' =
        (Ok (ssub (ssub (sadd (p5 i j) (p1 i j)) (p3 i j)) (p7 i j)), h').
Proof.
  intros Hwf Ha Hb Hc Fa Fb Fc Hs Hev Hl. cbv zeta.
  set (n := Z.quot size 2).
  assert (H1 : (size =? 1) = false) by lia.
  assert (Hd : delegates size level = false).
  { unfold delegates. rewrite H1. simpl.
    apply orb_false_iff. split; [apply negb_false_iff|]; lia. }
  assert (Hsz : size = n + n)
    by (apply even_halves, negb_false_iff; lia).
  destruct (P_Strassen_run a b c size level h ltac:(lia) Hwf Ha Hb Hc Fa Fb Fc)
    as (h' & E & Hc' & Hsh).
  exists h'. split; [exact E|].
  assert (Hsh' := Hsh ltac:(rewrite Hd; discriminate)). clear Hsh.
  cbn [strassen] in Hsh'. rewrite H1, Hd in Hsh'. cbv zeta in Hsh'.
  fold n in Hsh'.
  replace (Z.to_nat (2 - level)) with (S (Z.to_nat (2 - (level + 1))))
    in Hsh' by lia.
  intros i j Hi Hj.
  rewrite !P_Strassen_result_strassen by assumption.
  repeat split.
  - rewrite (shows_get h' c size _ i j Hc' Fc Hsh') by lia.
    unfold assemble.
    now rewrite (proj2 (Z.ltb_lt i n)), (proj2 (Z.ltb_lt j n)) by lia.
  - rewrite (shows_get h' c size _ i (j + n) Hc' Fc Hsh') by lia.
    unfold assemble.
    rewrite (proj2 (Z.ltb_lt i n)), (proj2 (Z.ltb_ge (j + n) n)) by lia.
    now replace (j + n - n) with j by lia.
  - rewrite (shows_get h' c size _ (i + n) j Hc' Fc Hsh') by lia.
    unfold assemble.
    rewrite (proj2 (Z.ltb_ge (i + n) n)), (proj2 (Z.ltb_lt j n)) by lia.
    now replace (i + n - n) with i by lia.
  - rewrite (shows_get h' c size _ (i + n) (j + n) Hc' Fc Hsh') by lia.
    unfold assemble.
    rewrite (proj2 (Z.ltb_ge (i + n) n)), (proj2 (Z.ltb_ge (j + n) n)) by lia.
    replace (i + n - n) with i by lia. now replace (j + n - n) with j by lia.
Qed.

(** C4: for [size > 1], if [size] is odd or [level > 1] the call is
    exactly the call [Multiplication(a, b, c, size)]: same outcome, same
    store.  For [size == 1] the call is [c(0,0) = a(0,0) * b(0,0)], which on
    views of extent at least 1 x 1 leaves that product in [c(0,0)]. *)
Theorem P_Strassen_base_and_fallbacks (a b c : View) (size level : Z) h :
  (1 < size -> Z.rem size 2 <> 0 \/ level > 1 ->
   P_Strassen a b c size level h = Multiplication a b c size h) /\
  (size = 1 ->
   P_Strassen a b c size level h =
     (a00 <- View_get a 0 0 ;; b00 <- View_get b 0 0 ;;
      View_set c 0 0 (smul a00 b00)) h) /\
  (size = 1 -> heap_wf h = true ->
   view_ok h a = true -> view_ok h b = true -> view_ok h c = true ->
   fits a 1 = true -> fits b 1 = true -> fits c 1 = true ->
   exists h', P_Strassen a b c size level h = (Ok tt, h') /\
     View_get c 0 0 h' = (Ok (smul (vmat h a 0 0) (vmat h b 0 0)), h')).
Proof.
  unfold P_Strassen. cbn [P_Strassen_fuel]. repeat split.
  - intros Hs Hc. assert (H1 : (size =? 1) = false) by lia. rewrite H1.
    destruct (negb (Z.rem size 2 =? 0)) eqn:H2; [reflexivity|].
    destruct (level >? 1) eqn:H3; [reflexivity|].
    apply negb_false_iff in H2. lia.
  - intros ->. reflexivity.
  - intros -> Hwf Ha Hb Hc Fa Fb Fc.
    destruct (P_Strassen_run a b c 1 level h ltac:(lia) Hwf Ha Hb Hc Fa Fb Fc)
      as (h' & E & Hc' & Hsh).
    exists h'. split; [exact E|].
    assert (Hsh' := Hsh ltac:(discriminate)).
    apply (shows_get h' c 1 _ 0 0 Hc' Fc Hsh'); lia.
Qed.


(** What [View<T>::operator=] does: the assignment [w = v] copies the four
    integers of [v] but leaves [w] on the surface it was built on, since
    [base = other.base] assigns through the reference member and cannot
    reseat it.  So [w] reads its old surface at the offsets of [v]. *)
Lemma View_assign_keeps_old_surface (w v : View) (i j : Z) h :
  base (View_assign w v) = base w /\
  rowOffset (View_assign w v) = rowOffset v /\
  colOffset (View_assign w v) = colOffset v /\
  maxRows (View_assign w v) = maxRows v /\
  maxCols (View_assign w v) = maxCols v /\
  View_at (View_assign w v) i j h =
    View_at (mkView (base w) (rowOffset v) (colOffset v)
                    (maxRows v) (maxCols v)) i j h.
Proof. repeat split. Qed.

(** The copy constructor, for its part, gives a view equal to the
    original. *)
Lemma View_copy_same (v : View) : View_copy v = v.
Proof. now destruct v. Qed.

(** [makeView] is what establishes the invariant of views: a view it
    returns lies within its parent. *)
Lemma View_makeView_ok h (v w : View) (r c nr nc : Z) :
  view_ok h v = true -> View_makeView v r c nr nc = Ok w ->
  view_ok h w = true.
Proof.
  intros Hok Hw. apply View_makeView_inv in Hw as (-> & Hb).
  cbn [view_ok viewable_ok extent fst snd]. rewrite Hok, andb_true_r.
  apply negb_true_iff, bad_view_false. lia.
Qed.

Lemma Matrix_makeView_ok h (m : nat) (w : View) (r c nr nc : Z) :
  Matrix_makeView m r c nr nc h = (Ok w, h) -> view_ok h w = true.
Proof.
  unfold Matrix_makeView, reading.
  destruct (nth_error h m) as [mx|] eqn:Hm; [|discriminate].
  destruct (bad_view r c nr nc (rows mx) (cols mx)) eqn:Hb; [discriminate|].
  intros [= <-]. cbn [view_ok viewable_ok extent]. rewrite Hm. cbn [fst snd].
  rewrite Hb. simpl. apply Nat.ltb_lt, nth_error_Some. congruence.
Qed.

Lemma View_access_throws (v : View) (row col : Z) (t : T) h :
  view_ok h v = true ->
  ((exists e, fst (View_get v row col h) = Throw e) <->
   (row < 0 \/ maxRows v <= row \/ col < 0 \/ maxCols v <= col)) /\
  ((exists e, fst (View_set v row col t h) = Throw e) <->
   (row < 0 \/ maxRows v <= row \/ col < 0 \/ maxCols v <= col)) /\
  (row < 0 \/ maxRows v <= row \/ col < 0 \/ maxCols v <= col ->
   View_get v row col h = (Throw (BadArrayAccess row col), h) /\
   View_set v row col t h = (Throw (BadArrayAccess row col), h)).
Proof.
  intros Hok. unfold View_get, View_set, bind, reading.
  destruct (bad_index row col (maxRows v) (maxCols v)) eqn:Hb.
  - assert (Hb' := proj1 (bad_index_true _ _ _ _) Hb).
    destruct v as [b ro co mr mc]. cbn [View_at].
    cbn [maxRows maxCols] in *. rewrite Hb. simpl.
    split; [|split]; try tauto; split; eauto.
  - destruct (View_at_ok v row col h Hok Hb) as [rf Hr]. rewrite Hr.
    apply bad_index_false in Hb. split; [|split]; [split| split|]; try lia.
    + intros [e He]. unfold load in He.
      destruct (nth_error h (fst rf)) as [mx'|];
        [destruct (nth_error (data mx') (snd rf))|]; discriminate.
    + intros [e He]. unfold store in He.
      destruct (nth_error h (fst rf)) as [mx'|];
        [destruct (_ <? _)%nat|]; discriminate.
Qed.

Lemma Matrix_access_throws (m : nat) (mx : Matrix T) (row col : Z) (t : T) h :
  nth_error h m = Some mx ->
  ((exists e, fst (Matrix_get m row col h) = Throw e) <->
   (row < 0 \/ rows mx <= row \/ col < 0 \/ cols mx <= col)) /\
  ((exists e, fst (Matrix_set m row col t h) = Throw e) <->
   (row < 0 \/ rows mx <= row \/ col < 0 \/ cols mx <= col)) /\
  (row < 0 \/ rows mx <= row \/ col < 0 \/ cols mx <= col ->
   Matrix_get m row col h = (Throw (BadArrayAccess row col), h) /\
   Matrix_set m row col t h = (Throw (BadArrayAccess row col), h)).
Proof.
  intros Hm. unfold Matrix_get, Matrix_set, Matrix_at, bind, reading.
  rewrite Hm. destruct (bad_index row col (rows mx) (cols mx)) eqn:Hb.
  - assert (Hb' := proj1 (bad_index_true _ _ _ _) Hb). simpl.
    split; [|split]; try tauto; split; eauto.
  - apply bad_index_false in Hb. split; [|split]; [split| split|]; try lia.
    + intros [e He]. unfold load in He. simpl in He. rewrite Hm in He.
      destruct (nth_error (data mx) _); discriminate.
    + intros [e He]. unfold store in He. simpl in He. rewrite Hm in He.
      destruct (_ <? _)%nat; discriminate.
Qed.

Lemma View_makeView_throws (v : View) (r c nr nc : Z) :
  (View_makeView v r c nr nc = Throw (IllegalViewSize nr nc) <->
   (r < 0 \/ c < 0 \/ r + nr > maxRows v \/ c + nc > maxCols v)) /\
  (~ (r < 0 \/ c < 0 \/ r + nr > maxRows v \/ c + nc > maxCols v) ->
   View_makeView v r c nr nc = Ok (mkView (OfView v) r c nr nc)).
Proof.
  unfold View_makeView.
  destruct (bad_view r c nr nc (maxRows v) (maxCols v)) eqn:Hb.
  - apply bad_view_true in Hb. tauto.
  - apply bad_view_false in Hb. split; [split; [discriminate|lia]|auto].
Qed.

Lemma Matrix_makeView_throws (m : nat) (mx : Matrix T) (r c nr nc : Z) h :
  nth_error h m = Some mx ->
  (Matrix_makeView m r c nr nc h = (Throw (IllegalViewSize nr nc), h) <->
   (r < 0 \/ c < 0 \/ r + nr > rows mx \/ c + nc > cols mx)) /\
  (~ (r < 0 \/ c < 0 \/ r + nr > rows mx \/ c + nc > cols mx) ->
   Matrix_makeView m r c nr nc h = (Ok (mkView (OfMatrix m) r c nr nc), h)).
Proof.
  intros Hm. unfold Matrix_makeView, reading. rewrite Hm.
  destruct (bad_view r c nr nc (rows mx) (cols mx)) eqn:Hb.
  - apply bad_view_true in Hb. tauto.
  - apply bad_view_false in Hb. split; [split; [discriminate|lia]|auto].
Qed.

Lemma bad_view_int_small (r c nr nc maxr maxc : Z) :
  Int32.in_range (r + nr) = true -> Int32.in_range (c + nc) = true ->
  bad_view_int r c nr nc maxr maxc = bad_view r c nr nc maxr maxc.
Proof.
  intros Hr Hc. unfold bad_view_int, bad_view.
  now rewrite !Int32.wrap_small.
Qed.

Lemma View_makeView_int_throws (v : View) (r c nr nc : Z) :
  Int32.in_range (r + nr) = true -> Int32.in_range (c + nc) = true ->
  (View_makeView_int v r c nr nc = Throw (IllegalViewSize nr nc) <->
   (r < 0 \/ c < 0 \/ r + nr > maxRows v \/ c + nc > maxCols v)) /\
  (~ (r < 0 \/ c < 0 \/ r + nr > maxRows v \/ c + nc > maxCols v) ->
   View_makeView_int v r c nr nc = Ok (mkView (OfView v) r c nr nc)) /\
  View_makeView_int v r c nr nc = View_makeView v r c nr nc.
Proof.
  intros Hr Hc.
  assert (E : View_makeView_int v r c nr nc = View_makeView v r c nr nc).
  { unfold View_makeView_int, View_makeView.
    now rewrite bad_view_int_small. }
  rewrite E. destruct (View_makeView_throws v r c nr nc) as [H1 H2]. auto.
Qed.

Lemma Matrix_makeView_int_throws (m : nat) (mx : Matrix T) (r c nr nc : Z) h :
  nth_error h m = Some mx ->
  Int32.in_range (r + nr) = true -> Int32.in_range (c + nc) = true ->
  (Matrix_makeView_int m r c nr nc h = (Throw (IllegalViewSize nr nc), h) <->
   (r < 0 \/ c < 0 \/ r + nr > rows mx \/ c + nc > cols mx)) /\
  (~ (r < 0 \/ c < 0 \/ r + nr > rows mx \/ c + nc > cols mx) ->
   Matrix_makeView_int m r c nr nc h =
     (Ok (mkView (OfMatrix m) r c nr nc), h)) /\
  Matrix_makeView_int m r c nr nc h = Matrix_makeView m r c nr nc h.
Proof.
  intros Hm Hr Hc.
  assert (E : Matrix_makeView_int m r c nr nc h = Matrix_makeView m r c nr nc h).
  { unfold Matrix_makeView_int, Matrix_makeView, reading. rewrite Hm.
    now rewrite bad_view_int_small. }
  rewrite E. destruct (Matrix_makeView_throws m mx r c nr nc h Hm) as [H1 H2].
  auto.
Qed.

(** C7 (as amended): with checking on, an element access on a matrix or on
    a view throws [BadArrayAccess] exactly when [row] or [col] is outside
    [[0, maxRows)] x [[0, maxCols)] of that surface; and [makeView], given
    arguments whose sums [r + rows] and [c + cols] are representable as
    [int], throws [IllegalViewSize] exactly when [r < 0], [c < 0],
    [r + rows > maxRows] or [c + cols > maxCols] of the parent; when they
    throw, the store is as it was.  [makeView] is taken with its sums in
    32 bits, which under that proviso is [makeView] with exact sums. *)
Theorem bounds_checks (v : View) (m : nat) (mx : Matrix T)
        (row col r c nr nc : Z) (t : T) h :
  view_ok h v = true -> nth_error h m = Some mx ->
  (* element access on a view *)
  (((exists e, fst (View_get v row col h) = Throw e) <->
    (row < 0 \/ maxRows v <= row \/ col < 0 \/ maxCols v <= col)) /\
   ((exists e, fst (View_set v row col t h) = Throw e) <->
    (row < 0 \/ maxRows v <= row \/ col < 0 \/ maxCols v <= col)) /\
   (row < 0 \/ maxRows v <= row \/ col < 0 \/ maxCols v <= col ->
    View_get v row col h = (Throw (BadArrayAccess row col), h) /\
    View_set v row col t h = (Throw (BadArrayAccess row col), h))) /\
  (* element access on a matrix *)
  (((exists e, fst (Matrix_get m row col h) = Throw e) <->
    (row < 0 \/ rows mx <= row \/ col < 0 \/ cols mx <= col)) /\
   ((exists e, fst (Matrix_set m row col t h) = Throw e) <->
    (row < 0 \/ rows mx <= row \/ col < 0 \/ cols mx <= col)) /\
   (row < 0 \/ rows mx <= row \/ col < 0 \/ cols mx <= col ->
    Matrix_get m row col h = (Throw (BadArrayAccess row col), h) /\
    Matrix_set m row col t h = (Throw (BadArrayAccess row col), h))) /\
  (* makeView, when neither sum overflows *)
  (Int32.in_range (r + nr) = true -> Int32.in_range (c + nc) = true ->
   (* on a view *)
   ((View_makeView_int v r c nr nc = Throw (IllegalViewSize nr nc) <->
     (r < 0 \/ c < 0 \/ r + nr > maxRows v \/ c + nc > maxCols v)) /\
    (~ (r < 0 \/ c < 0 \/ r + nr > maxRows v \/ c + nc > maxCols v) ->
     View_makeView_int v r c nr nc = Ok (mkView (OfView v) r c nr nc)) /\
    View_makeView_int v r c nr nc = View_makeView v r c nr nc) /\
   (* on a matrix *)
   ((Matrix_makeView_int m r c nr nc h =
       (Throw (IllegalViewSize nr nc), h) <->
     (r < 0 \/ c < 0 \/ r + nr > rows mx \/ c + nc > cols mx)) /\
    (~ (r < 0 \/ c < 0 \/ r + nr > rows mx \/ c + nc > cols mx) ->
     Matrix_makeView_int m r c nr nc h =
       (Ok (mkView (OfMatrix m) r c nr nc), h)) /\
    Matrix_makeView_int m r c nr nc h = Matrix_makeView m r c nr nc h)).
Proof.
  intros Hok Hm. split; [|split].
  - now apply View_access_throws.
  - now apply Matrix_access_throws.
  - intros Hr Hc. split.
    + now apply View_makeView_int_throws.
    + now apply Matrix_makeView_int_throws.
Qed.

(** C9 (as amended): [P_Strassen] terminates for every size and level.
    Each recursive call is made with [level + 1] and none is made once
    [level > 1], so a budget of [2 - level] nested calls is never exceeded,
    and any larger budget gives the same outcome and store; size 1, odd
    sizes and [level > 1] are handled without recursion; from size 2 on,
    the recursive calls are made with [size / 2 < size].  (Size 0 with
    [level <= 1] does recurse, with size 0, until [level] exceeds 1.) *)
Theorem P_Strassen_terminates (a b c : View) (size level : Z) h :
  fst (P_Strassen a b c size level h) <> OutOfFuel /\
  (forall fuel, (Z.to_nat (2 - level) < fuel)%nat ->
     P_Strassen_fuel fuel a b c size level h =
     P_Strassen a b c size level h) /\
  (size = 1 \/ Z.rem size 2 <> 0 \/ level > 1 ->
   fst (P_Strassen_fuel 1 a b c size level h) <> OutOfFuel /\
   P_Strassen_fuel 1 a b c size level h = P_Strassen a b c size level h) /\
  (2 <= size -> 0 <= Z.quot size 2 < size).
Proof.
  split; [|split; [|split]].
  - apply terminates_P_Strassen_fuel. lia.
  - intros fuel Hf. apply P_Strassen_fuel_irrelevant; lia.
  - intros H. split; [now apply terminates_P_Strassen_direct|].
    unfold P_Strassen. cbn [P_Strassen_fuel].
    destruct (size =? 1) eqn:H1; [reflexivity|].
    destruct (negb (Z.rem size 2 =? 0)) eqn:H2; [reflexivity|].
    destruct (level >? 1) eqn:H3; [reflexivity|].
    apply negb_false_iff in H2. lia.
  - intros Hs. pose proof (Z.quot_rem' size 2).
    pose proof (Z.rem_bound_pos size 2). lia.
Qed.

(** C10: [Multiplication] and [P_Strassen] write nothing but the cells of
    the first [size] x [size] window of [c]: whatever the call and however
    it ends, no object of the store is created, removed or resized, every
    cell outside that window holds the value it held before, and so does
    every element of [a] and of [b] when [c] is on another matrix. *)
Theorem writes_stay_in_output_window (a b c : View) (size level : Z) h :
  let h1 := snd (Multiplication a b c size h) in
  let h2 := snd (P_Strassen a b c size level h) in
  (map dims h1 = map dims h /\ map dims h2 = map dims h) /\
  (forall m r k, ~ in_window c size m r k ->
     hval h1 m r k = hval h m r k /\ hval h2 m r k = hval h m r k) /\
  (forall v i j, ~ in_window c size (root v) (i + roff v) (j + coff v) ->
     fst (View_get v i j h1) = fst (View_get v i j h) /\
     fst (View_get v i j h2) = fst (View_get v i j h)) /\
  (root a <> root c -> forall i j,
     fst (View_get a i j h1) = fst (View_get a i j h) /\
     fst (View_get a i j h2) = fst (View_get a i j h)) /\
  (root b <> root c -> forall i j,
     fst (View_get b i j h1) = fst (View_get b i j h) /\
     fst (View_get b i j h2) = fst (View_get b i j h)).
Proof.
  cbv zeta.
  destruct (wo_Multiplication a b c size h) as [E1 V1].
  destruct (wo_P_Strassen a b c size level h) as [E2 V2].
  assert (Hget : forall v i j,
    ~ in_window c size (root v) (i + roff v) (j + coff v) ->
    fst (View_get v i j (snd (Multiplication a b c size h)))
      = fst (View_get v i j h) /\
    fst (View_get v i j (snd (P_Strassen a b c size level h)))
      = fst (View_get v i j h)).
  { intros v i j Hw. split; apply View_get_cell; auto. }
  split; [auto|]. split; [auto|]. split; [exact Hget|].
  split; intros Hr i j; apply Hget; unfold in_window; tauto.
Qed.

End Results.

(** ** The statements on the scenario of the specification, and the
       inputs that separate the code from statements as they were worded *)

(** The two scenarios of the specification. *)
Example scenario_2x2_P_Strassen :
  P_Strassen ex_a ex_b ex_c 2 0 ex_heap =
    (Ok tt, [ex_A; ex_B; mkMatrix 2 2 [19; 22; 43; 50]]).
Proof. reflexivity. Qed.

Example scenario_2x2_Multiplication :
  Multiplication ex_a ex_b ex_c 2 ex_heap =
    (Ok tt, [ex_A; ex_B; mkMatrix 2 2 [19; 22; 43; 50]]).
Proof. reflexivity. Qed.

Example scenario_3x3_identity :
  let I3 := mkMatrix 3 3 [1; 0; 0; 0; 1; 0; 0; 0; 1] in
  let B3 := mkMatrix 3 3 [1; 2; 3; 4; 5; 6; 7; 8; 9] in
  let C3 := mkMatrix 3 3 [7; 7; 7; 7; 7; 7; 7; 7; 7] in
  P_Strassen (full_view 0 3) (full_view 1 3) (full_view 2 3) 3 0 [I3; B3; C3]
    = (Ok tt, [I3; B3; B3]) /\
  Multiplication (full_view 0 3) (full_view 1 3) (full_view 2 3) 3 [I3; B3; C3]
    = (Ok tt, [I3; B3; B3]).
Proof. split; reflexivity. Qed.

(** A size with mixed factors: 6 = 2 * 3 is halved once, then the odd
    halves go to the triple loop. *)
Example scenario_4x4_and_6x6 :
  let A4 := matrix_of 4 (fun i j => 3 * i - 2 * j + 1) in
  let B4 := matrix_of 4 (fun i j => i * j - 5) in
  let A6 := matrix_of 6 (fun i j => i - j * j) in
  let B6 := matrix_of 6 (fun i j => 2 * i + j - 7) in
  P_Strassen (full_view 0 4) (full_view 1 4) (full_view 2 4) 4 0
             [A4; B4; fresh_matrix 2 4]
    = Multiplication (full_view 0 4) (full_view 1 4) (full_view 2 4) 4
             [A4; B4; fresh_matrix 2 4] /\
  P_Strassen (full_view 0 6) (full_view 1 6) (full_view 2 6) 6 0
             [A6; B6; fresh_matrix 2 6]
    = Multiplication (full_view 0 6) (full_view 1 6) (full_view 2 6) 6
             [A6; B6; fresh_matrix 2 6].
Proof. split; vm_compute; reflexivity. Qed.

(** On 32-bit integers the two routines agree through the overflows. *)
Example scenario_int32 :
  fst (P_Strassen ex_a ex_b ex_c 2 0 ex_heap32) = Ok tt /\
  values32 (snd (P_Strassen ex_a ex_b ex_c 2 0 ex_heap32)) =
  values32 (snd (Multiplication ex_a ex_b ex_c 2 ex_heap32)) /\
  nth 2 (values32 (snd (Multiplication ex_a ex_b ex_c 2 ex_heap32))) [] =
    [14; -393218; -2147287047; -17].
Proof. repeat split. Qed.

Lemma P_Strassen_agrees_with_Multiplication_witness :
  exists h1 h2,
    P_Strassen ex_a ex_b ex_c 2 0 ex_heap = (Ok tt, h1) /\
    Multiplication ex_a ex_b ex_c 2 ex_heap = (Ok tt, h2) /\
    forall i j, 0 <= i < 2 -> 0 <= j < 2 ->
      exists t, View_get ex_c i j h1 = (Ok t, h1) /\
                View_get ex_c i j h2 = (Ok t, h2).
Proof.
  apply (P_Strassen_agrees_with_Multiplication ex_a ex_b ex_c 2 ex_heap);
    solve [reflexivity | lia].
Defined.

(** C1, as worded, fails when the output is one of the inputs: with
    [c = a], [P_Strassen] leaves the product in [c] and [Multiplication]
    does not. *)
Lemma P_Strassen_differs_when_output_aliases_input :
  1 <= 2 /\ heap_wf ex_heap = true /\
  view_ok ex_heap ex_a = true /\ view_ok ex_heap ex_b = true /\
  fits ex_a 2 = true /\ fits ex_b 2 = true /\
  fst (P_Strassen ex_a ex_b ex_a 2 0 ex_heap) = Ok tt /\
  fst (Multiplication ex_a ex_b ex_a 2 ex_heap) = Ok tt /\
  fst (View_get ex_a 0 0 (snd (P_Strassen ex_a ex_b ex_a 2 0 ex_heap)))
    = Ok 19 /\
  fst (View_get ex_a 0 0 (snd (Multiplication ex_a ex_b ex_a 2 ex_heap)))
    = Ok 14 /\
  fst (View_get ex_a 0 0 (snd (P_Strassen ex_a ex_b ex_a 2 0 ex_heap)))
    <> fst (View_get ex_a 0 0 (snd (Multiplication ex_a ex_b ex_a 2 ex_heap))).
Proof.
  repeat split; try reflexivity; try lia. vm_compute. discriminate.
Qed.

(** The ring laws in C1 (as amended) are needed: on [double]s, with an
    output matrix of its own ([A] = 0.1 0.2 / 0.3 0.4, [B] = 0.5 0.6 /
    0.7 0.8), [P_Strassen] leaves 0.18999999999999989 in [c(0, 0)] and
    [Multiplication] leaves 0.19. *)
Example P_Strassen_differs_on_doubles :
  heap_wf ex_heapD = true /\
  view_ok ex_heapD ex_a = true /\ view_ok ex_heapD ex_b = true /\
  view_ok ex_heapD ex_c = true /\
  separate ex_a ex_c 2 = true /\ separate ex_b ex_c 2 = true /\
  fst (P_Strassen ex_a ex_b ex_c 2 0 ex_heapD) = Ok tt /\
  fst (Multiplication ex_a ex_b ex_c 2 ex_heapD) = Ok tt /\
  fst (View_get ex_c 0 0 (snd (P_Strassen ex_a ex_b ex_c 2 0 ex_heapD)))
    = Ok 0.18999999999999989%float /\
  fst (View_get ex_c 0 0 (snd (Multiplication ex_a ex_b ex_c 2 ex_heapD)))
    = Ok 0.19%float /\
  PrimFloat.ltb 0.18999999999999989 0.19 = true.
Proof. repeat split. Qed.

Lemma P_Strassen_recursive_case_witness :
  exists h', P_Strassen ex_a ex_b ex_c 2 0 ex_heap = (Ok tt, h') /\
    View_get ex_c 0 0 h' = (Ok 19, h') /\
    View_get ex_c 0 1 h' = (Ok 22, h') /\
    View_get ex_c 1 0 h' = (Ok 43, h') /\
    View_get ex_c 1 1 h' = (Ok 50, h').
Proof.
  destruct (P_Strassen_recursive_case ex_a ex_b ex_c 2 0 ex_heap)
    as (h' & E & Hq); try reflexivity; try lia.
  exists h'. split; [exact E|].
  assert (Hr : 0 <= 0 < Z.quot 2 2) by (change (Z.quot 2 2) with 1; lia).
  destruct (Hq 0 0 Hr Hr) as (H11 & H12 & H21 & H22).
  repeat split; [exact H11|exact H12|exact H21|exact H22].
Defined.

Lemma Multiplication_computes_product_witness :
  exists h', Multiplication ex_a ex_b ex_c 2 ex_heap = (Ok tt, h') /\
    forall i j, 0 <= i < 2 -> 0 <= j < 2 ->
      View_get ex_c i j h' =
        (Ok (Sigma (Z.to_nat 2)
               (fun k => smul (vmat ex_heap ex_a i k) (vmat ex_heap ex_b k j))),
         h').
Proof.
  apply (Multiplication_computes_product ex_a ex_b ex_c 2 ex_heap);
    reflexivity.
Defined.

(** C3, as worded, fails when the output is one of the inputs: with
    [c = a], [c(0, 0)] ends as 14, which is neither the sum of products of
    the elements [a] and [b] held before the call (19) nor that of the
    elements they hold after it (5362). *)
Lemma Multiplication_wrong_when_output_aliases_input :
  heap_wf ex_heap = true /\
  view_ok ex_heap ex_a = true /\ view_ok ex_heap ex_b = true /\
  fits ex_a 2 = true /\ fits ex_b 2 = true /\
  fst (Multiplication ex_a ex_b ex_a 2 ex_heap) = Ok tt /\
  fst (View_get ex_a 0 0 (snd (Multiplication ex_a ex_b ex_a 2 ex_heap)))
    = Ok 14 /\
  Sigma (Z.to_nat 2)
    (fun k => smul (vmat ex_heap ex_a 0 k) (vmat ex_heap ex_b k 0)) = 19 /\
  Sigma (Z.to_nat 2)
    (fun k =>
       smul (vmat (snd (Multiplication ex_a ex_b ex_a 2 ex_heap)) ex_a 0 k)
            (vmat (snd (Multiplication ex_a ex_b ex_a 2 ex_heap)) ex_b k 0))
    = 5362.
Proof. repeat split. Qed.

Lemma P_Strassen_base_and_fallbacks_witness :
  P_Strassen ex_a ex_b ex_c 3 0 ex_heap = Multiplication ex_a ex_b ex_c 3 ex_heap /\
  P_Strassen ex_a ex_b ex_c 2 2 ex_heap = Multiplication ex_a ex_b ex_c 2 ex_heap /\
  exists h', P_Strassen ex_a ex_b ex_c 1 0 ex_heap = (Ok tt, h') /\
    View_get ex_c 0 0 h' =
      (Ok (smul (vmat ex_heap ex_a 0 0) (vmat ex_heap ex_b 0 0)), h').
Proof.
  split; [|split].
  - apply (proj1 (P_Strassen_base_and_fallbacks ex_a ex_b ex_c 3 0 ex_heap));
      [lia|left; discriminate].
  - apply (proj1 (P_Strassen_base_and_fallbacks ex_a ex_b ex_c 2 2 ex_heap));
      [lia|right; lia].
  - apply (proj2 (proj2
      (P_Strassen_base_and_fallbacks ex_a ex_b ex_c 1 0 ex_heap)));
      reflexivity.
Defined.


(** C6: the assignment [w = v] does not make [w] denote the window of
    [v].  With [v] a view of [A] and [w] a view of [B], after [w = v] the
    element [w(0, 0)] is [B(0, 0) = 5] and not [A(0, 0) = 1]: [w] is still
    on [B].  A copy-constructed view does read [A]. *)
Theorem View_assign_reads_old_surface :
  View_get ex_a 0 0 ex_heap = (Ok 1, ex_heap) /\
  View_get (View_assign ex_b ex_a) 0 0 ex_heap = (Ok 5, ex_heap) /\
  View_get (View_copy ex_a) 0 0 ex_heap = (Ok 1, ex_heap) /\
  root (View_assign ex_b ex_a) = root ex_b.
Proof. repeat split. Qed.

(** Why the statement on bounds checks is about views that keep their
    invariant: a view made with the unchecked constructor so as to overhang
    its base (here a 2 x 2 window at offset (1, 1) of the 2 x 2 matrix [A])
    throws from the base on an access within its own extent. *)
Example overhanging_view_throws :
  view_ok ex_heap (mkView (OfMatrix 0) 1 1 2 2) = false /\
  View_get (mkView (OfMatrix 0) 1 1 2 2) 1 1 ex_heap =
    (Throw (BadArrayAccess 2 2), ex_heap).
Proof. split; reflexivity. Qed.

Lemma bounds_checks_witness :
  View_get ex_a 2 0 ex_heap = (Throw (BadArrayAccess 2 0), ex_heap) /\
  Matrix_set 1 0 (-1) 9 ex_heap = (Throw (BadArrayAccess 0 (-1)), ex_heap) /\
  View_makeView_int ex_a 1 1 2 1 = Throw (IllegalViewSize 2 1) /\
  Matrix_makeView_int 0 1 1 1 1 ex_heap =
    (Ok (mkView (OfMatrix 0) 1 1 1 1), ex_heap) /\
  View_makeView_int ex_a 1 1 2 1 = View_makeView ex_a 1 1 2 1.
Proof.
  destruct (bounds_checks ex_a 1 ex_B 2 0 1 1 2 1 9 ex_heap eq_refl eq_refl)
    as ((_ & _ & Hv) & _ & Hmk).
  destruct (Hmk eq_refl eq_refl) as ((Hmk1 & _ & Hmk2) & _).
  destruct (bounds_checks ex_a 1 ex_B 0 (-1) 1 1 2 1 9 ex_heap eq_refl eq_refl)
    as (_ & (_ & _ & Hm) & _).
  destruct (bounds_checks ex_a 0 ex_A 0 0 1 1 1 1 9 ex_heap eq_refl eq_refl)
    as (_ & _ & Hmm).
  destruct (Hmm eq_refl eq_refl) as (_ & (_ & Hmm2 & _)).
  split; [|split; [|split; [|split]]].
  - apply Hv. simpl. lia.
  - apply Hm. simpl. lia.
  - apply Hmk1. simpl. lia.
  - apply Hmm2. simpl. lia.
  - exact Hmk2.
Defined.

(** C7, as worded, fails when a sum overflows: in a 2 x 2 parent,
    [makeView(2147483647, 0, 1, 1)] has [r + rows > maxRows], but the sum
    in 32 bits is -2147483648 and the view is returned. *)
Lemma makeView_accepts_overflowing_offset :
  view_ok ex_heap ex_a = true /\ nth_error ex_heap 0 = Some ex_A /\
  Int32.in_range 2147483647 = true /\ Int32.in_range 1 = true /\
  Int32.wrap (2147483647 + 1) = -2147483648 /\
  2147483647 + 1 > maxRows ex_a /\
  View_makeView_int ex_a 2147483647 0 1 1 =
    Ok (mkView (OfView ex_a) 2147483647 0 1 1) /\
  2147483647 + 1 > rows ex_A /\
  Matrix_makeView_int 0 2147483647 0 1 1 ex_heap =
    (Ok (mkView (OfMatrix 0) 2147483647 0 1 1), ex_heap).
Proof. repeat split. Qed.

Lemma P_Strassen_no_bounds_violation_witness :
  exists h', P_Strassen ex_a ex_b ex_c 2 0 ex_heap = (Ok tt, h').
Proof.
  apply (P_Strassen_no_bounds_violation ex_a ex_b ex_c 2 0 ex_heap);
    solve [reflexivity | lia].
Defined.

(** C8, as worded, fails for a negative even size: every view has extent
    at least -2 x -2, and [a.makeView(0, -1, -1, -1)] throws. *)
Lemma P_Strassen_negative_size_throws :
  heap_wf ex_heap = true /\
  view_ok ex_heap ex_a = true /\ view_ok ex_heap ex_b = true /\
  view_ok ex_heap ex_c = true /\
  fits ex_a (-2) = true /\ fits ex_b (-2) = true /\ fits ex_c (-2) = true /\
  P_Strassen ex_a ex_b ex_c (-2) 0 ex_heap =
    (Throw (IllegalViewSize (-1) (-1)), ex_heap).
Proof. repeat split. Qed.

Lemma P_Strassen_terminates_witness :
  fst (P_Strassen ex_a ex_b ex_c 2 0 ex_heap) <> OutOfFuel /\
  P_Strassen_fuel 5 ex_a ex_b ex_c 2 0 ex_heap =
    P_Strassen ex_a ex_b ex_c 2 0 ex_heap /\
  P_Strassen_fuel 1 ex_a ex_b ex_c 3 0 ex_heap =
    P_Strassen ex_a ex_b ex_c 3 0 ex_heap /\
  0 <= Z.quot 2 2 < 2.
Proof.
  destruct (P_Strassen_terminates ex_a ex_b ex_c 2 0 ex_heap)
    as (H1 & H2 & _ & H4).
  destruct (P_Strassen_terminates ex_a ex_b ex_c 3 0 ex_heap)
    as (_ & _ & H3 & _).
  split; [exact H1|]. split; [apply H2; simpl; lia|].
  split; [apply H3; right; left; discriminate|apply H4; lia].
Defined.

(** C9, as worded, fails at size 0: with [level <= 1] the call is not
    handled without recursion (a budget of one call is exhausted), and the
    recursive calls are made with [0 / 2 = 0], which is not below 0. *)
Lemma P_Strassen_size_zero_recurses :
  0 <= 1 /\
  fst (P_Strassen_fuel 1 ex_a ex_b ex_c 0 0 ex_heap) = OutOfFuel /\
  ~ (Z.quot 0 2 < 0) /\
  fst (P_Strassen ex_a ex_b ex_c 0 0 ex_heap) = Ok tt.
Proof.
  split; [lia|]. split; [reflexivity|].
  split; [change (Z.quot 0 2) with 0; lia|reflexivity].
Qed.

Lemma writes_stay_in_output_window_witness :
  hval (snd (P_Strassen ex_a ex_b ex_c 1 0 ex_heap)) 2 1 1 = hval ex_heap 2 1 1 /\
  fst (View_get ex_a 0 0 (snd (Multiplication ex_a ex_b ex_c 2 ex_heap)))
    = fst (View_get ex_a 0 0 ex_heap).
Proof.
  destruct (writes_stay_in_output_window ex_a ex_b ex_c 1 0 ex_heap)
    as (_ & Hc & _).
  destruct (writes_stay_in_output_window ex_a ex_b ex_c 2 0 ex_heap)
    as (_ & _ & _ & Ha & _).
  split.
  - apply (Hc 2%nat 1 1). unfold in_window. simpl. lia.
  - apply Ha. simpl. lia.
Defined.

(** * More of the code

    Properties of [Matrix.h] and of [main.cpp] that the statements of the
    specification leave out. *)

(** ** Views over views *)

Section ViewLaws.

Context {T : Type} {ST : Scalar T} {UT : Indeterminate T}.

Implicit Types (h : heap T) (v : View).

(** An access within the extent of a view that keeps its invariant is the
    access of its root matrix at the offsets added up along the chain. *)
Lemma View_at_root v : forall row col h,
  view_ok h v = true ->
  bad_index row col (maxRows v) (maxCols v) = false ->
  View_at v row col h =
  Matrix_at (root v) (row + roff v) (col + coff v) h.
Proof.
  apply (View_mut
    (fun v => forall row col h, view_ok h v = true ->
       bad_index row col (maxRows v) (maxCols v) = false ->
       View_at v row col h =
       Matrix_at (root v) (row + roff v) (col + coff v) h)
    (fun b => forall row col h, viewable_ok h b = true ->
       bad_index row col (fst (extent h b)) (snd (extent h b)) = false ->
       Viewable_at b row col h =
       Matrix_at (root_of b) (row + roff_of b) (col + coff_of b) h)).
  - intros b IH ro co mr mc row col h. simpl. intros Hok Hb. rewrite Hb.
    apply andb_prop in Hok as [Hv Hok]. apply negb_true_iff in Hv.
    rewrite IH; auto.
    + now rewrite !Z.add_assoc.
    + rewrite bad_index_false in *. rewrite bad_view_false in Hv. lia.
  - intros m row col h _ _. simpl. now rewrite !Z.add_0_r.
  - intros v' IH row col h. simpl. destruct v'; simpl. apply IH.
Qed.

(** X1: through a chain of views of any length, each within its parent,
    an access within the extent of the outermost view is the access of
    the matrix at the end of the chain at the row and column shifted by
    the offsets of all the views of the chain, for reading and for
    writing alike. *)
Theorem View_access_is_root_access v (i j : Z) (t : T) h :
  view_ok h v = true ->
  0 <= i < maxRows v -> 0 <= j < maxCols v ->
  View_get v i j h = Matrix_get (root v) (i + roff v) (j + coff v) h /\
  View_set v i j t h = Matrix_set (root v) (i + roff v) (j + coff v) t h.
Proof.
  intros Hv Hi Hj.
  assert (E : View_at v i j h =
              Matrix_at (root v) (i + roff v) (j + coff v) h).
  { apply View_at_root; auto. rewrite bad_index_false. lia. }
  unfold View_get, View_set, Matrix_get, Matrix_set, bind, reading.
  now rewrite E.
Qed.

(** X2: a write through a view, within its extent, succeeds and keeps
    the invariants of the store and of every view; afterwards every view
    that names the same cell of the same matrix reads the value written,
    whatever chain of views it goes through, and every access that names
    another cell reads what it read before. *)
Theorem View_set_then_get v (i j : Z) (t : T) h :
  heap_wf h = true -> view_ok h v = true ->
  0 <= i < maxRows v -> 0 <= j < maxCols v ->
  exists h', View_set v i j t h = (Ok tt, h') /\
    heap_wf h' = true /\
    forall w k l, view_ok h w = true ->
      0 <= k < maxRows w -> 0 <= l < maxCols w ->
      view_ok h' w = true /\
      ((root w = root v /\ k + roff w = i + roff v /\ l + coff w = j + coff v) ->
       View_get w k l h' = (Ok t, h')) /\
      (~ (root w = root v /\ k + roff w = i + roff v /\ l + coff w = j + coff v) ->
       fst (View_get w k l h') = fst (View_get w k l h)).
Proof.
  intros Hwf Hv Hi Hj.
  assert (Hb : bad_index i j (maxRows v) (maxCols v) = false)
    by (rewrite bad_index_false; lia).
  destruct (View_set_run v i j h t Hwf Hv Hb) as (h' & E & Hc).
  pose proof (wo_View_set v i j t h) as Hfr. rewrite E in Hfr. cbn [snd] in Hfr.
  exists h'. split; [exact E|]. split; [eapply frame_wf; eauto|].
  intros w k l Hw Hk Hl.
  assert (Hw' : view_ok h' w = true) by (eapply frame_view_ok; eauto).
  split; [exact Hw'|]. split.
  - intros (Er & Ek & El). apply View_get_run; auto.
    + rewrite bad_index_false; lia.
    + now rewrite Er, Ek, El.
  - intros Hne. apply View_get_cell; [apply Hfr|].
    apply (proj2 Hfr). exact Hne.
Qed.


(** X4: [v.makeView(0, 0, maxRows, maxCols)] is always accepted, and the
    view it returns cannot be told from [v]: every access, within the
    extent or not, has the same outcome (the same value, store or
    exception) through either. *)
Theorem whole_view_is_transparent v (i j : Z) (t : T) h :
  View_makeView v 0 0 (maxRows v) (maxCols v) =
    Ok (mkView (OfView v) 0 0 (maxRows v) (maxCols v)) /\
  View_get (mkView (OfView v) 0 0 (maxRows v) (maxCols v)) i j h =
    View_get v i j h /\
  View_set (mkView (OfView v) 0 0 (maxRows v) (maxCols v)) i j t h =
    View_set v i j t h.
Proof.
  split.
  { unfold View_makeView.
    replace (bad_view _ _ _ _ _ _) with false; auto.
    symmetry. rewrite bad_view_false. lia. }
  unfold View_get, View_set, bind, reading. cbn [View_at Viewable_at].
  rewrite !Z.add_0_r. destruct v as [b ro co mr mc]. cbn [maxRows maxCols View_at].
  destruct (bad_index i j mr mc); split; reflexivity.
Qed.

End ViewLaws.

(** ** Sizes that are zero or negative, and views that are too small *)

Section Edges.

Context {T : Type} {ST : Scalar T} {UT : Indeterminate T}.

Implicit Types (h : heap T) (v : View).

(** The two outcomes of a [makeView] in a sequence. *)
Lemma bind_makeView_cases {B} v (r c nr nc : Z) (k : View -> M T B) h :
  (bad_view r c nr nc (maxRows v) (maxCols v) = true /\
   bind (lift (View_makeView v r c nr nc)) k h =
     (Throw (IllegalViewSize nr nc), h)) \/
  (bad_view r c nr nc (maxRows v) (maxCols v) = false /\
   bind (lift (View_makeView v r c nr nc)) k h =
     k (mkView (OfView v) r c nr nc) h).
Proof.
  unfold bind, lift, View_makeView.
  destruct (bad_view r c nr nc (maxRows v) (maxCols v)); auto.
Qed.

Lemma For_nothing (n : Z) (body : Z -> M T unit) h :
  n <= 0 -> For n body h = (Ok tt, h).
Proof.
  intros Hn. unfold For. replace (Z.to_nat n) with 0%nat by lia. reflexivity.
Qed.

Lemma bind_For_nothing {B} (n : Z) (body : Z -> M T unit) (k : unit -> M T B) h :
  n <= 0 -> bind (For n body) k h = k tt h.
Proof. intros Hn. unfold bind. now rewrite For_nothing. Qed.

Lemma firstn_app_exact {A} (l l' : list A) : firstn (length l) (l ++ l') = l.
Proof.
  rewrite firstn_app, Nat.sub_diag, firstn_all. simpl. apply app_nil_r.
Qed.

Lemma P_Strassen_fuel_size_zero (fuel : nat) :
  forall (a b c : View) (level : Z) h,
    (Z.to_nat (2 - level) < fuel)%nat ->
    0 <= maxRows a -> 0 <= maxCols a -> 0 <= maxRows b -> 0 <= maxCols b ->
    0 <= maxRows c -> 0 <= maxCols c ->
    P_Strassen_fuel fuel a b c 0 level h = (Ok tt, h).
Proof.
  induction fuel as [|fuel IH]; intros a b c level h Hf Ha1 Ha2 Hb1 Hb2 Hc1 Hc2;
    [lia|].
  cbn [P_Strassen_fuel].
  change (0 =? 1) with false. change (Z.rem 0 2 =? 0) with true.
  cbn [negb]. change (Z.quot 0 2) with 0. cbv zeta.
  destruct (level >? 1) eqn:Hl.
  { unfold Multiplication. apply For_nothing. lia. }
  assert (Hf' : (Z.to_nat (2 - (level + 1)) < fuel)%nat) by lia.
  do 12 (rewrite bind_makeView by lia; cbv beta).
  unfold scope.
  rewrite bind_local_matrix; cbv beta.
  do 16 (rewrite bind_local_matrix; cbv beta;
         match goal with
         | |- context [fresh_matrix (length (?H ++ ?L)) _] =>
             generalize (length (H ++ L)); intro
         end).
  unfold assign2, assign4.
  do 10 (rewrite bind_For_nothing by lia).
  do 7 (erewrite bind_run; [|apply IH; [exact Hf'|cbn; lia..]]).
  do 3 (rewrite bind_For_nothing by lia).
  rewrite For_nothing by lia.
  f_equal. rewrite <- !app_assoc. apply firstn_app_exact.
Qed.

Lemma Multiplication_nothing (a b c : View) (size : Z) h :
  size <= 0 -> Multiplication a b c size h = (Ok tt, h).
Proof. intros Hs. unfold Multiplication. now apply For_nothing. Qed.

Lemma P_Strassen_hands_over_nothing (a b c : View) (size level : Z) h :
  size < 0 -> Z.rem size 2 <> 0 \/ level > 1 ->
  P_Strassen a b c size level h = (Ok tt, h).
Proof.
  intros Hs Hd. unfold P_Strassen. cbn [P_Strassen_fuel].
  replace (size =? 1) with false by (symmetry; apply Z.eqb_neq; lia).
  destruct Hd as [Hd|Hd].
  - replace (Z.rem size 2 =? 0) with false
      by (symmetry; now apply Z.eqb_neq).
    cbn [negb]. apply Multiplication_nothing. lia.
  - destruct (negb (Z.rem size 2 =? 0));
      [apply Multiplication_nothing; lia|].
    replace (level >? 1) with true by (symmetry; lia).
    apply Multiplication_nothing. lia.
Qed.

(** X5: sizes with nothing to multiply.  [Multiplication] returns at
    once, the store untouched, for a size that is not positive, and so
    does [P_Strassen] for a negative size that it hands over (odd, or
    [level > 1]); [P_Strassen] with size 0 on views of extents that are
    not negative also returns with the store exactly as it was, at every
    level, after going through the recursive case with temporaries of no
    cell. *)
Theorem nothing_to_multiply (a b c : View) (size level : Z) h :
  (size <= 0 -> Multiplication a b c size h = (Ok tt, h)) /\
  (size < 0 -> Z.rem size 2 <> 0 \/ level > 1 ->
   P_Strassen a b c size level h = (Ok tt, h)) /\
  (size = 0 ->
   0 <= maxRows a -> 0 <= maxCols a -> 0 <= maxRows b -> 0 <= maxCols b ->
   0 <= maxRows c -> 0 <= maxCols c ->
   P_Strassen a b c size level h = (Ok tt, h)).
Proof.
  split; [|split].
  - apply Multiplication_nothing.
  - apply P_Strassen_hands_over_nothing.
  - intros -> Ha1 Ha2 Hb1 Hb2 Hc1 Hc2. unfold P_Strassen.
    apply P_Strassen_fuel_size_zero; auto; lia.
Qed.

Lemma negative_even_size_throws (a b c : View) (size level : Z) h :
  size < 0 -> Z.rem size 2 = 0 -> level <= 1 ->
  P_Strassen a b c size level h =
    (Throw (IllegalViewSize (Z.quot size 2) (Z.quot size 2)), h).
Proof.
  intros Hs He Hl. unfold P_Strassen. cbn [P_Strassen_fuel].
  replace (size =? 1) with false by (symmetry; apply Z.eqb_neq; lia).
  rewrite He. change (0 =? 0) with true. cbn [negb].
  replace (level >? 1) with false by (symmetry; lia).
  cbv zeta.
  assert (Hn : Z.quot size 2 < 0).
  { pose proof (Z.quot_rem' size 2) as E. lia. }
  set (n := Z.quot size 2) in *.
  match goal with
  | |- bind (lift (View_makeView ?v ?r ?c ?nr ?nc)) ?k ?hh = _ =>
      destruct (bind_makeView_cases v r c nr nc k hh) as [[_ E]|[_ E]];
      [exact E|rewrite E; clear E; cbv beta]
  end.
  match goal with
  | |- bind (lift (View_makeView ?v ?r ?c ?nr ?nc)) ?k ?hh = _ =>
      destruct (bind_makeView_cases v r c nr nc k hh) as [[_ E]|[B _]];
      [exact E|apply bad_view_false in B; lia]
  end.
Qed.

(** X6: a negative even size with [level <= 1] always ends in
    [IllegalViewSize(size / 2, size / 2)], whatever the views and the
    store, which is left untouched: the second quadrant is asked at the
    negative column [size / 2], if the first was not refused already. *)
Theorem P_Strassen_negative_even_size (a b c : View) (size level : Z) h :
  size < 0 -> Z.rem size 2 = 0 -> level <= 1 ->
  P_Strassen a b c size level h =
    (Throw (IllegalViewSize (Z.quot size 2) (Z.quot size 2)), h).
Proof. exact (negative_even_size_throws a b c size level h). Qed.

Lemma small_views_refused (a b c : View) (size level : Z) h :
  0 <= size -> Z.rem size 2 = 0 -> level <= 1 ->
  fits a size && fits b size && fits c size = false ->
  P_Strassen a b c size level h =
    (Throw (IllegalViewSize (Z.quot size 2) (Z.quot size 2)), h).
Proof.
  intros Hs He Hl Hfit. unfold P_Strassen. cbn [P_Strassen_fuel].
  replace (size =? 1) with false.
  2:{ symmetry; apply Z.eqb_neq; intros ->; discriminate. }
  rewrite He. change (0 =? 0) with true. cbn [negb].
  replace (level >? 1) with false by (symmetry; lia).
  cbv zeta.
  assert (Hn : size = Z.quot size 2 + Z.quot size 2).
  { apply even_halves. rewrite He. reflexivity. }
  set (n := Z.quot size 2) in *.
  repeat match goal with
  | |- bind (lift (View_makeView ?v ?r ?c ?nr ?nc)) ?k ?hh = _ =>
      let E := fresh "E" in let B := fresh "B" in
      destruct (bind_makeView_cases v r c nr nc k hh) as [[_ E]|[B E]];
      [exact E|rewrite E; clear E; cbv beta; apply bad_view_false in B]
  end.
  exfalso. unfold fits in Hfit.
  rewrite !andb_false_iff, !Z.leb_gt in Hfit. lia.
Qed.

(** X7: in the recursive case (size even and not negative,
    [level <= 1]), when one of [a], [b], [c] has fewer than [size] rows
    or columns the call throws [IllegalViewSize(size / 2, size / 2)] and
    leaves the store untouched: the operand is found too small by a
    [makeView], before anything is allocated or written. *)
Theorem P_Strassen_refuses_small_views (a b c : View) (size level : Z) h :
  0 <= size -> Z.rem size 2 = 0 -> level <= 1 ->
  fits a size && fits b size && fits c size = false ->
  P_Strassen a b c size level h =
    (Throw (IllegalViewSize (Z.quot size 2) (Z.quot size 2)), h).
Proof. exact (small_views_refused a b c size level h). Qed.

End Edges.

(** ** Products *)

Section Products.

Context {T : Type} {ST : Scalar T} {SR : ScalarRing T}.

Add Ring scalar_ring_products : scalar_ring.

Lemma Sigma_delta_r (n : nat) (f : Z -> T) (j : Z) :
  0 <= j ->
  Sigma n (fun k => smul (f k) (identity_matrix k j)) =
  if j <? Z.of_nat n then f j else szero.
Proof.
  intros Hj. induction n as [|n IH]; cbn [Sigma].
  - change (Z.of_nat 0) with 0. destruct (j <? 0) eqn:E; [lia|reflexivity].
  - rewrite IH. unfold identity_matrix. rewrite Nat2Z.inj_succ.
    destruct (Z.ltb_spec j (Z.of_nat n)), (Z.eqb_spec (Z.of_nat n) j),
             (Z.ltb_spec j (Z.succ (Z.of_nat n))); try lia;
      try subst j; ring.
Qed.

Lemma Sigma_delta_l (n : nat) (f : Z -> T) (i : Z) :
  0 <= i ->
  Sigma n (fun k => smul (identity_matrix i k) (f k)) =
  if i <? Z.of_nat n then f i else szero.
Proof.
  intros Hi. induction n as [|n IH]; cbn [Sigma].
  - change (Z.of_nat 0) with 0. destruct (i <? 0) eqn:E; [lia|reflexivity].
  - rewrite IH. unfold identity_matrix. rewrite Nat2Z.inj_succ.
    destruct (Z.ltb_spec i (Z.of_nat n)), (Z.eqb_spec i (Z.of_nat n)),
             (Z.ltb_spec i (Z.succ (Z.of_nat n))); try lia;
      try subst i; ring.
Qed.

Lemma mmul_identity_r (n : Z) (A B : mat) (i j : Z) :
  0 <= j < n ->
  (forall k, 0 <= k < n -> B k j = identity_matrix k j) ->
  mmul n A B i j = A i j.
Proof.
  intros Hj HB. unfold mmul.
  rewrite (Sigma_ext _ _ (fun k => smul (A i k) (identity_matrix k j))).
  - rewrite Sigma_delta_r by lia.
    rewrite Z2Nat.id by lia.
    replace (j <? n) with true by (symmetry; lia).
    reflexivity.
  - intros k Hk. rewrite HB by lia. reflexivity.
Qed.

Lemma mmul_identity_l (n : Z) (A B : mat) (i j : Z) :
  0 <= i < n ->
  (forall k, 0 <= k < n -> A i k = identity_matrix i k) ->
  mmul n A B i j = B i j.
Proof.
  intros Hi HA. unfold mmul.
  rewrite (Sigma_ext _ _ (fun k => smul (identity_matrix i k) (B k j))).
  - rewrite Sigma_delta_l by lia.
    rewrite Z2Nat.id by lia.
    replace (i <? n) with true by (symmetry; lia).
    reflexivity.
  - intros k Hk. rewrite HA by lia. reflexivity.
Qed.

Lemma Sigma_zero (n : nat) (f : Z -> T) :
  (forall k, 0 <= k < Z.of_nat n -> f k = szero) -> Sigma n f = szero.
Proof.
  induction n as [|n IH]; intros Hf; cbn [Sigma]; auto.
  rewrite IH, Hf by (try intros; try apply Hf; lia). ring.
Qed.

Lemma mmul_zero (n : Z) (A B : mat) (i j : Z) :
  (forall k, 0 <= k < n -> A i k = szero) \/
  (forall k, 0 <= k < n -> B k j = szero) ->
  mmul n A B i j = szero.
Proof.
  intros H. unfold mmul. apply Sigma_zero. intros k Hk.
  destruct H as [H|H]; rewrite H by lia; ring.
Qed.

Context {UT : Indeterminate T}.

Implicit Types (h : heap T) (v : View).

(** What both routines leave in [c], when the output window is off the
    input windows. *)
Lemma both_products (a b c : View) (size level : Z) h :
  0 <= size -> heap_wf h = true ->
  view_ok h a = true -> view_ok h b = true -> view_ok h c = true ->
  fits a size = true -> fits b size = true -> fits c size = true ->
  (delegates size level = true ->
   separate a c size = true /\ separate b c size = true) ->
  exists h1, P_Strassen a b c size level h = (Ok tt, h1) /\
    forall i j, 0 <= i < size -> 0 <= j < size ->
      View_get c i j h1 = (Ok (mmul size (vmat h a) (vmat h b) i j), h1).
Proof.
  intros Hs Hwf Ha Hb Hc Fa Fb Fc Hsep.
  destruct (P_Strassen_run a b c size level h Hs Hwf Ha Hb Hc Fa Fb Fc)
    as (h1 & E & Hc1 & Hsh).
  exists h1. split; [exact E|]. intros i j Hi Hj.
  rewrite <- (strassen_mmul (S (Z.to_nat (2 - level))) size level
                (vmat h a) (vmat h b) i j) by lia.
  apply (shows_get h1 c size); auto.
Qed.

(** X8: over a ring, at every level, [P_Strassen(a, b, c, size, level)]
    with [size >= 0] on views of extent at least [size] x [size] leaves
    in every [c(i, j)] the sum over [k] of [a(i, k) * b(k, j)] of the
    elements held before the call.  The window of [c] has to be off those
    of [a] and [b] only when the call is handed over to
    [Multiplication]: in the recursive case and for size 1 the output may
    be one of the inputs. *)
Theorem P_Strassen_computes_product (a b c : View) (size level : Z) h :
  0 <= size -> heap_wf h = true ->
  view_ok h a = true -> view_ok h b = true -> view_ok h c = true ->
  fits a size = true -> fits b size = true -> fits c size = true ->
  (delegates size level = true ->
   separate a c size = true /\ separate b c size = true) ->
  exists h1, P_Strassen a b c size level h = (Ok tt, h1) /\
    forall i j, 0 <= i < size -> 0 <= j < size ->
      View_get c i j h1 =
        (Ok (Sigma (Z.to_nat size)
               (fun k => smul (vmat h a i k) (vmat h b k j))), h1).
Proof. exact (both_products a b c size level h). Qed.

(** X9: multiplying by the identity.  Over a ring, when [b] shows the
    identity matrix both routines leave in [c] the elements of [a], and
    when [a] shows the identity they leave those of [b]. *)
Theorem identity_is_neutral (a b c : View) (size level : Z) h :
  0 <= size -> heap_wf h = true ->
  view_ok h a = true -> view_ok h b = true -> view_ok h c = true ->
  fits a size = true -> fits b size = true -> fits c size = true ->
  separate a c size = true -> separate b c size = true ->
  exists h1 h2,
    P_Strassen a b c size level h = (Ok tt, h1) /\
    Multiplication a b c size h = (Ok tt, h2) /\
    ((forall i j, 0 <= i < size -> 0 <= j < size ->
        vmat h b i j = identity_matrix i j) ->
     forall i j, 0 <= i < size -> 0 <= j < size ->
       View_get c i j h1 = (Ok (vmat h a i j), h1) /\
       View_get c i j h2 = (Ok (vmat h a i j), h2)) /\
    ((forall i j, 0 <= i < size -> 0 <= j < size ->
        vmat h a i j = identity_matrix i j) ->
     forall i j, 0 <= i < size -> 0 <= j < size ->
       View_get c i j h1 = (Ok (vmat h b i j), h1) /\
       View_get c i j h2 = (Ok (vmat h b i j), h2)).
Proof.
  intros Hs Hwf Ha Hb Hc Fa Fb Fc Sa Sb.
  destruct (both_products a b c size level h Hs Hwf Ha Hb Hc Fa Fb Fc)
    as (h1 & E1 & G1); [auto|].
  destruct (Multiplication_product a b c size h Hwf Ha Hb Hc Fa Fb Fc Sa Sb)
    as (h2 & E2 & G2).
  exists h1, h2. split; [exact E1|]. split; [exact E2|]. split.
  - intros HI i j Hi Hj. rewrite G1, G2 by lia.
    rewrite mmul_identity_r; auto; intros k Hk; apply HI; lia.
  - intros HI i j Hi Hj. rewrite G1, G2 by lia.
    rewrite mmul_identity_l; auto; intros k Hk; apply HI; lia.
Qed.

(** X10: multiplying by zero.  Over a ring, when all the elements of [a]
    or all those of [b] are zero, both routines leave zero in every
    element of the window of [c]. *)
Theorem zero_annihilates (a b c : View) (size level : Z) h :
  0 <= size -> heap_wf h = true ->
  view_ok h a = true -> view_ok h b = true -> view_ok h c = true ->
  fits a size = true -> fits b size = true -> fits c size = true ->
  separate a c size = true -> separate b c size = true ->
  (forall i j, 0 <= i < size -> 0 <= j < size -> vmat h a i j = szero) \/
  (forall i j, 0 <= i < size -> 0 <= j < size -> vmat h b i j = szero) ->
  exists h1 h2,
    P_Strassen a b c size level h = (Ok tt, h1) /\
    Multiplication a b c size h = (Ok tt, h2) /\
    forall i j, 0 <= i < size -> 0 <= j < size ->
      View_get c i j h1 = (Ok szero, h1) /\
      View_get c i j h2 = (Ok szero, h2).
Proof.
  intros Hs Hwf Ha Hb Hc Fa Fb Fc Sa Sb HZ.
  destruct (both_products a b c size level h Hs Hwf Ha Hb Hc Fa Fb Fc)
    as (h1 & E1 & G1); [auto|].
  destruct (Multiplication_product a b c size h Hwf Ha Hb Hc Fa Fb Fc Sa Sb)
    as (h2 & E2 & G2).
  exists h1, h2. split; [exact E1|]. split; [exact E2|].
  intros i j Hi Hj. rewrite G1, G2 by lia.
  rewrite mmul_zero; auto.
  destruct HZ as [HZ|HZ]; [left|right]; intros k Hk; apply HZ; lia.
Qed.

End Products.

Section Inputs.

Context {T : Type} {ST : Scalar T}.

(** X11: the output of [P_Strassen] is a function of what [a] and [b]
    show.  Two runs on stores in which [a] and [b] show the same
    elements leave the same elements in [c], whatever [c] and the rest of
    the two stores held before and whatever the uninitialised temporaries
    hold: nothing is read before it is written. *)
Theorem P_Strassen_output_from_inputs_only
    (U1 U2 : Indeterminate T) (a b c : View) (size level : Z)
    (h1 h2 : heap T) :
  0 <= size -> heap_wf h1 = true -> heap_wf h2 = true ->
  view_ok h1 a = true -> view_ok h1 b = true -> view_ok h1 c = true ->
  view_ok h2 a = true -> view_ok h2 b = true -> view_ok h2 c = true ->
  fits a size = true -> fits b size = true -> fits c size = true ->
  (delegates size level = true ->
   separate a c size = true /\ separate b c size = true) ->
  (forall i j, 0 <= i < size -> 0 <= j < size ->
     vmat h1 a i j = vmat h2 a i j /\ vmat h1 b i j = vmat h2 b i j) ->
  exists h1' h2',
    P_Strassen (UT:=U1) a b c size level h1 = (Ok tt, h1') /\
    P_Strassen (UT:=U2) a b c size level h2 = (Ok tt, h2') /\
    forall i j, 0 <= i < size -> 0 <= j < size ->
      exists t, View_get c i j h1' = (Ok t, h1') /\
                View_get c i j h2' = (Ok t, h2').
Proof.
  intros Hs W1 W2 A1 B1 C1 A2 B2 C2 Fa Fb Fc Hsep Heq.
  assert (Sa2 : shows h2 a size (vmat h1 a)).
  { intros i j Hi Hj.
    rewrite (shows_vmat h2 a size W2 A2 Fa i j Hi Hj).
    f_equal. symmetry. now apply Heq. }
  assert (Sb2 : shows h2 b size (vmat h1 b)).
  { intros i j Hi Hj.
    rewrite (shows_vmat h2 b size W2 B2 Fb i j Hi Hj).
    f_equal. symmetry. now apply Heq. }
  destruct (P_Strassen_fuel_run (UT:=U1) (S (Z.to_nat (2 - level)))
              a b c size level (vmat h1 a) (vmat h1 b) h1
              ltac:(lia) W1 A1 B1 C1 Fa Fb Fc Hs)
    as (h1' & E1 & S1); try now apply shows_vmat.
  destruct (P_Strassen_fuel_run (UT:=U2) (S (Z.to_nat (2 - level)))
              a b c size level (vmat h1 a) (vmat h1 b) h2
              ltac:(lia) W2 A2 B2 C2 Fa Fb Fc Hs Sa2 Sb2)
    as (h2' & E2 & S2).
  exists h1', h2'. split; [exact E1|]. split; [exact E2|].
  intros i j Hi Hj.
  exists (strassen (S (Z.to_nat (2 - level))) size level
            (vmat h1 a) (vmat h1 b) i j).
  split.
  - apply (shows_get h1' c size); auto.
    eapply frame_view_ok; [|exact C1].
    apply (frame_of_run _ _ _ _ _ (wo_P_Strassen (UT:=U1) a b c size level) E1).
  - apply (shows_get h2' c size); auto.
    eapply frame_view_ok; [|exact C2].
    apply (frame_of_run _ _ _ _ _ (wo_P_Strassen (UT:=U2) a b c size level) E2).
Qed.

End Inputs.

(** ** Copies of matrices *)

Lemma upd_firstn_skipn {A} (k : nat) : forall (x : A) (l l' : list A),
  nth_error l k = Some x -> (k < length l')%nat ->
  upd k x (firstn k l ++ skipn k l') = firstn (S k) l ++ skipn (S k) l'.
Proof.
  induction k as [|k IH]; intros x l l' Hx Hl.
  - destruct l as [|y l]; [discriminate|]. destruct l' as [|y' l']; [simpl in Hl; lia|].
    simpl in *. now injection Hx as ->.
  - destruct l as [|y l]; [discriminate|]. destruct l' as [|y' l']; [simpl in Hl; lia|].
    cbn [firstn skipn app upd]. cbn [nth_error length] in *.
    f_equal. apply IH; auto. lia.
Qed.

Lemma upd_same {A} (k : nat) : forall (x : A) (l : list A),
  nth_error l k = Some x -> upd k x l = l.
Proof.
  induction k as [|k IH]; intros x [|y l] Hx; try discriminate; simpl in *.
  - now injection Hx as ->.
  - f_equal. now apply IH.
Qed.

Lemma upd_upd {A} (k : nat) : forall (x y : A) (l : list A),
  upd k x (upd k y l) = upd k x l.
Proof.
  induction k as [|k IH]; intros x y [|z l]; simpl; auto. f_equal. apply IH.
Qed.

Lemma upd_last {A} (l : list A) (x y : A) :
  upd (length l) x (l ++ [y]) = l ++ [x].
Proof. induction l as [|z l IH]; simpl; auto. now rewrite IH. Qed.

Lemma nth_error_last {A} (l : list A) (y : A) :
  nth_error (l ++ [y]) (length l) = Some y.
Proof. rewrite nth_error_app2, Nat.sub_diag; auto. Qed.

Lemma firstn_skipn_full {A} (l l' : list A) :
  length l' = length l -> firstn (length l) l ++ skipn (length l) l' = l.
Proof.
  intros E. rewrite firstn_all, <- E, skipn_all. apply app_nil_r.
Qed.

Section CopyProperties.

Context {T : Type} {ST : Scalar T} {UT : Indeterminate T}.

Implicit Types (h : heap T).

(** Filling a buffer of its own from the buffer of another matrix. *)
Lemma copy_cells_run (this other : nat) (r c : Z) (d d' : list T)
      (mo : Matrix T) h :
  this <> other ->
  nth_error h other = Some mo -> length (data mo) = length d' ->
  nth_error h this = Some (mkMatrix r c d') ->
  copy_cells this other (Z.of_nat (length d')) h =
    (Ok tt, upd this (mkMatrix r c (data mo)) h).
Proof.
  intros Hne Ho Hl Ht. unfold copy_cells.
  destruct (For_run
    (fun i h1 => h1 = upd this (mkMatrix r c
                   (firstn (Z.to_nat i) (data mo) ++ skipn (Z.to_nat i) d')) h)
    (Z.of_nat (length d'))
    (fun i => x <- load (other, Z.to_nat i) ;; store (this, Z.to_nat i) x) h)
    as (h' & E & HI).
  - simpl. symmetry. now apply upd_same.
  - intros i h1 Hi ->.
    assert (Hk : (Z.to_nat i < length (data mo))%nat) by lia.
    destruct (nth_error (data mo) (Z.to_nat i)) as [x|] eqn:Ex.
    2:{ apply nth_error_None in Ex. lia. }
    assert (Hlt : (this < length h)%nat).
    { apply nth_error_Some. congruence. }
    eexists. split.
    + unfold bind, load, store. cbn [fst snd].
      rewrite nth_error_upd_ne, Ho, Ex by auto.
      rewrite nth_error_upd_eq by auto. cbn [data rows cols].
      rewrite length_app, length_firstn, length_skipn.
      replace (_ <? _)%nat with true by (symmetry; apply Nat.ltb_lt; lia).
      reflexivity.
    + rewrite upd_upd. do 2 f_equal.
      replace (Z.to_nat (i + 1)) with (S (Z.to_nat i)) by lia.
      apply upd_firstn_skipn; auto. lia.
  - rewrite E. f_equal. rewrite HI.
    rewrite Z.max_r, Nat2Z.id by lia. rewrite <- Hl.
    rewrite firstn_skipn_full; auto.
Qed.

(** X12: the copy constructor makes a deep copy.  The copy is a new
    object with the sizes and the elements of the original, the store is
    otherwise unchanged, and a later write to the copy leaves the
    original and every other object as they were. *)
Theorem Matrix_copy_is_deep (other : nat) (mo : Matrix T) h :
  heap_wf h = true -> nth_error h other = Some mo ->
  0 <= rows mo * cols mo ->
  Matrix_copy other h = (Ok (length h), h ++ [mo]) /\
  forall (i j : Z) (t : T) h',
    Matrix_set (length h) i j t (h ++ [mo]) = (Ok tt, h') ->
    nth_error h' other = Some mo /\ firstn (length h) h' = h.
Proof.
  intros Hwf Ho Hn.
  assert (Hlt : (other < length h)%nat).
  { apply nth_error_Some. congruence. }
  pose proof (heap_wf_nth h other mo Hwf Ho) as Hm.
  unfold matrix_wf in Hm. apply Nat.eqb_eq in Hm.
  split.
  - unfold Matrix_copy, bind at 1, reading. rewrite Ho.
    unfold bind at 1, Matrix_new.
    replace (rows mo * cols mo <? 0) with false by (symmetry; lia).
    set (d' := map (indeterminate (length h))
                   (seq 0 (Z.to_nat (rows mo * cols mo)))).
    assert (Hd' : length d' = Z.to_nat (rows mo * cols mo)).
    { unfold d'. now rewrite length_map, length_seq. }
    replace (copy_cells (T:=T) (length h) other (rows mo * cols mo))
      with (copy_cells (T:=T) (length h) other (Z.of_nat (length d')))
      by (f_equal; lia).
    unfold bind.
    rewrite (copy_cells_run (length h) other (rows mo) (cols mo) (data mo) d' mo).
    + unfold ret. f_equal. rewrite upd_last. now destruct mo.
    + lia.
    + now rewrite nth_error_app1.
    + lia.
    + apply nth_error_last.
  - intros i j t h' E. unfold Matrix_set, bind, reading, Matrix_at in E.
    rewrite nth_error_last in E.
    destruct (bad_index i j (rows mo) (cols mo)); [discriminate|].
    unfold store in E. cbn [fst snd] in E. rewrite nth_error_last in E.
    destruct (_ <? _)%nat; [|discriminate].
    injection E as <-. rewrite upd_last. split.
    + now rewrite nth_error_app1.
    + apply firstn_app_exact.
Qed.

(** X13: [operator=] of [Matrix].  Between two different objects it
    makes the target an exact copy of the source and changes nothing
    else.  Assigning a matrix to itself is not guarded against: the
    buffer is replaced before it is read, so the matrix keeps its sizes
    and loses its elements, which become whatever the new buffer held. *)
Theorem Matrix_assign_copies (junk : nat -> T) (this other : nat)
        (mt mo : Matrix T) h :
  heap_wf h = true ->
  nth_error h this = Some mt -> nth_error h other = Some mo ->
  0 <= rows mo * cols mo ->
  (this <> other ->
   Matrix_assign junk this other h = (Ok tt, upd this mo h)) /\
  (this = other ->
   Matrix_assign junk this other h =
     (Ok tt, upd this (mkMatrix (rows mo) (cols mo)
                         (map junk (seq 0 (Z.to_nat (rows mo * cols mo))))) h)).
Proof.
  intros Hwf Ht Ho Hn.
  assert (Hlt : (this < length h)%nat).
  { apply nth_error_Some. congruence. }
  pose proof (heap_wf_nth h other mo Hwf Ho) as Hm.
  unfold matrix_wf in Hm. apply Nat.eqb_eq in Hm.
  set (d' := map junk (seq 0 (Z.to_nat (rows mo * cols mo)))).
  assert (Hd' : length d' = Z.to_nat (rows mo * cols mo)).
  { unfold d'. now rewrite length_map, length_seq. }
  assert (Hstart :
    Matrix_assign junk this other h =
    copy_cells this other (Z.of_nat (length d'))
      (upd this (mkMatrix (rows mo) (cols mo) d') h)).
  { unfold Matrix_assign, bind at 1, reading. rewrite Ht, Ho.
    unfold bind at 1.
    replace (rows mo * cols mo <? 0) with false by (symmetry; lia).
    unfold bind at 1, reading. rewrite nth_error_upd_eq by auto.
    cbn [rows cols]. fold d'. f_equal. lia. }
  rewrite Hstart. clear Hstart.
  split.
  - intros Hne.
    rewrite (copy_cells_run this other (rows mo) (cols mo) (data mo) d' mo);
      auto.
    + rewrite upd_upd. now destruct mo.
    + now rewrite nth_error_upd_ne.
    + lia.
    + now apply nth_error_upd_eq.
  - intros <-. unfold copy_cells.
    set (h1 := upd this (mkMatrix (rows mo) (cols mo) d') h).
    destruct (For_run (fun _ h2 => h2 = h1) (Z.of_nat (length d'))
      (fun i => x <- load (this, Z.to_nat i) ;; store (this, Z.to_nat i) x) h1)
      as (h' & E & ->); auto.
    intros i h2 Hi ->. exists h1. split; auto.
    destruct (nth_error d' (Z.to_nat i)) as [x|] eqn:Ex.
    2:{ apply nth_error_None in Ex. lia. }
    unfold bind, load, store, h1. cbn [fst snd].
    rewrite nth_error_upd_eq by auto. cbn [data rows cols]. rewrite Ex.
    rewrite nth_error_upd_eq by auto. cbn [data rows cols].
    replace (_ <? _)%nat with true by (symmetry; apply Nat.ltb_lt; lia).
    rewrite upd_upd, (upd_same _ x d') by auto. reflexivity.
Qed.

End CopyProperties.

(** ** The driver *)

(** Sequencing and loops over any state. *)

Lemma bind_ok {St A B} (m : SE St A) (k : A -> SE St B) (s s1 : St) (x : A) :
  m s = (Ok x, s1) -> bind m k s = k x s1.
Proof. intros E. unfold bind. now rewrite E. Qed.

Lemma bind_throw {St A B} (m : SE St A) (k : A -> SE St B) (s s1 : St) (e : exn) :
  m s = (Throw e, s1) -> bind m k s = (Throw e, s1).
Proof. intros E. unfold bind. now rewrite E. Qed.

Lemma loop_from_run {St} (I : Z -> St -> Prop) (cnt : nat) (i0 : Z)
      (body : Z -> SE St unit) (s : St) :
  I i0 s ->
  (forall i s1, i0 <= i < i0 + Z.of_nat cnt -> I i s1 ->
     exists s2, body i s1 = (Ok tt, s2) /\ I (i + 1) s2) ->
  exists s', loop_from cnt i0 body s = (Ok tt, s') /\ I (i0 + Z.of_nat cnt) s'.
Proof.
  revert i0 s. induction cnt as [|cnt IH]; intros i0 s H0 Hstep.
  - exists s. split; [reflexivity|]. now rewrite Z.add_0_r.
  - destruct (Hstep i0 s ltac:(lia) H0) as (s1 & E1 & H1).
    destruct (IH (i0 + 1) s1 H1) as (s' & E' & H').
    { intros i s2 Hi. apply Hstep. lia. }
    exists s'. split.
    + cbn [loop_from]. now rewrite (bind_ok _ _ _ _ _ E1).
    + replace (i0 + Z.of_nat (S cnt)) with (i0 + 1 + Z.of_nat cnt) by lia.
      exact H'.
Qed.

Lemma loop_run {St} (I : Z -> St -> Prop) (n : Z) (body : Z -> SE St unit) (s : St) :
  0 <= n -> I 0 s ->
  (forall i s1, 0 <= i < n -> I i s1 ->
     exists s2, body i s1 = (Ok tt, s2) /\ I (i + 1) s2) ->
  exists s', loop n body s = (Ok tt, s') /\ I n s'.
Proof.
  intros Hn H0 Hstep.
  destruct (loop_from_run I (Z.to_nat n) 0 body s H0) as (s' & E & H').
  - intros i s1 Hi. apply Hstep. lia.
  - exists s'. split; [exact E|]. now replace n with (0 + Z.of_nat (Z.to_nat n)) by lia.
Qed.

Lemma loop_nothing {St} (n : Z) (body : Z -> SE St unit) (s : St) :
  n <= 0 -> loop n body s = (Ok tt, s).
Proof.
  intros Hn. unfold loop. now replace (Z.to_nat n) with 0%nat by lia.
Qed.

(** Ranges and texts. *)

Lemma zrange_succ (n : Z) : 0 <= n -> zrange (n + 1) = zrange n ++ [n].
Proof.
  intros Hn. unfold zrange.
  replace (Z.to_nat (n + 1)) with (S (Z.to_nat n)) by lia.
  rewrite seq_S, map_app. cbn [map Nat.add]. now rewrite Z2Nat.id.
Qed.

Lemma zrange_nothing (n : Z) : n <= 0 -> zrange n = [].
Proof. intros Hn. unfold zrange. now replace (Z.to_nat n) with 0%nat by lia. Qed.

Lemma zrange_In (n k : Z) : In k (zrange n) -> 0 <= k < n.
Proof.
  unfold zrange. rewrite in_map_iff. intros (x & <- & Hx).
  apply in_seq in Hx. lia.
Qed.

Lemma flat_map_ext_In {A B} (f g : A -> list B) (l : list A) :
  (forall x, In x l -> f x = g x) -> flat_map f l = flat_map g l.
Proof.
  induction l as [|y l IH]; intros H; cbn [flat_map]; auto.
  rewrite H, IH; auto using in_eq, in_cons.
Qed.

Lemma matrix_text_ext (X Y : Z -> Z -> Z) (N : Z) :
  (forall i j, 0 <= i < N -> 0 <= j < N -> X i j = Y i j) ->
  matrix_text X N = matrix_text Y N.
Proof.
  intros H. unfold matrix_text. apply flat_map_ext_In. intros i Hi.
  apply zrange_In in Hi. unfold row_text. f_equal.
  apply flat_map_ext_In. intros j Hj. apply zrange_In in Hj.
  now rewrite H.
Qed.

Lemma matrix_text_nothing (X : Z -> Z -> Z) (N : Z) :
  N <= 0 -> matrix_text X N = [].
Proof. intros HN. unfold matrix_text. now rewrite zrange_nothing. Qed.

(** Lists built cell by cell. *)

Lemma nth_error_map_seq {A} (f : nat -> A) (n k : nat) :
  (k < n)%nat -> nth_error (map f (seq 0 n)) k = Some (f k).
Proof.
  intros Hk. rewrite nth_error_map, nth_error_seq.
  apply Nat.ltb_lt in Hk. now rewrite Hk.
Qed.

Lemma index_div (i j N : Z) :
  0 <= i -> 0 <= j < N -> (i * N + j) / N = i /\ (i * N + j) mod N = j.
Proof.
  intros Hi Hj. split.
  - rewrite Z.div_add_l, Z.div_small; lia.
  - rewrite Z.add_comm, Z.mod_add, Z.mod_small; lia.
Qed.

(** Arithmetic of [int] and of the integers. *)

Lemma Sigma_wrap (n : nat) (f g : Z -> Z) :
  Int32.val (Sigma (T:=Int32.int) n
               (fun k => smul (Int32.of_Z (f k)) (Int32.of_Z (g k)))) =
  Int32.wrap (Sigma (T:=Z) n (fun k => f k * g k)).
Proof.
  induction n as [|n IH]; cbn [Sigma]; [reflexivity|].
  set (s32 := Sigma (T:=Int32.int) n _) in *.
  set (sZ := Sigma (T:=Z) n _) in *.
  cbn [sadd smul Scalar_int32 Scalar_Z]. unfold Int32.add, Int32.mul.
  cbn [Int32.val Int32.of_Z]. rewrite IH.
  rewrite Int32.wrap_mul_l, Int32.wrap_mul_r.
  now rewrite Int32.wrap_add_l, Int32.wrap_add_r.
Qed.

Lemma mmul_wrap (N : Z) (A B : Z -> Z -> Z) (i j : Z) :
  Int32.val (mmul (T:=Int32.int) N (fun i j => Int32.of_Z (A i j))
               (fun i j => Int32.of_Z (B i j)) i j) =
  wrapped_product N A B i j.
Proof. unfold mmul, wrapped_product. apply Sigma_wrap. Qed.

Lemma Sigma_bound (n : nat) (f : Z -> Z) (b : Z) :
  (forall k, 0 <= k < Z.of_nat n -> - b <= f k <= b) ->
  - (Z.of_nat n * b) <= Sigma (T:=Z) n f <= Z.of_nat n * b.
Proof.
  induction n as [|n IH]; intros Hf; cbn [Sigma].
  - cbn. lia.
  - cbn [sadd Scalar_Z].
    assert (H1 := IH ltac:(intros k Hk; apply Hf; lia)).
    assert (H2 := Hf (Z.of_nat n) ltac:(lia)). lia.
Qed.

Lemma entry_range (r : Z) : 0 <= r -> -100 <= entry r <= 100.
Proof.
  intros Hr. unfold entry.
  pose proof (Z.rem_bound_pos r 201 Hr ltac:(lia)). lia.
Qed.

Lemma entry_int (r : Z) : Int32.wrap (entry r) = entry r.
Proof.
  apply Int32.wrap_small. unfold entry, Int32.in_range, Int32.half.
  assert (H : -201 < Z.rem r 201 < 201).
  { pose proof (Z.rem_bound_abs r 201 ltac:(lia)) as Hb.
    change (Z.abs 201) with 201 in Hb. lia. }
  change (2 ^ 31) with 2147483648. lia.
Qed.

Section MatrixRuns.

Context {T : Type} {ST : Scalar T} {UT : Indeterminate T}.

Implicit Types (h : heap T).

Lemma Matrix_new_run (n : Z) h :
  Matrix_new n n h = (Ok (length h), h ++ [fresh_matrix (length h) n]).
Proof.
  unfold Matrix_new. destruct (Z.ltb_spec (n * n) 0); [nia|reflexivity].
Qed.

Lemma Matrix_get_run (m : nat) (i j : Z) (mx : Matrix T) (t : T) h :
  nth_error h m = Some mx -> bad_index i j (rows mx) (cols mx) = false ->
  hval h m i j = Some t -> Matrix_get m i j h = (Ok t, h).
Proof.
  intros Hm Hb Hv. unfold Matrix_get, bind, reading, Matrix_at.
  rewrite Hm, Hb. now rewrite (hval_load h m i j mx Hm Hb), Hv.
Qed.

Lemma Matrix_set_run (m : nat) (i j : Z) (mx : Matrix T) (t : T) h :
  nth_error h m = Some mx -> bad_index i j (rows mx) (cols mx) = false ->
  (Z.to_nat (i * cols mx + j) < length (data mx))%nat ->
  Matrix_set m i j t h =
    (Ok tt, upd m (mkMatrix (rows mx) (cols mx)
                     (upd (Z.to_nat (i * cols mx + j)) t (data mx))) h).
Proof.
  intros Hm Hb Hl. unfold Matrix_set, bind, reading, Matrix_at, store.
  rewrite Hm, Hb. cbn [fst snd]. rewrite Hm.
  apply Nat.ltb_lt in Hl. now rewrite Hl.
Qed.

Lemma full_view_get (m : nat) (N i j : Z) h :
  0 <= i < N -> 0 <= j < N ->
  View_get (full_view m N) i j h = Matrix_get m i j h.
Proof.
  intros Hi Hj. unfold View_get, Matrix_get, full_view.
  cbn [View_at Viewable_at].
  replace (bad_index i j N N) with false
    by (symmetry; rewrite bad_index_false; lia).
  now rewrite !Z.add_0_r.
Qed.

Lemma Matrix_makeView_run (m : nat) (N : Z) (mx : Matrix T) h :
  nth_error h m = Some mx -> rows mx = N -> cols mx = N ->
  Matrix_makeView m 0 0 N N h = (Ok (full_view m N), h).
Proof.
  intros Hm Hr Hc. unfold Matrix_makeView, reading. rewrite Hm, Hr, Hc.
  replace (bad_view 0 0 N N N N) with false; auto.
  symmetry. rewrite bad_view_false. lia.
Qed.

End MatrixRuns.

Section DriverRuns.

Context {UT : Indeterminate Int32.int}.

Variable rand : nat -> Z.

Implicit Types (h : heap Int32.int) (w : world) (o : list out).

Lemma on_memory_run {A} (m : M Int32.int A) (r : result A) h h' (rc : nat) o :
  m h = (r, h') -> on_memory m (mkWorld h rc o) = (r, mkWorld h' rc o).
Proof. unfold on_memory. cbn [memory]. now intros ->. Qed.

Lemma bind_cout {B} (x : out) (k : unit -> SE world B) h (rc : nat) o :
  bind (cout x) k (mkWorld h rc o) = k tt (mkWorld h rc (o ++ [x])).
Proof. reflexivity. Qed.

Lemma bind_on_memory {A B} (m : M Int32.int A) (k : A -> SE world B)
      (x : A) h h' (rc : nat) o :
  m h = (Ok x, h') ->
  bind (on_memory m) k (mkWorld h rc o) = k x (mkWorld h' rc o).
Proof. intros E. apply bind_ok. now apply on_memory_run. Qed.

Lemma print_matrix_run (m : nat) (N : Z) (X : Z -> Z -> Int32.int)
      h (rc : nat) o :
  0 <= N ->
  (forall i j, 0 <= i < N -> 0 <= j < N ->
     Matrix_get m i j h = (Ok (X i j), h)) ->
  print_matrix m N (mkWorld h rc o) =
    (Ok tt, mkWorld h rc (o ++ matrix_text (fun i j => Int32.val (X i j)) N)).
Proof.
  intros HN HX. unfold print_matrix.
  set (Xz := fun i j => Int32.val (X i j)).
  match goal with
  | |- loop N ?body ?w0 = _ =>
      destruct (loop_run
        (fun i w => w = mkWorld h rc (o ++ flat_map (row_text Xz N) (zrange i)))
        N body w0 HN) as (w' & E & ->)
  end.
  - rewrite (zrange_nothing 0) by lia. cbn [flat_map]. now rewrite app_nil_r.
  - intros i w1 Hi ->.
    match goal with
    | |- exists s2, bind (loop N ?body) _ ?w0 = _ /\ _ =>
        destruct (loop_run
          (fun j w => w = mkWorld h rc
             ((o ++ flat_map (row_text Xz N) (zrange i)) ++
              flat_map (fun j => [Number (Xz i j); Text " "]) (zrange j)))
          N body w0 HN) as (w2 & E2 & ->)
    end.
    + rewrite (zrange_nothing 0) by lia. cbn [flat_map]. now rewrite app_nil_r.
    + intros j w Hj ->. eexists. split.
      * rewrite (bind_on_memory _ _ _ _ _ _ _ (HX i j Hi Hj)).
        rewrite bind_cout. unfold cout. cbn [memory rand_calls printed].
        reflexivity.
      * f_equal. rewrite zrange_succ, flat_map_app by lia.
        cbn [flat_map]. rewrite app_nil_r, <- !app_assoc. reflexivity.
    + eexists. split.
      * rewrite (bind_ok _ _ _ _ _ E2). unfold cout.
        cbn [memory rand_calls printed]. reflexivity.
      * f_equal. rewrite zrange_succ, flat_map_app by lia.
        cbn [flat_map]. unfold row_text at 3.
        rewrite app_nil_r, <- !app_assoc. reflexivity.
  - rewrite E. reflexivity.
Qed.

(** The loop nest that fills [A] and [B]. *)
Lemma fill_run (N : Z) (Cm : Matrix Int32.int) o :
  0 <= N ->
  loop N (fun i =>
    loop N (fun j =>
      r <- rand_call rand ;;
      on_memory (Matrix_set 0 i j (Int32.of_Z (Z.rem r 201 - 100))) ;;;
      r <- rand_call rand ;;
      on_memory (Matrix_set 1 i j (Int32.of_Z (Z.rem r 201 - 100)))))
    (mkWorld [fresh_matrix 0 N; fresh_matrix 1 N; Cm] 0 o) =
  (Ok tt,
   mkWorld [matrix_of N (fun i j => Int32.of_Z (gen_A rand N i j));
            matrix_of N (fun i j => Int32.of_Z (gen_B rand N i j)); Cm]
           (2 * Z.to_nat (N * N)) o).
Proof.
  intros HN.
  set (a := fun i j => Int32.of_Z (gen_A rand N i j)).
  set (b := fun i j => Int32.of_Z (gen_B rand N i j)).
  set (dA := data (matrix_of N a)). set (dB := data (matrix_of N b)).
  set (jA := data (fresh_matrix (T:=Int32.int) 0 N)).
  set (jB := data (fresh_matrix (T:=Int32.int) 1 N)).
  assert (LdA : length dA = Z.to_nat (N * N))
    by (unfold dA, matrix_of; cbn [data]; now rewrite length_map, length_seq).
  assert (LdB : length dB = Z.to_nat (N * N))
    by (unfold dB, matrix_of; cbn [data]; now rewrite length_map, length_seq).
  assert (LjA : length jA = Z.to_nat (N * N))
    by (unfold jA, fresh_matrix; cbn [data]; now rewrite length_map, length_seq).
  assert (LjB : length jB = Z.to_nat (N * N))
    by (unfold jB, fresh_matrix; cbn [data]; now rewrite length_map, length_seq).
  set (filled := fun k : nat =>
    mkWorld [mkMatrix N N (firstn k dA ++ skipn k jA);
             mkMatrix N N (firstn k dB ++ skipn k jB); Cm] (2 * k) o).
  match goal with
  | |- loop N ?body ?w0 = _ =>
      destruct (loop_run (fun i w => w = filled (Z.to_nat (i * N)))
                         N body w0 HN) as (w' & E & ->)
  end.
  - reflexivity.
  - intros i w1 Hi ->.
    match goal with
    | |- exists s2, loop N ?body ?w0 = _ /\ _ =>
        destruct (loop_run (fun j w => w = filled (Z.to_nat (i * N + j)))
                           N body w0 HN) as (w2 & E2 & ->)
    end.
    + now rewrite Z.add_0_r.
    + intros j w Hj ->. eexists. split; [|reflexivity].
      set (k := Z.to_nat (i * N + j)).
      assert (Hk : (k < Z.to_nat (N * N))%nat) by (unfold k; nia).
      assert (Ek : Z.of_nat k = i * N + j) by (unfold k; nia).
      destruct (index_div i j N ltac:(lia) Hj) as [Ei Ej].
      assert (HA : nth_error dA k = Some (a i j)).
      { unfold dA, matrix_of. cbn [data]. rewrite nth_error_map_seq by lia.
        now rewrite Ek, Ei, Ej. }
      assert (HB : nth_error dB k = Some (b i j)).
      { unfold dB, matrix_of. cbn [data]. rewrite nth_error_map_seq by lia.
        now rewrite Ek, Ei, Ej. }
      assert (Hb : bad_index i j N N = false)
        by (rewrite bad_index_false; lia).
      unfold filled at 1. unfold bind at 1, rand_call at 1.
      cbn [memory rand_calls printed].
      erewrite bind_on_memory.
      2:{ apply (Matrix_set_run 0 i j
            (mkMatrix N N (firstn k dA ++ skipn k jA))); auto.
          cbn [data cols]. fold k.
          rewrite length_app, length_firstn, length_skipn. lia. }
      cbn [memory rand_calls printed rows cols data upd].
      unfold bind at 1, rand_call at 1. cbn [memory rand_calls printed].
      erewrite on_memory_run.
      2:{ apply (Matrix_set_run 1 i j
            (mkMatrix N N (firstn k dB ++ skipn k jB))); auto.
          cbn [data cols]. fold k.
          rewrite length_app, length_firstn, length_skipn. lia. }
      cbn [memory rand_calls printed rows cols data upd]. fold k.
      replace (Z.to_nat (i * N + (j + 1))) with (S k) by (unfold k; lia).
      unfold filled.
      assert (VA : Int32.of_Z (Z.rem (rand (2 * k)) 201 - 100) = a i j).
      { unfold a, gen_A, entry.
        now replace (Z.to_nat (2 * (i * N + j))) with (2 * k)%nat by lia. }
      assert (VB : Int32.of_Z (Z.rem (rand (S (2 * k))) 201 - 100) = b i j).
      { unfold b, gen_B, entry.
        now replace (Z.to_nat (2 * (i * N + j) + 1)) with (S (2 * k)) by lia. }
      rewrite VA, VB.
      rewrite (upd_firstn_skipn k (a i j)) by (auto; lia).
      rewrite (upd_firstn_skipn k (b i j)) by (auto; lia).
      do 2 f_equal. lia.
    + exists (filled (Z.to_nat (i * N + N))). split; [exact E2|].
      f_equal. lia.
  - rewrite E. f_equal. unfold filled.
    rewrite <- LdA at 1 2. rewrite firstn_skipn_full by lia.
    rewrite <- LdB at 1 2. rewrite firstn_skipn_full by lia.
    reflexivity.
Qed.

End DriverRuns.

Section MainProperties.

Context {UT : Indeterminate Int32.int}.

Variable rand : nat -> Z.

Lemma main_run (N : Z) :
  0 <= N ->
  exists h,
    main rand N world0 =
      (Ok tt,
       mkWorld h (2 * Z.to_nat (N * N))
         (transcript N (gen_A rand N) (gen_B rand N)
            (wrapped_product N (gen_A rand N) (gen_B rand N)))).
Proof.
  intros HN. unfold main, world0.
  rewrite bind_cout. cbn [app].
  rewrite (bind_on_memory _ _ _ _ _ _ _ (Matrix_new_run N _)). cbn [length app].
  rewrite (bind_on_memory _ _ _ _ _ _ _ (Matrix_new_run N _)). cbn [length app].
  rewrite (bind_on_memory _ _ _ _ _ _ _ (Matrix_new_run N _)). cbn [length app].
  rewrite (bind_ok _ _ _ _ _ (fill_run rand N _ _ HN)).
  set (a := fun i j => Int32.of_Z (gen_A rand N i j)).
  set (b := fun i j => Int32.of_Z (gen_B rand N i j)).
  set (h1 := [matrix_of N a; matrix_of N b; fresh_matrix 2 N]).
  set (va := full_view 0 N). set (vb := full_view 1 N). set (vc := full_view 2 N).
  assert (Hwf : heap_wf h1 = true).
  { unfold h1, heap_wf. cbn [forallb].
    now rewrite !matrix_of_wf, fresh_matrix_wf. }
  assert (Ha : view_ok h1 va = true)
    by now apply (full_view_ok h1 0 N (matrix_of N a)).
  assert (Hb : view_ok h1 vb = true)
    by now apply (full_view_ok h1 1 N (matrix_of N b)).
  assert (Hc : view_ok h1 vc = true)
    by now apply (full_view_ok h1 2 N (fresh_matrix 2 N)).
  assert (Sa : shows h1 va N a) by now apply matrix_of_shows.
  assert (Sb : shows h1 vb N b) by now apply matrix_of_shows.
  assert (Fa : fits va N = true) by apply fits_mk.
  assert (Fb : fits vb N = true) by apply fits_mk.
  assert (Fc : fits vc N = true) by apply fits_mk.
  assert (Rac : root va <> root vc) by (cbn; lia).
  assert (Rbc : root vb <> root vc) by (cbn; lia).
  assert (GA : forall i j, 0 <= i < N -> 0 <= j < N ->
                 Matrix_get 0 i j h1 = (Ok (a i j), h1)).
  { intros i j Hi Hj. rewrite <- (full_view_get 0 N i j h1 Hi Hj).
    now apply (shows_get h1 va N a). }
  assert (GB : forall i j, 0 <= i < N -> 0 <= j < N ->
                 Matrix_get 1 i j h1 = (Ok (b i j), h1)).
  { intros i j Hi Hj. rewrite <- (full_view_get 1 N i j h1 Hi Hj).
    now apply (shows_get h1 vb N b). }
  (* the two input matrices are printed *)
  rewrite bind_cout.
  rewrite (bind_ok _ _ _ _ _ (print_matrix_run 0 N a h1 _ _ HN GA)).
  rewrite bind_cout.
  rewrite (bind_ok _ _ _ _ _ (print_matrix_run 1 N b h1 _ _ HN GB)).
  rewrite bind_cout.
  rewrite (bind_on_memory _ _ _ _ _ _ _
             (Matrix_makeView_run 0 N _ h1 eq_refl eq_refl eq_refl)).
  rewrite (bind_on_memory _ _ _ _ _ _ _
             (Matrix_makeView_run 1 N _ h1 eq_refl eq_refl eq_refl)).
  rewrite (bind_on_memory _ _ _ _ _ _ _
             (Matrix_makeView_run 2 N _ h1 eq_refl eq_refl eq_refl)).
  fold va vb vc.
  (* Strassen *)
  destruct (P_Strassen_fuel_run (S (Z.to_nat (2 - 0))) va vb vc N 0 a b h1
              ltac:(lia) Hwf Ha Hb Hc Fa Fb Fc HN Sa Sb)
    as (h2 & E2 & S2).
  change (P_Strassen_fuel (S (Z.to_nat (2 - 0))) va vb vc N 0)
    with (P_Strassen va vb vc N 0) in E2.
  specialize (S2 ltac:(intros _; split; now apply separate_roots)).
  pose proof (frame_of_run _ _ _ _ _ (wo_P_Strassen va vb vc N 0) E2) as Fr2.
  pose proof (frame_wf _ _ _ Fr2 Hwf) as Hwf2.
  pose proof (frame_view_ok _ _ _ _ Fr2 Ha) as Ha2.
  pose proof (frame_view_ok _ _ _ _ Fr2 Hb) as Hb2.
  pose proof (frame_view_ok _ _ _ _ Fr2 Hc) as Hc2.
  pose proof (shows_frame _ _ _ _ _ _ _ Sa Fr2 Rac) as Sa2.
  pose proof (shows_frame _ _ _ _ _ _ _ Sb Fr2 Rbc) as Sb2.
  set (c2 := strassen (S (Z.to_nat (2 - 0))) N 0 a b) in *.
  assert (GC2 : forall i j, 0 <= i < N -> 0 <= j < N ->
                 Matrix_get 2 i j h2 = (Ok (c2 i j), h2)).
  { intros i j Hi Hj. rewrite <- (full_view_get 2 N i j h2 Hi Hj).
    now apply (shows_get h2 vc N c2). }
  rewrite (bind_on_memory _ _ _ _ _ _ _ E2).
  rewrite (bind_ok _ _ _ _ _ (print_matrix_run 2 N c2 h2 _ _ HN GC2)).
  do 7 rewrite bind_cout.
  (* the triple loop *)
  destruct (Multiplication_run va vb vc N a b h2 Hwf2 Ha2 Hb2 Hc2 Fa Fb Fc
              Sa2 Sb2) as (h3 & E3 & S3).
  specialize (S3 (separate_roots _ _ _ Rac) (separate_roots _ _ _ Rbc)).
  pose proof (frame_of_run _ _ _ _ _ (wo_Multiplication va vb vc N) E3) as Fr3.
  pose proof (frame_view_ok _ _ _ _ Fr3 Hc2) as Hc3.
  assert (GC3 : forall i j, 0 <= i < N -> 0 <= j < N ->
                 Matrix_get 2 i j h3 = (Ok (mmul N a b i j), h3)).
  { intros i j Hi Hj. rewrite <- (full_view_get 2 N i j h3 Hi Hj).
    now apply (shows_get h3 vc N (mmul N a b)). }
  rewrite (bind_on_memory _ _ _ _ _ _ _ E3).
  rewrite (bind_ok _ _ _ _ _ (print_matrix_run 2 N (mmul N a b) h3 _ _ HN GC3)).
  do 5 rewrite bind_cout. unfold cout. cbn [memory rand_calls printed].
  exists h3. do 2 f_equal.
  (* what was printed *)
  rewrite (matrix_text_ext (fun i j => Int32.val (a i j)) (gen_A rand N)).
  2:{ intros i j _ _. unfold a. cbn [Int32.val Int32.of_Z]. apply entry_int. }
  rewrite (matrix_text_ext (fun i j => Int32.val (b i j)) (gen_B rand N)).
  2:{ intros i j _ _. unfold b. cbn [Int32.val Int32.of_Z]. apply entry_int. }
  rewrite (matrix_text_ext (fun i j => Int32.val (c2 i j))
             (wrapped_product N (gen_A rand N) (gen_B rand N))).
  2:{ intros i j Hi Hj. unfold c2.
      rewrite strassen_mmul by lia. apply mmul_wrap. }
  rewrite (matrix_text_ext (fun i j => Int32.val (mmul N a b i j))
             (wrapped_product N (gen_A rand N) (gen_B rand N))).
  2:{ intros i j Hi Hj. apply mmul_wrap. }
  unfold transcript. rewrite <- !app_assoc. reflexivity.
Qed.

End MainProperties.

Section MainTheorems.

Context {UT : Indeterminate Int32.int}.

Variable rand : nat -> Z.

Lemma product_fits (N : Z) (A B : Z -> Z -> Z) (i j : Z) :
  0 <= N <= 214748 ->
  (forall k, 0 <= k < N -> -100 <= A i k <= 100 /\ -100 <= B k j <= 100) ->
  wrapped_product N A B i j = mmul (T:=Z) N A B i j.
Proof.
  intros HN Hb. unfold wrapped_product. apply Int32.wrap_small.
  unfold mmul.
  pose proof (Sigma_bound (Z.to_nat N)
                (fun k => smul (A i k) (B k j)) 10000) as HS.
  rewrite Z2Nat.id in HS by lia.
  assert (H : - (N * 10000) <=
              Sigma (Z.to_nat N) (fun k => smul (A i k) (B k j)) <= N * 10000).
  { apply HS. intros k Hk. destruct (Hb k Hk) as [Ha Hb'].
    cbn [smul Scalar_Z]. nia. }
  unfold Int32.in_range, Int32.half. change (2 ^ 31) with 2147483648. lia.
Qed.

(** The sizes [N] for which the [N * N] of [Matrix<int> A(N, N)] is an
    [int]. *)
Lemma square_is_int (N : Z) :
  Int32.in_range (N * N) = true <-> -46340 <= N <= 46340.
Proof.
  unfold Int32.in_range, Int32.half. change (2 ^ 31) with 2147483648.
  rewrite andb_true_iff, Z.leb_le, Z.ltb_lt. split; intros H; nia.
Qed.

(** X14: [main] with [0 <= N <= 46340] (the sizes that are not negative
    and whose square is an [int], so that the three matrices can be
    constructed), for every sequence of pseudo-random numbers: no
    exception leaves it, [rand] is called [2 N^2] times, and the text
    printed is the prompt, [A], [B], and twice the same matrix, once from
    [P_Strassen] and once from [Multiplication]: the product of [A] and
    [B] in [int] arithmetic. *)
Theorem main_prints_the_product_twice (N : Z) :
  0 <= N <= 46340 ->
  exists h,
    main rand N world0 =
      (Ok tt,
       mkWorld h (2 * Z.to_nat (N * N))
         (transcript N (gen_A rand N) (gen_B rand N)
            (wrapped_product N (gen_A rand N) (gen_B rand N)))).
Proof. intros HN. apply (main_run rand N). lia. Qed.

(** X15: for [0 <= N <= 46340], with [rand] returning what the C
    library promises (a number that is not negative), the entries of [A]
    and [B] lie between -100 and 100 and the matrix printed twice is the
    product over the integers: a sum of [N] products of such entries is
    within the range of [int] ([product_fits]), and sums inside
    [P_Strassen] that wrap around do not change the result. *)
Theorem main_prints_the_exact_product (N : Z) :
  0 <= N <= 46340 -> (forall k, 0 <= rand k) ->
  (exists h,
     main rand N world0 =
       (Ok tt,
        mkWorld h (2 * Z.to_nat (N * N))
          (transcript N (gen_A rand N) (gen_B rand N)
             (mmul (T:=Z) N (gen_A rand N) (gen_B rand N))))) /\
  (forall i j, -100 <= gen_A rand N i j <= 100 /\
               -100 <= gen_B rand N i j <= 100).
Proof.
  intros HN Hr.
  assert (Hg : forall i j, -100 <= gen_A rand N i j <= 100 /\
                           -100 <= gen_B rand N i j <= 100).
  { intros i j. unfold gen_A, gen_B. split; apply entry_range, Hr. }
  split; [|exact Hg].
  destruct (main_run rand N ltac:(lia)) as (h & E). exists h. rewrite E.
  do 2 f_equal. unfold transcript.
  rewrite (matrix_text_ext
             (wrapped_product N (gen_A rand N) (gen_B rand N))
             (mmul (T:=Z) N (gen_A rand N) (gen_B rand N))); auto.
  intros i j Hi Hj. apply product_fits; [lia|].
  intros k Hk. split; apply Hg.
Qed.

(** X16: [main] with a negative [N] whose square is an [int],
    [-46340 <= N < 0].  The three matrices are constructed (with [N * N]
    cells and [N] rows) and no number is printed.  When [N] is even
    [P_Strassen] throws [IllegalViewSize(N / 2, N / 2)], which nothing
    catches, after the heading of the first product; when [N] is odd the
    run is complete, with empty matrices. *)
Theorem main_with_negative_N (N : Z) :
  -46340 <= N < 0 ->
  (Z.rem N 2 = 0 ->
   main rand N world0 =
     (Throw (IllegalViewSize (Z.quot N 2) (Z.quot N 2)),
      mkWorld [fresh_matrix 0 N; fresh_matrix 1 N; fresh_matrix 2 N] 0
        [Text "Give the row length N of N X N matrix: "; Text "A:\n";
         Text "\nB:\n"; Text "\nC using parallel Strassen Algorithm:\n\n"])) /\
  (Z.rem N 2 <> 0 ->
   main rand N world0 =
     (Ok tt,
      mkWorld [fresh_matrix 0 N; fresh_matrix 1 N; fresh_matrix 2 N] 0
        (transcript N (fun _ _ => 0) (fun _ _ => 0) (fun _ _ => 0)))).
Proof.
  intros [_ HN].
  split; intros Hp; unfold main, world0;
    rewrite bind_cout; cbn [app];
    do 3 (rewrite (bind_on_memory _ _ _ _ _ _ _ (Matrix_new_run N _));
          cbn [length app]);
    rewrite (bind_ok _ _ _ _ _ (loop_nothing N _ _ ltac:(lia)));
    rewrite bind_cout; unfold print_matrix;
    rewrite (bind_ok _ _ _ _ _ (loop_nothing N _ _ ltac:(lia)));
    rewrite bind_cout;
    rewrite (bind_ok _ _ _ _ _ (loop_nothing N _ _ ltac:(lia)));
    rewrite bind_cout;
    rewrite (bind_on_memory _ _ _ _ _ _ _
               (Matrix_makeView_run 0 N (fresh_matrix 0 N)
                  [fresh_matrix 0 N; fresh_matrix 1 N; fresh_matrix 2 N]
                  eq_refl eq_refl eq_refl));
    rewrite (bind_on_memory _ _ _ _ _ _ _
               (Matrix_makeView_run 1 N (fresh_matrix 1 N)
                  [fresh_matrix 0 N; fresh_matrix 1 N; fresh_matrix 2 N]
                  eq_refl eq_refl eq_refl));
    rewrite (bind_on_memory _ _ _ _ _ _ _
               (Matrix_makeView_run 2 N (fresh_matrix 2 N)
                  [fresh_matrix 0 N; fresh_matrix 1 N; fresh_matrix 2 N]
                  eq_refl eq_refl eq_refl)).
  - apply bind_throw. apply on_memory_run.
    apply negative_even_size_throws; auto. lia.
  - rewrite (bind_on_memory _ _ _ _ _ _ _
               (P_Strassen_hands_over_nothing _ _ _ N 0 _ HN (or_introl Hp))).
    rewrite (bind_ok _ _ _ _ _ (loop_nothing N _ _ ltac:(lia))).
    do 7 rewrite bind_cout.
    rewrite (bind_on_memory _ _ _ _ _ _ _
               (Multiplication_nothing _ _ _ N _ ltac:(lia))).
    rewrite (bind_ok _ _ _ _ _ (loop_nothing N _ _ ltac:(lia))).
    do 5 rewrite bind_cout. unfold cout. cbn [memory rand_calls printed].
    unfold transcript. rewrite !matrix_text_nothing by lia. reflexivity.
Qed.

End MainTheorems.

(** ** What a normal return tells, and what can never happen *)

Section Outcomes.

Context {T : Type} {ST : Scalar T} {UT : Indeterminate T}.

Implicit Types (h : heap T) (v : View).

Lemma bind_inv {A B} (m : M T A) (k : A -> M T B) h (y : B) h' :
  bind m k h = (Ok y, h') ->
  exists x h1, m h = (Ok x, h1) /\ k x h1 = (Ok y, h').
Proof.
  unfold bind. destruct (m h) as [[x| | |] h1]; try discriminate. eauto.
Qed.

Lemma for_from_inv (cnt : nat) : forall (i0 : Z) (body : Z -> M T unit) h h',
  for_from cnt i0 body h = (Ok tt, h') ->
  forall i, i0 <= i < i0 + Z.of_nat cnt ->
    exists h1 h2, body i h1 = (Ok tt, h2).
Proof.
  induction cnt as [|cnt IH]; intros i0 body h h' E i Hi; [lia|].
  cbn [for_from] in E. apply bind_inv in E as ([] & h1 & E1 & E2).
  destruct (Z.eq_dec i i0) as [->|Hne]; [eauto|].
  apply (IH _ _ _ _ E2). lia.
Qed.

Lemma For_inv (n : Z) (body : Z -> M T unit) h h' (i : Z) :
  For n body h = (Ok tt, h') -> 0 <= i < n ->
  exists h1 h2, body i h1 = (Ok tt, h2).
Proof. intros E Hi. apply (for_from_inv _ _ _ _ _ E). lia. Qed.

Lemma View_at_in_range v (i j : Z) h (r : ref) :
  View_at v i j h = Ok r -> 0 <= i < maxRows v /\ 0 <= j < maxCols v.
Proof.
  destruct v as [b ro co mr mc]. cbn [View_at maxRows maxCols].
  destruct (bad_index i j mr mc) eqn:Hb; [discriminate|].
  intros _. now apply bad_index_false.
Qed.

Lemma View_get_in_range v (i j : Z) h (t : T) h' :
  View_get v i j h = (Ok t, h') -> 0 <= i < maxRows v /\ 0 <= j < maxCols v.
Proof.
  intros E. apply bind_inv in E as (r & h1 & E1 & _).
  unfold reading in E1. injection E1 as E1 _.
  now apply View_at_in_range in E1.
Qed.

Lemma View_set_in_range v (i j : Z) (t : T) h h' :
  View_set v i j t h = (Ok tt, h') -> 0 <= i < maxRows v /\ 0 <= j < maxCols v.
Proof.
  intros E. apply bind_inv in E as (r & h1 & E1 & _).
  unfold reading in E1. injection E1 as E1 _.
  now apply View_at_in_range in E1.
Qed.

Lemma Multiplication_needs_room (a b c : View) (size : Z) h h' :
  0 < size -> Multiplication a b c size h = (Ok tt, h') ->
  fits a size = true /\ fits b size = true /\ fits c size = true.
Proof.
  intros Hs E. unfold Multiplication in E.
  assert (Hl : 0 <= size - 1 < size) by lia.
  destruct (For_inv _ _ _ _ (size - 1) E Hl) as (h1 & h2 & Ei).
  destruct (For_inv _ _ _ _ (size - 1) Ei Hl) as (h3 & h4 & Ej).
  apply bind_inv in Ej as ([] & h5 & Ec & Ek).
  apply View_set_in_range in Ec.
  destruct (For_inv _ _ _ _ (size - 1) Ek Hl) as (h6 & h7 & Eb).
  apply bind_inv in Eb as (x & h8 & _ & Eb).
  apply bind_inv in Eb as (y & h9 & Ea & Eb).
  apply bind_inv in Eb as (z & h10 & Eb & _).
  apply View_get_in_range in Ea. apply View_get_in_range in Eb.
  unfold fits. rewrite !andb_true_iff, !Z.leb_le. lia.
Qed.

Lemma P_Strassen_needs_room (a b c : View) (size level : Z) h h' :
  0 < size -> P_Strassen a b c size level h = (Ok tt, h') ->
  fits a size = true /\ fits b size = true /\ fits c size = true.
Proof.
  intros Hs E.
  destruct (Z.eq_dec size 1) as [->|H1].
  { unfold P_Strassen in E. cbn [P_Strassen_fuel] in E.
    change (1 =? 1) with true in E. cbv iota in E.
    apply bind_inv in E as (x & h1 & Ea & E).
    apply bind_inv in E as (y & h2 & Eb & Ec).
    apply View_get_in_range in Ea. apply View_get_in_range in Eb.
    apply View_set_in_range in Ec.
    unfold fits. rewrite !andb_true_iff, !Z.leb_le. lia. }
  destruct (Z.eq_dec (Z.rem size 2) 0) as [He|Ho].
  - destruct (Z_le_gt_dec level 1) as [Hl|Hl].
    + destruct (fits a size && fits b size && fits c size) eqn:F.
      * apply andb_prop in F as [F Fc]. apply andb_prop in F as [Fa Fb]. auto.
      * rewrite (small_views_refused a b c size level h) in E by (auto; lia).
        discriminate.
    + apply (Multiplication_needs_room a b c size h h' Hs).
      rewrite <- E. symmetry. unfold P_Strassen. cbn [P_Strassen_fuel].
      replace (size =? 1) with false by (symmetry; apply Z.eqb_neq; lia).
      rewrite He. change (0 =? 0) with true. cbn [negb].
      now replace (level >? 1) with true by (symmetry; lia).
  - apply (Multiplication_needs_room a b c size h h' Hs).
    rewrite <- E. symmetry. unfold P_Strassen. cbn [P_Strassen_fuel].
    replace (size =? 1) with false by (symmetry; apply Z.eqb_neq; lia).
    now replace (Z.rem size 2 =? 0) with false
      by (symmetry; now apply Z.eqb_neq).
Qed.

Lemma keeps_of_wo {A} (W : nat -> Z -> Z -> Prop) (m : M T A) :
  writes_only W m -> keeps_shape m.
Proof. intros Hw h. apply (Hw h). Qed.

Lemma keeps_bind {A B} (m : M T A) (k : A -> M T B) :
  keeps_shape m -> (forall x, keeps_shape (k x)) -> keeps_shape (bind m k).
Proof.
  intros Hm Hk h. specialize (Hm h). unfold bind.
  destruct (m h) as [[x| | |] h1]; cbn [snd] in *; auto.
  now rewrite Hk.
Qed.

Lemma keeps_For (n : Z) (body : Z -> M T unit) :
  (forall i, keeps_shape (body i)) -> keeps_shape (For n body).
Proof.
  intros Hb. unfold For. generalize 0. induction (Z.to_nat n) as [|cnt IH];
    intros i0.
  - intros h. reflexivity.
  - cbn [for_from]. apply keeps_bind; auto.
Qed.

Ltac keeps :=
  repeat first
    [ apply (keeps_of_wo (fun _ _ _ => True)), wo_View_get
    | eapply keeps_of_wo, wo_View_set
    | apply keeps_For; intros
    | apply keeps_bind; [|intros] ].

Lemma defined_at_bind {A B} (h0 : heap T) (m : M T A) (k : A -> M T B) :
  keeps_shape m -> defined_at h0 m -> (forall x, defined_at h0 (k x)) ->
  defined_at h0 (bind m k).
Proof.
  intros Hw Hm Hk h Hwf Hd. specialize (Hm h Hwf Hd).
  pose proof (Hw h) as Hfr. unfold bind.
  destruct (m h) as [[x| | |] h1]; cbn [fst snd] in *; try congruence.
  apply Hk.
  - now rewrite (heap_wf_dims _ _ Hfr).
  - congruence.
Qed.

Lemma defined_at_For (h0 : heap T) (n : Z) (body : Z -> M T unit) :
  (forall i, keeps_shape (body i)) -> (forall i, defined_at h0 (body i)) ->
  defined_at h0 (For n body).
Proof.
  intros Hw Hb. unfold For. generalize 0.
  induction (Z.to_nat n) as [|cnt IH]; intros i0.
  - intros h _ _. cbn. congruence.
  - cbn [for_from]. apply defined_at_bind; auto.
Qed.

Lemma defined_at_View_get (h0 : heap T) v (i j : Z) :
  view_ok h0 v = true -> defined_at h0 (View_get v i j).
Proof.
  intros Hv h Hwf Hd. rewrite <- (view_ok_dims _ _ _ Hd) in Hv.
  destruct (bad_index i j (maxRows v) (maxCols v)) eqn:Hb.
  - destruct v as [b ro co mr mc]. unfold View_get, bind, reading.
    cbn [View_at maxRows maxCols] in *. rewrite Hb. cbn. congruence.
  - destruct (View_get_total v i j h Hwf Hv Hb) as (t & _ & E).
    rewrite E. cbn. congruence.
Qed.

Lemma defined_at_View_set (h0 : heap T) v (i j : Z) (t : T) :
  view_ok h0 v = true -> defined_at h0 (View_set v i j t).
Proof.
  intros Hv h Hwf Hd. rewrite <- (view_ok_dims _ _ _ Hd) in Hv.
  destruct (bad_index i j (maxRows v) (maxCols v)) eqn:Hb.
  - destruct v as [b ro co mr mc]. unfold View_set, bind, reading.
    cbn [View_at maxRows maxCols] in *. rewrite Hb. cbn. congruence.
  - destruct (View_set_run v i j h t Hwf Hv Hb) as (h' & E & _).
    rewrite E. cbn. congruence.
Qed.

(** A sequence of element accesses through views that keep their
    invariant has a defined outcome. *)
Ltac defined :=
  repeat first
    [ apply defined_at_View_get; assumption
    | apply defined_at_View_set; assumption
    | apply defined_at_For; [intros; keeps|intros]
    | apply defined_at_bind; [keeps| |intros] ].

Lemma defined_at_assign2 (h0 : heap T) (op : T -> T -> T) (n : Z)
      (d x y : View) :
  view_ok h0 d = true -> view_ok h0 x = true -> view_ok h0 y = true ->
  defined_at h0 (assign2 op n d x y).
Proof. intros Hd Hx Hy. unfold assign2. defined. Qed.

Lemma defined_at_assign4 (h0 : heap T) (op1 op2 op3 : T -> T -> T) (n : Z)
      (d w x y z : View) :
  view_ok h0 d = true -> view_ok h0 w = true -> view_ok h0 x = true ->
  view_ok h0 y = true -> view_ok h0 z = true ->
  defined_at h0 (assign4 op1 op2 op3 n d w x y z).
Proof. intros Hd Hw Hx Hy Hz. unfold assign4. defined. Qed.

Lemma defined_at_Multiplication (h0 : heap T) (a b c : View) (size : Z) :
  view_ok h0 a = true -> view_ok h0 b = true -> view_ok h0 c = true ->
  defined_at h0 (Multiplication a b c size).
Proof. intros Ha Hb Hc. unfold Multiplication. defined. Qed.

Lemma fst_scope {A} (body : M T A) h : fst (scope body h) = fst (body h).
Proof. unfold scope. now destruct (body h). Qed.

(** One local matrix more, the views at hand staying within their
    parents. *)
Ltac new_local Hn :=
  rewrite bind_local_matrix; cbv beta;
  match goal with
  | Hwf : heap_wf ?hh = true
    |- context [app ?hh (cons (fresh_matrix _ ?n) nil)] =>
      let h' := fresh "h" in
      let Eh := fresh "Eh" in let Hwf' := fresh "Hwf" in
      let Hl := fresh "Hl" in let Hnew := fresh "Hnew" in
      let Hvo := fresh "Hvo" in let Hsh := fresh "Hsh" in
      destruct (local_facts hh n Hn Hwf)
        as (h' & Eh & Hwf' & Hl & Hnew & Hvo & Hsh);
      rewrite <- Eh; clear Eh;
      repeat match goal with
      | H : view_ok hh _ = true |- _ => apply Hvo in H
      end;
      clear Hvo Hsh Hl Hwf
  end.

Lemma defined_at_P_Strassen_fuel (fuel : nat) :
  forall (a b c : View) (size level : Z) (h0 : heap T),
    view_ok h0 a = true -> view_ok h0 b = true -> view_ok h0 c = true ->
    defined_at h0 (P_Strassen_fuel fuel a b c size level).
Proof.
  induction fuel as [|fuel IH]; intros a b c size level h0 Ha Hb Hc.
  { intros h _ _. cbn. congruence. }
  cbn [P_Strassen_fuel].
  destruct (size =? 1); [defined|].
  destruct (negb (Z.rem size 2 =? 0));
    [now apply defined_at_Multiplication|].
  destruct (level >? 1); [now apply defined_at_Multiplication|].
  cbv zeta. set (n := Z.quot size 2).
  intros h Hwf Hd.
  rewrite <- (view_ok_dims _ _ a Hd) in Ha.
  rewrite <- (view_ok_dims _ _ b Hd) in Hb.
  rewrite <- (view_ok_dims _ _ c Hd) in Hc. clear Hd h0.
  repeat match goal with
  | |- fst (bind (lift (View_makeView ?v ?r ?c ?nr ?nc)) ?k ?hh) <> _ =>
      let E := fresh "E" in let B := fresh "B" in
      destruct (bind_makeView_cases v r c nr nc k hh) as [[_ E]|[B E]];
      rewrite E; clear E;
      [cbn; congruence|cbv beta; apply bad_view_false in B]
  end.
  assert (Hn : 0 <= n) by lia.
  repeat match goal with
  | B : 0 <= ?dr /\ ?dr + n <= maxRows ?v /\ 0 <= ?dc /\ ?dc + n <= maxCols ?v,
    Hv : view_ok h ?v = true |- _ =>
      let Hq := fresh "Hq" in
      pose proof (view_ok_quadrant h v dr dc n Hv
                    (proj1 B) (proj1 (proj2 B))
                    (proj1 (proj2 (proj2 B))) (proj2 (proj2 (proj2 B)))) as Hq;
      clear B
  end.
  rewrite fst_scope.
  do 17 (new_local Hn).
  match goal with
  | Hw : heap_wf ?hh = true |- fst (?rest ?hh) <> Undefined =>
      cut (defined_at hh rest); [intros D; now apply D|]
  end.
  repeat (apply defined_at_bind;
          [first [ eapply keeps_of_wo, wo_assign2
                 | eapply keeps_of_wo, wo_assign4
                 | eapply keeps_of_wo, wo_P_Strassen_fuel ]
          |first [ apply defined_at_assign2; assumption
                 | apply defined_at_assign4; assumption
                 | apply IH; assumption ]
          |intros _]).
  apply defined_at_assign4; assumption.
Qed.

Lemma small_views_throw (a b c : View) (size level : Z) h :
  0 < size -> heap_wf h = true ->
  view_ok h a = true -> view_ok h b = true -> view_ok h c = true ->
  fits a size && fits b size && fits c size = false ->
  (exists e, fst (Multiplication a b c size h) = Throw e) /\
  (exists e, fst (P_Strassen a b c size level h) = Throw e).
Proof.
  intros Hs Hwf Ha Hb Hc F. split.
  - pose proof (defined_at_Multiplication h a b c size Ha Hb Hc h Hwf eq_refl)
      as D.
    pose proof (terminates_Multiplication a b c size h) as Tm.
    destruct (Multiplication a b c size h) as [[[]|e| |] h'] eqn:E;
      cbn [fst] in *; [|eauto|congruence..].
    apply (Multiplication_needs_room a b c size h h' Hs) in E
      as (Fa & Fb & Fc).
    rewrite Fa, Fb, Fc in F. discriminate.
  - pose proof (defined_at_P_Strassen_fuel (S (Z.to_nat (2 - level)))
                  a b c size level h Ha Hb Hc h Hwf eq_refl) as D.
    pose proof (terminates_P_Strassen_fuel (S (Z.to_nat (2 - level)))
                  a b c size level ltac:(lia) h) as Tm.
    fold (P_Strassen a b c size level) in D, Tm.
    destruct (P_Strassen a b c size level h) as [[[]|e| |] h'] eqn:E;
      cbn [fst] in *; [|eauto|congruence..].
    apply (P_Strassen_needs_room a b c size level h h' Hs) in E
      as (Fa & Fb & Fc).
    rewrite Fa, Fb, Fc in F. discriminate.
Qed.

(** X17: a normal return tells that there was room.  For [size > 0],
    whatever the views and the store, if [Multiplication] or
    [P_Strassen] returns without an exception then each of [a], [b], [c]
    has at least [size] rows and [size] columns.  And on a store whose
    matrices have their buffers, with views that lie within their
    parents, a call on views of which one is smaller ends in an
    exception. *)
Theorem completion_requires_fitting_views
        (a b c : View) (size level : Z) h :
  0 < size ->
  (forall h',
     Multiplication a b c size h = (Ok tt, h') \/
     P_Strassen a b c size level h = (Ok tt, h') ->
     fits a size = true /\ fits b size = true /\ fits c size = true) /\
  (heap_wf h = true ->
   view_ok h a = true -> view_ok h b = true -> view_ok h c = true ->
   fits a size && fits b size && fits c size = false ->
   (exists e, fst (Multiplication a b c size h) = Throw e) /\
   (exists e, fst (P_Strassen a b c size level h) = Throw e)).
Proof.
  intros Hs. split.
  - intros h' [E|E].
    + exact (Multiplication_needs_room a b c size h h' Hs E).
    + exact (P_Strassen_needs_room a b c size level h h' Hs E).
  - now apply small_views_throw.
Qed.

(** X18: no undefined behaviour.  On a store whose matrices have their
    buffers and with views that lie within their parents, whatever their
    extents, the size and the level, [Multiplication] and [P_Strassen]
    never follow a dangling reference and never leave a buffer; the call
    ends, and its outcome is a normal return or one of the two
    exceptions. *)
Theorem no_undefined_behaviour (a b c : View) (size level : Z) h :
  heap_wf h = true ->
  view_ok h a = true -> view_ok h b = true -> view_ok h c = true ->
  (fst (Multiplication a b c size h) <> Undefined /\
   fst (Multiplication a b c size h) <> OutOfFuel) /\
  (fst (P_Strassen a b c size level h) <> Undefined /\
   fst (P_Strassen a b c size level h) <> OutOfFuel).
Proof.
  intros Hwf Ha Hb Hc. repeat split.
  - now apply (defined_at_Multiplication h a b c size).
  - apply terminates_Multiplication.
  - now apply (defined_at_P_Strassen_fuel _ a b c size level h).
  - apply terminates_P_Strassen_fuel. lia.
Qed.

End Outcomes.

(** ** The properties above on concrete inputs *)

Lemma View_access_is_root_access_witness :
  View_get (mkView (OfView (mkView (OfMatrix 0) 0 1 2 1)) 1 0 1 1) 0 0 ex_heap =
    Matrix_get 0 1 1 ex_heap /\
  View_set (mkView (OfView (mkView (OfMatrix 0) 0 1 2 1)) 1 0 1 1) 0 0 9 ex_heap =
    Matrix_set 0 1 1 9 ex_heap.
Proof.
  apply (View_access_is_root_access
           (mkView (OfView (mkView (OfMatrix 0) 0 1 2 1)) 1 0 1 1)
           0 0 9 ex_heap);
    [reflexivity|simpl; lia|simpl; lia].
Defined.

Lemma View_set_then_get_witness :
  exists h', View_set ex_c 0 1 9 ex_heap = (Ok tt, h') /\
    View_get (mkView (OfView ex_c) 0 1 2 1) 0 0 h' = (Ok 9, h') /\
    fst (View_get ex_c 1 1 h') = fst (View_get ex_c 1 1 ex_heap).
Proof.
  destruct (View_set_then_get ex_c 0 1 9 ex_heap eq_refl eq_refl
              ltac:(simpl; lia) ltac:(simpl; lia)) as (h' & E & _ & H).
  destruct (H (mkView (OfView ex_c) 0 1 2 1) 0 0 eq_refl
              ltac:(simpl; lia) ltac:(simpl; lia)) as (_ & H1 & _).
  destruct (H ex_c 1 1 eq_refl ltac:(simpl; lia) ltac:(simpl; lia))
    as (_ & _ & H2).
  exists h'. split; [exact E|]. split.
  - apply H1. simpl. lia.
  - apply H2. simpl. lia.
Defined.


Lemma nothing_to_multiply_witness :
  Multiplication ex_a ex_b ex_c 0 ex_heap = (Ok tt, ex_heap) /\
  P_Strassen ex_a ex_b ex_c (-3) 0 ex_heap = (Ok tt, ex_heap) /\
  P_Strassen ex_a ex_b ex_c 0 0 ex_heap = (Ok tt, ex_heap).
Proof.
  destruct (nothing_to_multiply ex_a ex_b ex_c 0 0 ex_heap) as (H1 & _ & H3).
  destruct (nothing_to_multiply ex_a ex_b ex_c (-3) 0 ex_heap) as (_ & H2 & _).
  split; [apply H1; lia|]. split.
  - apply H2; [lia|left; vm_compute; discriminate].
  - apply H3; simpl; lia.
Defined.

Lemma P_Strassen_negative_even_size_witness :
  P_Strassen ex_a ex_b ex_c (-4) 1 ex_heap =
    (Throw (IllegalViewSize (-2) (-2)), ex_heap).
Proof.
  apply (P_Strassen_negative_even_size ex_a ex_b ex_c (-4) 1 ex_heap);
    [lia|reflexivity|lia].
Defined.

Lemma P_Strassen_refuses_small_views_witness :
  P_Strassen ex_a ex_b ex_c 4 0 ex_heap =
    (Throw (IllegalViewSize 2 2), ex_heap).
Proof.
  apply (P_Strassen_refuses_small_views ex_a ex_b ex_c 4 0 ex_heap);
    [lia|reflexivity|lia|reflexivity].
Defined.

(** Here the output is one of the inputs: the product is left in [a]. *)
Lemma P_Strassen_computes_product_witness :
  exists h1, P_Strassen ex_a ex_b ex_a 2 0 ex_heap = (Ok tt, h1) /\
    forall i j, 0 <= i < 2 -> 0 <= j < 2 ->
      View_get ex_a i j h1 =
        (Ok (Sigma (Z.to_nat 2)
               (fun k => smul (vmat ex_heap ex_a i k) (vmat ex_heap ex_b k j))),
         h1).
Proof.
  apply (P_Strassen_computes_product ex_a ex_b ex_a 2 0 ex_heap);
    try reflexivity; [lia|intros H; vm_compute in H; discriminate H].
Defined.

Lemma identity_is_neutral_witness :
  exists h1 h2,
    P_Strassen ex_a ex_b ex_c 2 0 ex_heapI = (Ok tt, h1) /\
    Multiplication ex_a ex_b ex_c 2 ex_heapI = (Ok tt, h2) /\
    forall i j, 0 <= i < 2 -> 0 <= j < 2 ->
      View_get ex_c i j h1 = (Ok (vmat ex_heapI ex_a i j), h1) /\
      View_get ex_c i j h2 = (Ok (vmat ex_heapI ex_a i j), h2).
Proof.
  destruct (identity_is_neutral ex_a ex_b ex_c 2 0 ex_heapI ltac:(lia)
              eq_refl eq_refl eq_refl eq_refl eq_refl eq_refl eq_refl
              eq_refl eq_refl) as (h1 & h2 & E1 & E2 & HR & _).
  exists h1, h2. split; [exact E1|]. split; [exact E2|]. apply HR.
  intros i j Hi Hj.
  assert (Ci : i = 0 \/ i = 1) by lia. assert (Cj : j = 0 \/ j = 1) by lia.
  destruct Ci as [->| ->], Cj as [->| ->]; reflexivity.
Defined.

Lemma zero_annihilates_witness :
  exists h1 h2,
    P_Strassen ex_a ex_c ex_b 2 0 ex_heap = (Ok tt, h1) /\
    Multiplication ex_a ex_c ex_b 2 ex_heap = (Ok tt, h2) /\
    forall i j, 0 <= i < 2 -> 0 <= j < 2 ->
      View_get ex_b i j h1 = (Ok szero, h1) /\
      View_get ex_b i j h2 = (Ok szero, h2).
Proof.
  apply (zero_annihilates ex_a ex_c ex_b 2 0 ex_heap); try reflexivity;
    [lia|].
  right. intros i j Hi Hj.
  assert (Ci : i = 0 \/ i = 1) by lia. assert (Cj : j = 0 \/ j = 1) by lia.
  destruct Ci as [->| ->], Cj as [->| ->]; reflexivity.
Defined.

Lemma P_Strassen_output_from_inputs_only_witness :
  exists h1' h2',
    P_Strassen (UT:=ex_junk) ex_a ex_b ex_c 2 0 ex_heap = (Ok tt, h1') /\
    P_Strassen (UT:=ex_junk0) ex_a ex_b ex_c 2 0 ex_heap' = (Ok tt, h2') /\
    forall i j, 0 <= i < 2 -> 0 <= j < 2 ->
      exists t, View_get ex_c i j h1' = (Ok t, h1') /\
                View_get ex_c i j h2' = (Ok t, h2').
Proof.
  apply (P_Strassen_output_from_inputs_only ex_junk ex_junk0
           ex_a ex_b ex_c 2 0 ex_heap ex_heap'); try reflexivity;
    [lia|intros H; vm_compute in H; discriminate H
        |intros i j _ _; split; reflexivity].
Defined.

Lemma Matrix_copy_is_deep_witness :
  Matrix_copy 1 ex_heap = (Ok 3%nat, ex_heap ++ [ex_B]) /\
  forall (i j t : Z) h',
    Matrix_set 3 i j t (ex_heap ++ [ex_B]) = (Ok tt, h') ->
    nth_error h' 1 = Some ex_B /\ firstn 3 h' = ex_heap.
Proof.
  apply (Matrix_copy_is_deep 1 ex_B ex_heap);
    [reflexivity|reflexivity|simpl; lia].
Defined.

Lemma Matrix_assign_copies_witness :
  Matrix_assign (fun _ => 7) 0 1 ex_heap = (Ok tt, [ex_B; ex_B; ex_C]) /\
  Matrix_assign (fun _ => 7) 0 0 ex_heap =
    (Ok tt, [mkMatrix 2 2 [7; 7; 7; 7]; ex_B; ex_C]).
Proof.
  split.
  - apply (proj1 (Matrix_assign_copies (fun _ => 7) 0 1 ex_A ex_B ex_heap
                    eq_refl eq_refl eq_refl ltac:(simpl; lia))). lia.
  - apply (proj2 (Matrix_assign_copies (fun _ => 7) 0 0 ex_A ex_A ex_heap
                    eq_refl eq_refl eq_refl ltac:(simpl; lia))). reflexivity.
Defined.

Lemma main_prints_the_product_twice_witness :
  exists h,
    main (UT:=ex_junk32) ex_rand 2 world0 =
      (Ok tt,
       mkWorld h 8
         (transcript 2 (gen_A ex_rand 2) (gen_B ex_rand 2)
            (wrapped_product 2 (gen_A ex_rand 2) (gen_B ex_rand 2)))).
Proof.
  apply (main_prints_the_product_twice (UT:=ex_junk32) ex_rand 2). lia.
Defined.

Lemma main_prints_the_exact_product_witness :
  (exists h,
     main (UT:=ex_junk32) ex_rand 2 world0 =
       (Ok tt,
        mkWorld h 8
          (transcript 2 (gen_A ex_rand 2) (gen_B ex_rand 2)
             (mmul (T:=Z) 2 (gen_A ex_rand 2) (gen_B ex_rand 2))))) /\
  (forall i j, -100 <= gen_A ex_rand 2 i j <= 100 /\
               -100 <= gen_B ex_rand 2 i j <= 100).
Proof.
  apply (main_prints_the_exact_product (UT:=ex_junk32) ex_rand 2);
    [lia|intros k; unfold ex_rand; lia].
Defined.

Lemma main_with_negative_N_witness :
  main (UT:=ex_junk32) ex_rand (-2) world0 =
    (Throw (IllegalViewSize (-1) (-1)),
     mkWorld [fresh_matrix 0 (-2); fresh_matrix 1 (-2); fresh_matrix 2 (-2)] 0
       [Text "Give the row length N of N X N matrix: "; Text "A:\n";
        Text "\nB:\n"; Text "\nC using parallel Strassen Algorithm:\n\n"]) /\
  main (UT:=ex_junk32) ex_rand (-3) world0 =
    (Ok tt,
     mkWorld [fresh_matrix 0 (-3); fresh_matrix 1 (-3); fresh_matrix 2 (-3)] 0
       (transcript (-3) (fun _ _ => 0) (fun _ _ => 0) (fun _ _ => 0))).
Proof.
  split.
  - apply (proj1 (main_with_negative_N (UT:=ex_junk32) ex_rand (-2)
                    ltac:(lia))). reflexivity.
  - apply (proj2 (main_with_negative_N (UT:=ex_junk32) ex_rand (-3)
                    ltac:(lia))). vm_compute. discriminate.
Defined.

(** Size 2 on the 2 x 2 views returns; size 3 on them ends in an
    exception. *)
Lemma completion_requires_fitting_views_witness :
  (fits ex_a 2 = true /\ fits ex_b 2 = true /\ fits ex_c 2 = true) /\
  (exists e, fst (Multiplication ex_a ex_b ex_c 3 ex_heap) = Throw e) /\
  (exists e, fst (P_Strassen ex_a ex_b ex_c 3 0 ex_heap) = Throw e).
Proof.
  split.
  - apply (proj1 (completion_requires_fitting_views ex_a ex_b ex_c 2 0 ex_heap
                    ltac:(lia))
             [ex_A; ex_B; mkMatrix 2 2 [19; 22; 43; 50]]).
    right. reflexivity.
  - apply (proj2 (completion_requires_fitting_views ex_a ex_b ex_c 3 0 ex_heap
                    ltac:(lia))); reflexivity.
Defined.

(** A product of size 5 asked on views of 2 x 2 elements ends in an
    exception, not in an access outside a buffer. *)
Lemma no_undefined_behaviour_witness :
  (fst (Multiplication ex_a ex_b ex_c 5 ex_heap) <> Undefined /\
   fst (Multiplication ex_a ex_b ex_c 5 ex_heap) <> OutOfFuel) /\
  (fst (P_Strassen ex_a ex_b ex_c 5 0 ex_heap) <> Undefined /\
   fst (P_Strassen ex_a ex_b ex_c 5 0 ex_heap) <> OutOfFuel).
Proof.
  apply (no_undefined_behaviour ex_a ex_b ex_c 5 0 ex_heap); reflexivity.
Defined.

(** What the driver prints for N = 2 and the sequence [ex_rand]. *)
Example main_on_2 :
  printed (snd (main (UT:=ex_junk32) ex_rand 2 world0)) =
    transcript 2
      (fun i j => nth (Z.to_nat (2 * i + j)) [-87; 73; 32; -9] 0)
      (fun i j => nth (Z.to_nat (2 * i + j)) [-7; -48; -89; 71] 0)
      (fun i j => nth (Z.to_nat (2 * i + j)) [-5888; 9359; 577; -2175] 0).
Proof. vm_compute. reflexivity. Qed.
